(** * csc::List<T>: a doubly linked list with a trailing sentinel node

    Shallow embedding of [src/list.hpp].  Nodes live in an explicit heap;
    every pointer dereference, store and [delete] is an operation of a small
    state-and-error monad, so that a null or dangling access is a visible
    outcome ([Fault]) instead of silent undefined behaviour.  The loops of
    the source ([clear], the range constructors, a client's iteration) run
    on fuel; [size_] is a 64-bit counter with its wrap-around; [new] is any
    allocator that returns unused addresses, and never fails. *)

From stdpp Require Import gmap list fin_maps.
From Stdlib Require Import ZArith Lia.

Local Open Scope Z_scope.

(** ** Memory model *)

(** Addresses of heap objects.  A [Node*] is an optional address; [None] is
    [nullptr]. *)
Definition loc := positive.
Abbreviation ptr := (option loc).

(** [struct Node { Node* next_; Node* prev_; T data_; }] *)
Record Node (T : Type) := mkNode { next_ : ptr; prev_ : ptr; data_ : T }.
Arguments mkNode {T} _ _ _.
Arguments next_ {T} _.
Arguments prev_ {T} _.
Arguments data_ {T} _.

(** An address that [new] has handed out holds a live node until it is
    deleted; afterwards it stays [Freed] and is never handed out again, so
    every later access through a dangling pointer is detected. *)
Inductive cell (T : Type) := Live (n : Node T) | Freed.
Arguments Live {T} _.
Arguments Freed {T}.

Abbreviation heap T := (gmap loc (cell T)).

(** [T()], the value the sentinel node is built with. *)
Class ValueInit (T : Type) := value_init : T.

(** [operator new]: any policy that returns an address never used before. *)
Class Allocator (T : Type) := {
  alloc : heap T → loc;
  alloc_fresh : ∀ h, h !! alloc h = None
}.

(** Outcome of running a piece of the program. *)
Inductive result (A : Type) : Type :=
  | Ok (a : A)
  | Fault          (* null or dangling dereference, double delete *)
  | OutOfFuel.     (* a loop was cut off by the fuel of the model *)
Arguments Ok {A} _.
Arguments Fault {A}.
Arguments OutOfFuel {A}.

(** Heap computations. *)
Definition M (T A : Type) : Type := heap T → result (A * heap T).

Definition ret {T A} (a : A) : M T A := λ h, Ok (a, h).

Definition bind {T A B} (c : M T A) (k : A → M T B) : M T B :=
  λ h, match c h with
       | Ok (a, h') => k a h'
       | Fault => Fault
       | OutOfFuel => OutOfFuel
       end.

Definition out_of_fuel {T A} : M T A := λ _, OutOfFuel.

Notation "'let*' x ':=' c 'in' k" := (bind c (λ x, k))
  (at level 10, x name, c at level 100, k at level 200).
Notation "c ';;' k" := (bind c (λ _, k))
  (at level 100, k at level 200, right associativity).

(** 64-bit [size_type] arithmetic. *)
Definition two64 : Z := 2 ^ 64.
Definition wrap (z : Z) : Z := z mod two64.

Section Memory.
Context {T : Type}.

(** [*p] for a [Node* p]. *)
Definition deref (p : ptr) : M T (Node T) :=
  λ h, match p with
       | None => Fault
       | Some a => match h !! a with
                   | Some (Live n) => Ok (n, h)
                   | _ => Fault
                   end
       end.

(** [*p = n] *)
Definition assign (p : ptr) (n : Node T) : M T unit :=
  λ h, match p with
       | None => Fault
       | Some a => match h !! a with
                   | Some (Live _) => Ok (tt, <[a := Live n]> h)
                   | _ => Fault
                   end
       end.

(** [p->next_ = q], [p->prev_ = q], [p->data_ = v] *)
Definition set_next (p q : ptr) : M T unit :=
  let* n := deref p in assign p (mkNode q (prev_ n) (data_ n)).
Definition set_prev (p q : ptr) : M T unit :=
  let* n := deref p in assign p (mkNode (next_ n) q (data_ n)).
Definition set_data (p : ptr) (v : T) : M T unit :=
  let* n := deref p in assign p (mkNode (next_ n) (prev_ n) v).

(** [new Node(data, next, prev)] *)
Definition new `{!Allocator T} (data : T) (next prev : ptr) : M T ptr :=
  λ h, let a := alloc h in Ok (Some a, <[a := Live (mkNode next prev data)]> h).

(** [delete p]; deleting [nullptr] does nothing. *)
Definition delete_node (p : ptr) : M T unit :=
  λ h, match p with
       | None => Ok (tt, h)
       | Some a => match h !! a with
                   | Some (Live _) => Ok (tt, <[a := Freed]> h)
                   | _ => Fault
                   end
       end.
End Memory.

(** ** Iterators *)

(** [Iterator<U>] wraps a [Node*]; constness plays no role here. *)
Record Iterator := mkIterator { node_ : ptr }.

Section Iterator.
Context {T : Type}.

(** [operator++]: [node_ = node_->next_] *)
Definition iter_incr (it : Iterator) : M T Iterator :=
  let* n := deref (node_ it) in ret (mkIterator (next_ n)).

(** [operator--]: [node_ = node_->prev_] *)
Definition iter_decr (it : Iterator) : M T Iterator :=
  let* n := deref (node_ it) in ret (mkIterator (prev_ n)).

(** [operator*] *)
Definition iter_deref (it : Iterator) : M T T :=
  let* n := deref (node_ it) in ret (data_ n).
End Iterator.

(** [operator==]: identity of the referenced node. *)
Definition iter_eq (a b : Iterator) : bool := bool_decide (node_ a = node_ b).

(** ** The list object *)

(** The three data members; [size_] is a 64-bit unsigned counter. *)
Record List := mkList { head_ : ptr; tail_ : ptr; size_ : Z }.

(** [List() = default] with the default member initialisers. *)
Definition List_default : List := mkList None None 0.

Definition begin (l : List) : Iterator := mkIterator (head_ l).
Definition empty (l : List) : bool := bool_decide (head_ l = None).
Definition size (l : List) : Z := size_ l.

Section List.
Context {T : Type} `{!ValueInit T} `{!Allocator T}.

(** [end()]: [iterator(tail_ ? tail_->next_ : nullptr)] *)
Definition end_ (l : List) : M T Iterator :=
  match tail_ l with
  | None => ret (mkIterator None)
  | Some _ => let* n := deref (tail_ l) in ret (mkIterator (next_ n))
  end.

Definition push_back (data : T) (l : List) : M T List :=
  let* l :=
    match head_ l with
    | None =>
        let* p := new data None None in
        let l := mkList p p (size_ l) in
        let* s := new value_init None (tail_ l) in
        set_next (tail_ l) s;;
        ret l
    | Some _ =>
        let* n := deref (tail_ l) in
        let l := mkList (head_ l) (next_ n) (size_ l) in
        set_data (tail_ l) data;;
        let* s := new value_init None (tail_ l) in
        set_next (tail_ l) s;;
        ret l
    end in
  ret (mkList (head_ l) (tail_ l) (wrap (size_ l + 1))).

Definition push_front (data : T) (l : List) : M T List :=
  let* l :=
    match head_ l with
    | None =>
        let* p := new data None None in
        let l := mkList p p (size_ l) in
        let* s := new value_init None (tail_ l) in
        set_next (tail_ l) s;;
        ret l
    | Some _ =>
        let* node := new data (head_ l) None in
        set_prev (head_ l) node;;
        ret (mkList node (tail_ l) (size_ l))
    end in
  ret (mkList (head_ l) (tail_ l) (wrap (size_ l + 1))).

(** The loop of [clear()]:
    [while (head_ != nullptr) delete std::exchange(head_, head_->next_);] *)
Fixpoint clear_loop (fuel : nat) (head : ptr) : M T ptr :=
  match head with
  | None => ret None
  | Some _ =>
      match fuel with
      | O => out_of_fuel
      | S fuel =>
          let* n := deref head in
          delete_node head;;
          clear_loop fuel (next_ n)
      end
  end.

Definition clear (fuel : nat) (l : List) : M T List :=
  clear_loop fuel (head_ l);;
  ret (mkList None None 0).

Definition erase (fuel : nat) (pos : Iterator) (l : List) : M T (Iterator * List) :=
  if bool_decide (size l = 1) then
    let* l := clear fuel l in
    ret (mkIterator (head_ l), l)
  else
    let node := node_ pos in
    let* n := deref node in
    set_next (prev_ n) (next_ n);;
    let* n := deref node in
    set_prev (next_ n) (prev_ n);;
    let* n := deref node in
    let next := next_ n in
    delete_node node;;
    ret (mkIterator next, mkList (head_ l) (tail_ l) (wrap (size_ l - 1))).

(** [front()], [back()] *)
Definition front (l : List) : M T T := let* n := deref (head_ l) in ret (data_ n).
Definition back (l : List) : M T T := let* n := deref (tail_ l) in ret (data_ n).

(** [for (auto it = first; it != last; ++it) push_back( *it );] *)
Fixpoint range_loop (fuel : nat) (it last : Iterator) (l : List) : M T List :=
  if iter_eq it last then ret l
  else match fuel with
       | O => out_of_fuel
       | S fuel =>
           let* v := iter_deref it in
           let* l := push_back v l in
           let* it := iter_incr it in
           range_loop fuel it last l
       end.

(** [List(iterator begin, iterator end)] and its [const_iterator] twin. *)
Definition List_range (fuel : nat) (first last : Iterator) : M T List :=
  range_loop fuel first last List_default.

(** [List(std::initializer_list<T>)] *)
Fixpoint push_back_all (vs : list T) (l : List) : M T List :=
  match vs with
  | [] => ret l
  | v :: vs => let* l := push_back v l in push_back_all vs l
  end.

Definition List_init (vs : list T) : M T List := push_back_all vs List_default.

(** [List(const List& other)]: a range-for over [other]. *)
Definition List_copy (fuel : nat) (other : List) : M T List :=
  let first := begin other in
  let* last := end_ other in
  range_loop fuel first last List_default.

(** The same calls with [push_front]. *)
Fixpoint push_front_all (vs : list T) (l : List) : M T List :=
  match vs with
  | [] => ret l
  | v :: vs => let* l := push_front v l in push_front_all vs l
  end.

(** A client's forward walk:
    [for (auto it = l.begin(); it != l.end(); ++it) out.push_back( *it );] *)
Fixpoint walk (fuel : nat) (it last : Iterator) : M T (list T) :=
  if iter_eq it last then ret []
  else match fuel with
       | O => out_of_fuel
       | S fuel =>
           let* v := iter_deref it in
           let* it := iter_incr it in
           let* vs := walk fuel it last in
           ret (v :: vs)
       end.

Definition to_list (fuel : nat) (l : List) : M T (list T) :=
  let* last := end_ l in
  walk fuel (begin l) last.
End List.

(** ** Writing through an iterator, and reverse iteration *)

(** [std::reverse_iterator<iterator>], the type of [rbegin()] and [rend()].
    It holds an iterator [current]; the C++ standard defines its
    dereference as [*--tmp] on a copy [tmp] of [current], its increment as
    [--current], and its equality as that of [current]. *)
Record ReverseIterator := mkReverse { current : Iterator }.

Definition riter_eq (a b : ReverseIterator) : bool :=
  iter_eq (current a) (current b).

(** [rend()]: [reverse_iterator(begin())] *)
Definition rend (l : List) : ReverseIterator := mkReverse (begin l).

Section Reverse.
Context {T : Type} `{!ValueInit T} `{!Allocator T}.


Definition riter_deref (r : ReverseIterator) : M T T :=
  let* tmp := iter_decr (current r) in iter_deref tmp.

Definition riter_incr (r : ReverseIterator) : M T ReverseIterator :=
  let* c := iter_decr (current r) in ret (mkReverse c).

(** [rbegin()]: [reverse_iterator(end())] *)
Definition rbegin (l : List) : M T ReverseIterator :=
  let* e := end_ l in ret (mkReverse e).

(** A client's reverse walk:
    [for (auto it = l.rbegin(); it != l.rend(); ++it) out.push_back( *it );] *)
Fixpoint rwalk (fuel : nat) (it last : ReverseIterator) : M T (list T) :=
  if riter_eq it last then ret []
  else match fuel with
       | O => out_of_fuel
       | S fuel =>
           let* v := riter_deref it in
           let* it := riter_incr it in
           let* vs := rwalk fuel it last in
           ret (v :: vs)
       end.

Definition to_list_reverse (fuel : nat) (l : List) : M T (list T) :=
  let* first := rbegin l in
  rwalk fuel first (rend l).
End Reverse.

(** ** Several list objects in one program *)

(** The program state: the heap and the [List] objects declared so far.  An
    object is identified by its index, which stands for its address. *)
Record world (T : Type) := mkWorld { mem : heap T; objs : list List }.
Arguments mkWorld {T} _ _.
Arguments mem {T} _.
Arguments objs {T} _.

(** The calls a program can make on its lists.  An iterator argument is
    given by the object and the number of increments from its [begin()]. *)
Inductive call (T : Type) : Type :=
  | NewDefault                              (* List a;                    *)
  | NewRange (y i z j : nat)                (* List a(next(y.begin(), i),
                                                      next(z.begin(), j)); *)
  | NewInit (vs : list T)                   (* List a{v1, ..., vn};       *)
  | NewCopy (y : nat)                       (* List a(y);                 *)
  | NewMove (y : nat)                       (* List a(std::move(y));      *)
  | PushBack (x : nat) (v : T)              (* x.push_back(v);            *)
  | PushFront (x : nat) (v : T)             (* x.push_front(v);           *)
  | Erase (x k : nat)                       (* x.erase(next(x.begin(), k)); *)
  | Clear (x : nat)                         (* x.clear();                 *)
  | CopyAssign (x y : nat)                  (* x = y;                     *)
  | MoveAssign (x y : nat).                 (* x = std::move(y);          *)
Arguments NewDefault {T}.
Arguments NewRange {T} _ _ _ _.
Arguments NewInit {T} _.
Arguments NewCopy {T} _.
Arguments NewMove {T} _.
Arguments PushBack {T} _ _.
Arguments PushFront {T} _ _.
Arguments Erase {T} _ _.
Arguments Clear {T} _.
Arguments CopyAssign {T} _ _.
Arguments MoveAssign {T} _ _.

(** The three [std::swap] calls on [head_], [tail_] and [size_]. *)
Definition swap_members (a b : List) : List * List :=
  let '(a, b) := (mkList (head_ b) (tail_ a) (size_ a),
                  mkList (head_ a) (tail_ b) (size_ b)) in
  let '(a, b) := (mkList (head_ a) (tail_ b) (size_ a),
                  mkList (head_ b) (tail_ a) (size_ b)) in
  (mkList (head_ a) (tail_ a) (size_ b), mkList (head_ b) (tail_ b) (size_ a)).

(** [List(List&& other)]: the new object and what is left of [other]. *)
Definition List_move (other : List) : List * List :=
  let '(this, other) := swap_members List_default other in
  (this, mkList None None (size_ other)).

(** [operator=(List&& other)] on two distinct objects. *)
Definition move_assign (this other : List) : List * List :=
  swap_members this other.

(** The objects a call writes to. *)
Definition targets {T} (c : call T) : list nat :=
  match c with
  | NewDefault | NewRange _ _ _ _ | NewInit _ | NewCopy _ => []
  | NewMove y => [y]
  | PushBack x _ | PushFront x _ | Erase x _ | Clear x => [x]
  | CopyAssign x _ => [x]
  | MoveAssign x y => [x; y]
  end.

Section Program.
Context {T : Type} `{!ValueInit T} `{!Allocator T}.

(** [std::next(it, k)]: [k] increments. *)
Fixpoint advance (k : nat) (it : Iterator) : M T Iterator :=
  match k with
  | O => ret it
  | S k => let* it := iter_incr it in advance k it
  end.

(** [operator=(const List& other)] on two distinct objects: copy into
    [tmp], swap, and [tmp] is destroyed ([~List() { clear(); }]) when it
    goes out of scope. *)
Definition copy_assign (fuel : nat) (this other : List) : M T List :=
  let* tmp := List_copy fuel other in
  let '(this, tmp) := swap_members this tmp in
  clear fuel tmp;;
  ret this.

(** A constructor call adds an object. *)
Definition construct (c : M T List) (w : world T) : result (world T) :=
  match c (mem w) with
  | Ok (l, h) => Ok (mkWorld h (objs w ++ [l]))
  | Fault => Fault
  | OutOfFuel => OutOfFuel
  end.

(** A member function call updates the object it is called on. *)
Definition method (x : nat) (c : List → M T List) (w : world T)
    : result (world T) :=
  match objs w !! x with
  | None => Fault
  | Some l =>
      match c l (mem w) with
      | Ok (l', h) => Ok (mkWorld h (<[x := l']> (objs w)))
      | Fault => Fault
      | OutOfFuel => OutOfFuel
      end
  end.

Definition exec (fuel : nat) (c : call T) (w : world T) : result (world T) :=
  match c with
  | NewDefault => construct (ret List_default) w
  | NewRange y i z j =>
      match objs w !! y, objs w !! z with
      | Some ly, Some lz =>
          construct (let* first := advance i (begin ly) in
                     let* last := advance j (begin lz) in
                     List_range fuel first last) w
      | _, _ => Fault
      end
  | NewInit vs => construct (List_init vs) w
  | NewCopy y =>
      match objs w !! y with
      | Some ly => construct (List_copy fuel ly) w
      | None => Fault
      end
  | NewMove y =>
      match objs w !! y with
      | Some ly =>
          let '(this, other) := List_move ly in
          Ok (mkWorld (mem w) (<[y := other]> (objs w) ++ [this]))
      | None => Fault
      end
  | PushBack x v => method x (push_back v) w
  | PushFront x v => method x (push_front v) w
  | Erase x k =>
      method x (λ l, let* pos := advance k (begin l) in
                     let* r := erase fuel pos l in
                     ret (snd r)) w
  | Clear x => method x (clear fuel) w
  | CopyAssign x y =>
      match objs w !! x, objs w !! y with
      | Some _, Some ly =>
          if decide (x = y) then Ok w
          else method x (λ l, copy_assign fuel l ly) w
      | _, _ => Fault
      end
  | MoveAssign x y =>
      match objs w !! x, objs w !! y with
      | Some lx, Some ly =>
          if decide (x = y) then Ok w
          else let '(lx, ly) := move_assign lx ly in
               Ok (mkWorld (mem w) (<[y := ly]> (<[x := lx]> (objs w))))
      | _, _ => Fault
      end
  end.

(** A sequence of calls, stopping at the first one that does not return. *)
Fixpoint exec_all (fuel : nat) (cs : list (call T)) (w : world T)
    : result (world T) :=
  match cs with
  | [] => Ok w
  | c :: cs =>
      match exec fuel c w with
      | Ok w => exec_all fuel cs w
      | Fault => Fault
      | OutOfFuel => OutOfFuel
      end
  end.

(** Fewer than 2^64 nodes have ever been allocated: the heap fits a
    64-bit address space. *)
Definition fits (w : world T) : Prop :=
  Z.of_nat (base.size (mem w)) < two64.

(** The states a program reaches from nothing by calls that return. *)
Inductive reachable : world T → Prop :=
  | reach_init : reachable (mkWorld ∅ [])
  | reach_step w fuel c w' :
      reachable w → exec fuel c w = Ok w' → fits w' → reachable w'.
End Program.

(** ** The shape of a well-formed list in the heap *)

Section Shape.
Context {T : Type} `{!ValueInit T}.
Implicit Types (h : heap T) (ns : list loc) (xs vs : list T) (l : List).

(** The [prev_] pointer of the node at index [i] of a chain. *)
Definition prev_at (ns : list loc) (i : nat) : ptr :=
  match i with O => None | S j => ns !! j end.

(** [ns] is a null-terminated doubly linked chain of live nodes carrying
    the values [xs], in this order. *)
Definition dll h ns xs : Prop :=
  length ns = length xs ∧
  ∀ (i : nat) a x, ns !! i = Some a → xs !! i = Some x →
    h !! a = Some (Live (mkNode (ns !! S i) (prev_at ns i) x)).

(** A non-empty list: the chain [ns] holds the real nodes followed by the
    sentinel, [head_] is its first node and [size_] counts the values. *)
Definition shape h l ns vs : Prop :=
  vs ≠ [] ∧ NoDup ns ∧ dll h ns (vs ++ [value_init]) ∧
  head_ l = ns !! 0%nat ∧
  size_ l = Z.of_nat (length vs) ∧ Z.of_nat (length vs) < two64.

(** [tail_] is the last real node, the one before the sentinel. *)
Definition tail_good l ns : Prop := tail_ l = ns !! (length ns - 2)%nat.

(** [tail_] is a stale pointer to a node that has been deleted. *)
Definition tail_dangling h l : Prop :=
  ∃ a, tail_ l = Some a ∧ h !! a = Some Freed.

(** The list [l] holds [vs] in the nodes [ns] (no node at all when empty). *)
Definition rep h l ns vs : Prop :=
  (vs = [] ∧ ns = [] ∧ l = List_default) ∨ (shape h l ns vs ∧ tail_good l ns).

(** The same, except that [tail_] may be stale. *)
Definition inv h l ns vs : Prop :=
  (vs = [] ∧ ns = [] ∧ l = List_default) ∨
  (shape h l ns vs ∧ (tail_good l ns ∨ tail_dangling h l)).

(** No address of [h] has disappeared in [h']. *)
Definition grows h h' : Prop := ∀ a, is_Some (h !! a) → is_Some (h' !! a).

(** Cells of [h] outside [ns] are the same in [h']. *)
Definition frame ns h h' : Prop :=
  ∀ a c, h !! a = Some c → a ∉ ns → h' !! a = Some c.

(** Outside [ns] the two heaps are the same, unallocated addresses
    included. *)
Definition same_outside ns h h' : Prop := ∀ b, b ∉ ns → h' !! b = h !! b.

(** Every node of [ns'] is a node of [ns] or was unallocated in [h]. *)
Definition grown ns ns' h : Prop :=
  ∀ a, a ∈ ns' → a ∈ ns ∨ h !! a = None.

(** The values along the chain of a list: those of the real nodes and,
    unless the list is empty, that of the sentinel. *)
Definition chain_values vs : list T :=
  match vs with [] => [] | _ => vs ++ [value_init] end.

End Shape.

Section WorldInvariant.
Context {T : Type} `{!ValueInit T}.

(** Every object is a list in the sense of [inv], and no two objects
    share a node; [fp x] and [vals x] are the nodes and the values of the
    object [x]. *)
Definition owned (w : world T) (fp : nat → list loc) (vals : nat → list T)
    : Prop :=
  (∀ (x : nat) l, objs w !! x = Some l → inv (mem w) l (fp x) (vals x)) ∧
  (∀ (x y : nat) a,
     x ≠ y → is_Some (objs w !! x) → is_Some (objs w !! y) →
     a ∈ fp x → a ∉ fp y).

(** What a call on one list owes to the rest of the program: the list is
    again a list, on nodes that were its own or are new, and no other cell
    of the heap has changed. *)
Definition local_step (h : heap T) (ns : list loc) (l' : List) (h' : heap T)
    : Prop :=
  ∃ ns' vs', inv h' l' ns' vs' ∧ grown ns ns' h ∧ frame ns h h'.
End WorldInvariant.

(** ** A concrete instance to run the code on: [List<int>] with an
    allocator that picks the next unused address. *)
Module Run.
#[export] Instance Z_value_init : ValueInit Z := 0.

#[export] Instance fresh_alloc : Allocator Z :=
  {| alloc h := fresh (dom h);
     alloc_fresh h := proj1 (not_elem_of_dom h (fresh (dom h)))
                        (is_fresh (dom h)) |}.

Definition run {A} (c : M Z A) : result (A * heap Z) := c ∅.

(** The program state before any list exists. *)
Definition start : world Z := mkWorld ∅ [].

(** The state a call returned, or [start] if it did not return. *)
Definition exec_result_world (r : result (world Z)) : world Z :=
  match r with Ok w => w | _ => start end.

(** The list [5] laid out by hand: node 1 and the sentinel 2. *)
Definition heap5 : heap Z :=
  <[2%positive := Live (mkNode None (Some 1%positive) 0)]>
    (<[1%positive := Live (mkNode (Some 2%positive) None 5)]> ∅).
Definition list5 : List := mkList (Some 1%positive) (Some 1%positive) 1.

(** The list [7; 8; 9]: nodes 1, 2, 3 and the sentinel 4. *)
Definition heap789 : heap Z :=
  <[4%positive := Live (mkNode None (Some 3%positive) 0)]>
    (<[3%positive := Live (mkNode (Some 4%positive) (Some 2%positive) 9)]>
       (<[2%positive := Live (mkNode (Some 3%positive) (Some 1%positive) 8)]>
          (<[1%positive := Live (mkNode (Some 2%positive) None 7)]> ∅))).
Definition list789 : List := mkList (Some 1%positive) (Some 3%positive) 3.

(** Two lists in one program: [a] holds [1] in node 1 with sentinel 2,
    [b] holds [2] in node 3 with sentinel 4. *)
Definition heap_ab : heap Z :=
  <[4%positive := Live (mkNode None (Some 3%positive) 0)]>
    (<[3%positive := Live (mkNode (Some 4%positive) None 2)]>
       (<[2%positive := Live (mkNode None (Some 1%positive) 0)]>
          (<[1%positive := Live (mkNode (Some 2%positive) None 1)]> ∅))).
Definition list_a : List := mkList (Some 1%positive) (Some 1%positive) 1.
Definition list_b : List := mkList (Some 3%positive) (Some 3%positive) 1.
Definition world_ab : world Z := mkWorld heap_ab [list_a; list_b].

(** The state after [List a{1, 2}; a.erase(std::next(a.begin()));]. *)
Definition heap_erased : heap Z :=
  <[3%positive := Live (mkNode None (Some 1%positive) 0)]>
    (<[2%positive := Freed]>
       (<[1%positive := Live (mkNode (Some 3%positive) None 1)]> ∅)).
Definition list_erased : List := mkList (Some 1%positive) (Some 2%positive) 1.
Definition world_erased : world Z := mkWorld heap_erased [list_erased].
End Run.

(** ** Running single heap operations *)

Section MemoryLemmas.
Context {T : Type}.
Implicit Types (h : heap T) (a : loc) (n : Node T).

Lemma bind_ok {A B} (c : M T A) (k : A → M T B) h x h' :
  c h = Ok (x, h') → bind c k h = k x h'.
Proof. unfold bind. by intros ->. Qed.

Lemma bind_fault {A B} (c : M T A) (k : A → M T B) h :
  c h = Fault → bind c k h = Fault.
Proof. unfold bind. by intros ->. Qed.

Lemma deref_live h a n : h !! a = Some (Live n) → deref (Some a) h = Ok (n, h).
Proof. unfold deref. by intros ->. Qed.

Lemma deref_freed h a : h !! a = Some Freed → deref (T:=T) (Some a) h = Fault.
Proof. unfold deref. by intros ->. Qed.

Lemma set_next_live h a nx pv d q :
  h !! a = Some (Live (mkNode nx pv d)) →
  set_next (Some a) q h = Ok (tt, <[a := Live (mkNode q pv d)]> h).
Proof.
  intros Ha. unfold set_next, bind, deref, assign. rewrite Ha; simpl.
  by rewrite Ha.
Qed.

Lemma set_prev_live h a nx pv d q :
  h !! a = Some (Live (mkNode nx pv d)) →
  set_prev (Some a) q h = Ok (tt, <[a := Live (mkNode nx q d)]> h).
Proof.
  intros Ha. unfold set_prev, bind, deref, assign. rewrite Ha; simpl.
  by rewrite Ha.
Qed.

Lemma set_data_live h a nx pv d v :
  h !! a = Some (Live (mkNode nx pv d)) →
  set_data (Some a) v h = Ok (tt, <[a := Live (mkNode nx pv v)]> h).
Proof.
  intros Ha. unfold set_data, bind, deref, assign. rewrite Ha; simpl.
  by rewrite Ha.
Qed.

Lemma delete_live h a n :
  h !! a = Some (Live n) → delete_node (Some a) h = Ok (tt, <[a := Freed]> h).
Proof. unfold delete_node. by intros ->. Qed.

Lemma bind_assoc {A B C} (c : M T A) (f : A → M T B) (g : B → M T C) h :
  bind (bind c f) g h = bind c (λ x, bind (f x) g) h.
Proof. unfold bind. by destruct (c h) as [[x h']| |]. Qed.

Lemma bind_ret {A B} (x : A) (k : A → M T B) h : bind (ret x) k h = k x h.
Proof. reflexivity. Qed.

Lemma bind_new `{!Allocator T} {B} d nx pv (k : ptr → M T B) h :
  bind (new d nx pv) k h =
  k (Some (alloc h)) (<[alloc h := Live (mkNode nx pv d)]> h).
Proof. reflexivity. Qed.

Lemma bind_deref {B} h a n (k : Node T → M T B) :
  h !! a = Some (Live n) → bind (deref (Some a)) k h = k n h.
Proof. intros Ha. by rewrite (bind_ok _ _ _ _ _ (deref_live _ _ _ Ha)). Qed.

Lemma bind_set_next {B} h a nx pv d q (k : unit → M T B) :
  h !! a = Some (Live (mkNode nx pv d)) →
  bind (set_next (Some a) q) k h = k tt (<[a := Live (mkNode q pv d)]> h).
Proof.
  intros Ha. by rewrite (bind_ok _ _ _ _ _ (set_next_live _ _ _ _ _ q Ha)).
Qed.

Lemma bind_set_prev {B} h a nx pv d q (k : unit → M T B) :
  h !! a = Some (Live (mkNode nx pv d)) →
  bind (set_prev (Some a) q) k h = k tt (<[a := Live (mkNode nx q d)]> h).
Proof.
  intros Ha. by rewrite (bind_ok _ _ _ _ _ (set_prev_live _ _ _ _ _ q Ha)).
Qed.

Lemma bind_set_data {B} h a nx pv d v (k : unit → M T B) :
  h !! a = Some (Live (mkNode nx pv d)) →
  bind (set_data (Some a) v) k h = k tt (<[a := Live (mkNode nx pv v)]> h).
Proof.
  intros Ha. by rewrite (bind_ok _ _ _ _ _ (set_data_live _ _ _ _ _ v Ha)).
Qed.

Lemma bind_delete {B} h a n (k : unit → M T B) :
  h !! a = Some (Live n) →
  bind (delete_node (Some a)) k h = k tt (<[a := Freed]> h).
Proof. intros Ha. by rewrite (bind_ok _ _ _ _ _ (delete_live _ _ _ Ha)). Qed.

Lemma alloc_ne `{!Allocator T} h a : is_Some (h !! a) → alloc h ≠ a.
Proof. intros [c Hc] <-. by rewrite alloc_fresh in Hc. Qed.
End MemoryLemmas.

(** ** Basic facts about chains *)

Section Representation.
Context {T : Type} `{!ValueInit T}.
Implicit Types (h : heap T) (ns : list loc) (xs vs : list T) (l : List).

Lemma rep_inv h l ns vs : rep h l ns vs → inv h l ns vs.
Proof. intros [?|[? ?]]; [by left | right; eauto]. Qed.

Lemma dll_length h ns xs : dll h ns xs → length ns = length xs.
Proof. by intros [? _]. Qed.

Lemma dll_lookup h ns xs (i : nat) a x :
  dll h ns xs → ns !! i = Some a → xs !! i = Some x →
  h !! a = Some (Live (mkNode (ns !! S i) (prev_at ns i) x)).
Proof. intros [_ H]. apply H. Qed.

Lemma dll_live h ns xs a : dll h ns xs → a ∈ ns → ∃ n, h !! a = Some (Live n).
Proof.
  intros [Hlen H] [i Hi]%list_elem_of_lookup.
  destruct (lookup_lt_is_Some_2 xs i) as [x Hx].
  { rewrite <- Hlen. by eapply lookup_lt_Some. }
  eauto.
Qed.

Lemma dll_frame h h' ns ms xs :
  dll h ns xs → frame ms h h' → (∀ a, a ∈ ns → a ∉ ms) → dll h' ns xs.
Proof.
  intros [Hlen H] Hfr Hdisj. split; [done|]. intros i a x Hi Hx.
  apply Hfr; [eauto | apply Hdisj; by eapply list_elem_of_lookup_2].
Qed.

Lemma prev_at_app ns ms (i : nat) :
  (i ≤ length ns)%nat → prev_at (ns ++ ms) i = prev_at ns i.
Proof.
  destruct i as [|j]; [done|]. simpl. intros. apply lookup_app_l. lia.
Qed.

(** Appending a node behind the last one. *)
Lemma dll_snoc h h' ns xs s a v d d' :
  dll h ns (xs ++ [d]) → NoDup (ns ++ [a]) →
  ns !! length xs = Some s →
  h' !! s = Some (Live (mkNode (Some a) (prev_at ns (length xs)) v)) →
  h' !! a = Some (Live (mkNode None (Some s) d')) →
  (∀ b, b ≠ s → b ≠ a → h' !! b = h !! b) →
  dll h' (ns ++ [a]) ((xs ++ [v]) ++ [d']).
Proof.
  intros [Hlen H] Hnd Hs Hs' Ha' Hothers.
  rewrite length_app in Hlen. simpl in Hlen.
  apply NoDup_app in Hnd as (Hnd & Hna & _).
  split; [rewrite !length_app; simpl; lia|].
  intros i b x Hi Hx.
  destruct (decide (i < length xs)%nat) as [Hlt|Hge].
  - rewrite lookup_app_l in Hi by lia.
    rewrite <- app_assoc, lookup_app_l in Hx by done.
    rewrite lookup_app_l by lia. rewrite prev_at_app by lia.
    rewrite Hothers.
    + apply H; [done|]. by rewrite lookup_app_l.
    + intros ->. pose proof (NoDup_lookup _ _ _ _ Hnd Hi Hs). lia.
    + intros ->. eapply Hna; [by eapply list_elem_of_lookup_2 | set_solver].
  - destruct (decide (i = length xs)) as [->|Hne].
    + rewrite lookup_app_l in Hi by lia.
      rewrite lookup_app_l in Hx by (rewrite length_app; simpl; lia).
      rewrite list_lookup_middle in Hx by done.
      rewrite prev_at_app by lia.
      replace ((ns ++ [a]) !! S (length xs)) with (Some a).
      * congruence.
      * symmetry. apply list_lookup_middle. lia.
    + assert (i = S (length xs)) as ->.
      { apply lookup_lt_Some in Hi. rewrite length_app in Hi. simpl in Hi. lia. }
      rewrite list_lookup_middle in Hi by lia.
      rewrite list_lookup_middle in Hx by (rewrite length_app; simpl; lia).
      simplify_eq. rewrite Ha'. do 3 f_equal.
      * symmetry. apply lookup_ge_None_2. rewrite length_app. simpl. lia.
      * simpl. rewrite lookup_app_l by lia. done.
Qed.
End Representation.

(** ** Insertion *)

Section Push.
Context {T : Type} `{!ValueInit T} `{!Allocator T}.
Implicit Types (h : heap T) (ns : list loc) (xs vs : list T) (l : List).

(** On an empty list [push_front] runs the same code as [push_back]. *)
Lemma push_front_empty h v l :
  head_ l = None → push_front v l h = push_back v l h.
Proof. intros Hhd. unfold push_front, push_back. by rewrite Hhd. Qed.

(** [push_back] on an empty list allocates the node and the sentinel. *)
Lemma push_back_empty_exact h v l :
  head_ l = None →
  ∃ a1 a2 h',
    push_back v l h =
      Ok (mkList (Some a1) (Some a1) (wrap (size_ l + 1)), h') ∧
    a1 ≠ a2 ∧ h !! a1 = None ∧ h !! a2 = None ∧
    dll h' [a1; a2] [v; value_init] ∧ same_outside [a1; a2] h h'.
Proof.
  intros Hhd.
  set (a1 := alloc h).
  set (h1 := <[a1 := Live (mkNode None None v)]> h).
  set (a2 := alloc h1).
  set (h2 := <[a2 := Live (mkNode None (Some a1) value_init)]> h1).
  assert (Ha1 : h !! a1 = None) by apply alloc_fresh.
  assert (Ha2 : h1 !! a2 = None) by apply alloc_fresh.
  assert (Hne : a1 ≠ a2).
  { intros Heq. rewrite <- Heq in Ha2. unfold h1 in Ha2.
    by rewrite lookup_insert_eq in Ha2. }
  assert (Ha2' : h !! a2 = None).
  { unfold h1 in Ha2. by rewrite lookup_insert_ne in Ha2. }
  exists a1, a2, (<[a1 := Live (mkNode (Some a2) None v)]> h2).
  split; [|split_and!; try done].
  - unfold push_back. rewrite Hhd, !bind_assoc, bind_new. fold a1 h1.
    cbn [tail_]. rewrite bind_assoc, bind_new. fold a2 h2.
    rewrite bind_assoc. erewrite bind_set_next; [reflexivity|].
    unfold h2, h1. rewrite lookup_insert_ne by done. by rewrite lookup_insert_eq.
  - split; [done|]. intros i a x Hi Hx.
    destruct i as [|[|i]]; simplify_eq/=.
    + by rewrite lookup_insert_eq.
    + rewrite lookup_insert_ne by done. unfold h2. by rewrite lookup_insert_eq.
  - intros b Hb.
    assert (b ≠ a1) by (intros ->; apply Hb; by left).
    assert (b ≠ a2) by (intros ->; apply Hb; right; by left).
    unfold h2, h1. by rewrite !lookup_insert_ne.
Qed.

Lemma push_back_empty h v l :
  head_ l = None →
  ∃ a1 a2 h',
    push_back v l h =
      Ok (mkList (Some a1) (Some a1) (wrap (size_ l + 1)), h') ∧
    a1 ≠ a2 ∧ h !! a1 = None ∧ h !! a2 = None ∧
    dll h' [a1; a2] [v; value_init] ∧ frame [] h h'.
Proof.
  intros Hhd.
  destruct (push_back_empty_exact h v l Hhd)
    as (a1 & a2 & h' & Hrun & Hne & Ha1 & Ha2 & Hdll & Hsame).
  exists a1, a2, h'. split_and!; try done.
  intros b c Hb _. rewrite Hsame; [done|].
  intros [->|[->|[]%elem_of_nil]%elem_of_cons]%elem_of_cons; congruence.
Qed.

(** What [push_back] does to a non-empty list whose [tail_] is in place:
    the sentinel [s] takes the value and a new sentinel follows it. *)
Lemma push_back_run h l p t s pt dt nx ps ds v :
  head_ l = Some p → tail_ l = Some t →
  h !! t = Some (Live (mkNode (Some s) pt dt)) →
  h !! s = Some (Live (mkNode nx ps ds)) →
  let h1 := <[s := Live (mkNode nx ps v)]> h in
  let a := alloc h1 in
  push_back v l h =
    Ok (mkList (Some p) (Some s) (wrap (size_ l + 1)),
        <[s := Live (mkNode (Some a) ps v)]>
          (<[a := Live (mkNode None (Some s) value_init)]> h1)).
Proof.
  intros Hhd Htl Ht Hs. cbv zeta.
  assert (alloc (<[s := Live (mkNode nx ps v)]> h) ≠ s) as Hne.
  { apply alloc_ne. rewrite lookup_insert_eq. eauto. }
  unfold push_back. rewrite Hhd, Htl, !bind_assoc.
  rewrite (bind_deref _ _ _ _ Ht). cbn [next_ tail_ head_ size_].
  rewrite bind_assoc, (bind_set_data _ _ _ _ _ _ _ Hs).
  rewrite bind_assoc, bind_new, bind_assoc.
  erewrite bind_set_next; [reflexivity|].
  rewrite lookup_insert_ne by done. by rewrite lookup_insert_eq.
Qed.

(** [push_back] on a well-formed list appends the value. *)
(** [push_back] on a well-formed list appends the value: the nodes of the
    list stay where they are, new nodes [ms] follow them, and no other
    address of the heap changes. *)
Lemma push_back_exact h l ns vs v :
  rep h l ns vs → Z.of_nat (length vs) + 1 < two64 →
  ∃ l' h' ms,
    push_back v l h = Ok (l', h') ∧ rep h' l' (ns ++ ms) (vs ++ [v]) ∧
    (∀ b, b ∈ ms → h !! b = None) ∧ same_outside (ns ++ ms) h h'.
Proof.
  intros [(-> & -> & ->)|[(Hvs & Hnd & Hdll & Hhd & Hsz & Hbound) Htl]] Hroom.
  - destruct (push_back_empty_exact h v List_default eq_refl)
      as (a1 & a2 & h' & Hrun & Hne & Ha1 & Ha2 & Hdll & Hfr).
    exists (mkList (Some a1) (Some a1) 1), h', [a1; a2]. split_and!.
    + exact Hrun.
    + right. split; [|done]. split_and!; try done.
      apply NoDup_cons; split; [|apply NoDup_singleton].
      by intros ->%list_elem_of_singleton.
    + by intros a [->|[->|[]%elem_of_nil]%elem_of_cons]%elem_of_cons.
    + done.
  - pose proof (dll_length _ _ _ Hdll) as Hlen.
    rewrite length_app in Hlen. simpl in Hlen.
    assert (∃ v0 vs0, vs = v0 :: vs0) as (v0 & vs0 & Hvs0)
      by (destruct vs; [done | eauto]).
    assert (length vs ≠ 0)%nat as Hpos by (subst vs; simpl; lia).
    destruct (lookup_lt_is_Some_2 ns 0%nat) as [p Hp]; [lia|].
    destruct (lookup_lt_is_Some_2 ns (length vs - 1)%nat) as [t Ht]; [lia|].
    destruct (lookup_lt_is_Some_2 ns (length vs)) as [s Hs]; [lia|].
    destruct (lookup_lt_is_Some_2 vs (length vs - 1)%nat) as [vt Hvt]; [lia|].
    unfold tail_good in Htl. rewrite Hlen in Htl.
    replace (length vs + 1 - 2)%nat with (length vs - 1)%nat in Htl by lia.
    pose proof Hdll as [_ Hcells].
    pose proof (Hcells _ _ vt Ht) as Hcell_t.
    rewrite lookup_app_l in Hcell_t by lia. specialize (Hcell_t Hvt).
    replace (S (length vs - 1)) with (length vs) in Hcell_t by lia.
    pose proof (Hcells _ _ value_init Hs) as Hcell_s.
    rewrite list_lookup_middle in Hcell_s by done.
    specialize (Hcell_s eq_refl).
    set (ps := prev_at ns (length vs)) in *.
    rewrite Hs in Hcell_t.
    pose proof (push_back_run h l p t s _ _ _ _ _ v
                  ltac:(congruence) ltac:(congruence) Hcell_t Hcell_s) as Hrun.
    cbv zeta in Hrun.
    set (h1 := <[s := Live (mkNode (ns !! S (length vs)) ps v)]> h) in *.
    set (a := alloc h1) in *.
    set (h2 := <[a := Live (mkNode None (Some s) value_init)]> h1) in *.
    set (h3 := <[s := Live (mkNode (Some a) ps v)]> h2) in *.
    assert (Ha1 : h1 !! a = None) by apply alloc_fresh.
    assert (Has : a ≠ s).
    { intros Heq. rewrite Heq in Ha1. unfold h1 in Ha1.
      by rewrite lookup_insert_eq in Ha1. }
    assert (Ha : h !! a = None).
    { unfold h1 in Ha1. by rewrite lookup_insert_ne in Ha1. }
    assert (Hfresh : a ∉ ns).
    { intros Hin. destruct (dll_live _ _ _ _ Hdll Hin) as [n Hn]. congruence. }
    exists (mkList (head_ l) (Some s) (wrap (size_ l + 1))), h3, [a].
    split_and!.
    + rewrite Hrun. by rewrite Hhd, Hp.
    + right. split.
      * split_and!.
        -- by destruct vs.
        -- apply NoDup_app. split_and!; [done| |apply NoDup_singleton].
           intros x Hx ->%list_elem_of_singleton. done.
        -- eapply dll_snoc; try done.
           ++ apply NoDup_app. split_and!; [done| |apply NoDup_singleton].
              intros x Hx ->%list_elem_of_singleton. done.
           ++ unfold h3. by rewrite lookup_insert_eq.
           ++ unfold h3, h2. rewrite lookup_insert_ne by done.
              by rewrite lookup_insert_eq.
           ++ intros b Hbs Hba. unfold h3, h2, h1.
              by rewrite !lookup_insert_ne.
        -- cbn [head_]. rewrite Hhd, Hp. symmetry. by apply lookup_app_l_Some.
        -- cbn [size_]. rewrite Hsz, length_app. simpl. unfold wrap.
           rewrite Z.mod_small; lia.
        -- rewrite length_app. simpl. lia.
      * unfold tail_good. cbn [tail_]. rewrite length_app. simpl.
        replace (length ns + 1 - 2)%nat with (length vs) by lia.
        symmetry. by apply lookup_app_l_Some.
    + by intros b ->%list_elem_of_singleton.
    + intros b Hnin.
      assert (b ≠ s).
      { intros ->. apply Hnin, elem_of_app. left.
        by eapply list_elem_of_lookup_2. }
      assert (b ≠ a).
      { intros ->. apply Hnin, elem_of_app. right. by left. }
      unfold h3, h2, h1. by rewrite !lookup_insert_ne.
Qed.

Lemma push_back_rep h l ns vs v :
  rep h l ns vs → Z.of_nat (length vs) + 1 < two64 →
  ∃ l' h' ns',
    push_back v l h = Ok (l', h') ∧ rep h' l' ns' (vs ++ [v]) ∧
    grown ns ns' h ∧ frame ns h h'.
Proof.
  intros Hrep Hroom.
  destruct (push_back_exact h l ns vs v Hrep Hroom)
    as (l' & h' & ms & Hrun & Hrep' & Hfresh & Hsame).
  exists l', h', (ns ++ ms). split_and!; [done..| |].
  - intros b [?|?%Hfresh]%elem_of_app; [by left | by right].
  - intros b c Hb Hnin. rewrite Hsame; [done|].
    intros [?|Hin%Hfresh]%elem_of_app; [done | congruence].
Qed.
End Push.

(** ** Footprints across several steps *)

Section Footprint.
Context {T : Type}.
Implicit Types (h : heap T) (ns : list loc).

Lemma frame_refl ns h : frame ns h h.
Proof. by intros a c Hc _. Qed.

Lemma grown_refl ns h : grown ns ns h.
Proof. intros a Ha. by left. Qed.

Lemma grown_trans ns ns1 ns2 h h1 :
  grown ns ns1 h → frame ns h h1 → grown ns1 ns2 h1 → grown ns ns2 h.
Proof.
  intros Hg Hfr Hg1 a Ha.
  destruct (Hg1 a Ha) as [Hin|Hnone]; [by apply Hg|].
  destruct (decide (a ∈ ns)) as [|Hnin]; [by left|right].
  destruct (h !! a) as [c|] eqn:Hc; [|done].
  rewrite (Hfr a c Hc Hnin) in Hnone. done.
Qed.

Lemma frame_trans ns ns1 h h1 h2 :
  grown ns ns1 h → frame ns h h1 → frame ns1 h1 h2 → frame ns h h2.
Proof.
  intros Hg Hfr Hfr1 a c Hc Hnin. apply Hfr1; [by apply Hfr|].
  intros Hin. destruct (Hg a Hin) as [|Hnone]; [done | congruence].
Qed.

End Footprint.

(** ** Walking a list *)

Section Walk.
Context {T : Type} `{!ValueInit T} `{!Allocator T}.
Implicit Types (h : heap T) (ns : list loc) (xs vs : list T) (l : List).

Lemma rep_size h l ns vs : inv h l ns vs → size l = Z.of_nat (length vs).
Proof.
  intros [(-> & _ & ->)|[(_ & _ & _ & _ & Hsz & _) _]]; [done|]. exact Hsz.
Qed.

Lemma rep_empty h l ns vs : inv h l ns vs → empty l = true ↔ vs = [].
Proof.
  intros [(-> & _ & ->)|[(Hvs & _ & Hdll & Hhd & _) _]]; [done|].
  unfold empty. rewrite Hhd.
  apply dll_length in Hdll. rewrite length_app in Hdll. simpl in Hdll.
  destruct ns as [|a ns]; [simpl in Hdll; lia|]. simpl.
  split; [intros [=] | done].
Qed.

(** Walking from the node at index [i] up to the node at index [k] visits
    the values in between. *)
Lemma walk_chain h ns xs s (k d : nat) :
  dll h ns xs → NoDup ns → ns !! k = Some s →
  ∀ (i fuel : nat), (i + d = k)%nat → (d ≤ fuel)%nat →
    walk fuel (mkIterator (ns !! i)) (mkIterator (Some s)) h =
    Ok (take d (drop i xs), h).
Proof.
  intros Hdll Hnd Hk. induction d as [|d IH]; intros i fuel Hik Hfuel.
  - replace i with k by lia. rewrite Hk.
    destruct fuel; simpl; unfold iter_eq; by rewrite bool_decide_eq_true_2.
  - destruct fuel as [|fuel]; [lia|].
    destruct (lookup_lt_is_Some_2 ns i) as [a Ha].
    { apply lookup_lt_Some in Hk. lia. }
    destruct (lookup_lt_is_Some_2 xs i) as [x Hx].
    { rewrite <- (dll_length _ _ _ Hdll). by eapply lookup_lt_Some. }
    pose proof (dll_lookup _ _ _ _ _ _ Hdll Ha Hx) as Hcell.
    cbn [walk]. unfold iter_eq. cbn [node_]. rewrite Ha.
    rewrite bool_decide_eq_false_2.
    2:{ intros [= ->]. pose proof (NoDup_lookup _ _ _ _ Hnd Ha Hk). lia. }
    unfold iter_deref, iter_incr. cbn [node_].
    rewrite bind_assoc, (bind_deref _ _ _ _ Hcell), bind_ret.
    rewrite bind_assoc, (bind_deref _ _ _ _ Hcell), bind_ret.
    cbn [data_ next_].
    rewrite (bind_ok _ _ _ _ _ (IH (S i) fuel ltac:(lia) ltac:(lia))).
    unfold ret. do 2 f_equal.
    rewrite (drop_S _ _ _ Hx). done.
Qed.

(** Forward iteration over a well-formed list yields its values. *)
Lemma to_list_rep h l ns vs (fuel : nat) :
  rep h l ns vs → (length vs ≤ fuel)%nat → to_list fuel l h = Ok (vs, h).
Proof.
  intros [(-> & -> & ->)|[(Hvs & Hnd & Hdll & Hhd & Hsz & Hbound) Htl]] Hfuel.
  - unfold to_list, end_. cbn [tail_ List_default]. rewrite bind_ret.
    by destruct fuel.
  - pose proof (dll_length _ _ _ Hdll) as Hlen.
    rewrite length_app in Hlen. simpl in Hlen.
    assert (length vs ≠ 0)%nat as Hpos by (destruct vs; simpl; [done|lia]).
    unfold tail_good in Htl.
    destruct (lookup_lt_is_Some_2 ns (length ns - 2)%nat) as [t Ht]; [lia|].
    destruct (lookup_lt_is_Some_2 ns (length vs)) as [s Hs]; [lia|].
    destruct (lookup_lt_is_Some_2 vs (length ns - 2)%nat) as [vt Hvt]; [lia|].
    pose proof Hdll as [_ Hcells].
    pose proof (Hcells _ _ vt Ht) as Hcell_t.
    rewrite lookup_app_l in Hcell_t by lia. specialize (Hcell_t Hvt).
    replace (S (length ns - 2)) with (length vs) in Hcell_t by lia.
    rewrite Hs in Hcell_t.
    unfold to_list, end_. rewrite Htl, Ht.
    rewrite bind_assoc, (bind_deref _ _ _ _ Hcell_t), bind_ret.
    cbn [next_]. unfold begin. rewrite Hhd.
    rewrite (walk_chain h ns _ s (length vs) (length vs) Hdll Hnd Hs 0%nat fuel)
      by lia.
    rewrite drop_0, take_app_length. done.
Qed.

Lemma push_back_all_rep vs : ∀ h l ns ws,
  rep h l ns ws → Z.of_nat (length ws + length vs) < two64 →
  ∃ l' h' ns',
    push_back_all vs l h = Ok (l', h') ∧ rep h' l' ns' (ws ++ vs) ∧
    grown ns ns' h ∧ frame ns h h'.
Proof.
  induction vs as [|v vs IH]; intros h l ns ws Hrep Hroom.
  - exists l, h, ns. rewrite app_nil_r.
    split_and!; [done | done | apply grown_refl | apply frame_refl].
  - simpl in Hroom.
    destruct (push_back_rep h l ns ws v Hrep) as (l1 & h1 & ns1 & Hrun & Hrep1 & Hg1 & Hf1);
      [lia|].
    destruct (IH h1 l1 ns1 (ws ++ [v]) Hrep1) as (l2 & h2 & ns2 & Hrun2 & Hrep2 & Hg2 & Hf2).
    { rewrite length_app. simpl. lia. }
    exists l2, h2, ns2. split_and!.
    + cbn [push_back_all]. by rewrite (bind_ok _ _ _ _ _ Hrun).
    + by rewrite <- app_assoc in Hrep2.
    + by eapply grown_trans.
    + by eapply frame_trans.
Qed.
End Walk.

(** ** Chains under insertion at the front and removal *)

Section ChainSurgery.
Context {T : Type} `{!ValueInit T}.
Implicit Types (h : heap T) (ns : list loc) (xs vs : list T) (l : List).

Lemma delete_app_l {A} (l1 l2 : list A) (k : nat) :
  (k < length l1)%nat → delete k (l1 ++ l2) = delete k l1 ++ l2.
Proof.
  revert k. induction l1 as [|x l1 IH]; intros [|k] Hk; simpl in *;
    try lia; try done.
  f_equal. apply IH. lia.
Qed.

(** Linking a new node in front of the first one. *)
Lemma dll_cons h h' ns xs p a v x0 :
  dll h ns xs → ns !! 0%nat = Some p → xs !! 0%nat = Some x0 →
  NoDup ns → a ∉ ns →
  h' !! a = Some (Live (mkNode (Some p) None v)) →
  h' !! p = Some (Live (mkNode (ns !! 1%nat) (Some a) x0)) →
  (∀ b, b ≠ p → b ≠ a → h' !! b = h !! b) →
  dll h' (a :: ns) (v :: xs).
Proof.
  intros [Hlen H] Hp Hx0 Hnd Hna Ha' Hp' Hothers.
  split; [simpl; lia|]. intros i b x Hi Hx.
  destruct i as [|[|i]]; simpl in *.
  - simplify_eq. by rewrite Hp.
  - simplify_eq. done.
  - rewrite Hothers.
    + by apply H.
    + intros ->. pose proof (NoDup_lookup _ _ _ _ Hnd Hi Hp). lia.
    + intros ->. apply Hna. by eapply list_elem_of_lookup_2.
Qed.

(** Unlinking the node at index [k], which has a node on either side. *)
Lemma dll_delete h h' ns xs (k : nat) a pv nx xp xn :
  dll h ns xs → NoDup ns →
  ns !! k = Some pv → ns !! S k = Some a → ns !! S (S k) = Some nx →
  xs !! k = Some xp → xs !! S (S k) = Some xn →
  h' !! pv = Some (Live (mkNode (Some nx) (prev_at ns k) xp)) →
  h' !! nx = Some (Live (mkNode (ns !! S (S (S k))) (Some pv) xn)) →
  (∀ b, b ≠ pv → b ≠ nx → b ≠ a → h' !! b = h !! b) →
  dll h' (delete (S k) ns) (delete (S k) xs).
Proof.
  intros [Hlen H] Hnd Hpv Ha Hnx Hxp Hxn Hpv' Hnx' Hothers.
  assert (S (S k) < length ns)%nat as Hk by (by eapply lookup_lt_Some).
  split; [rewrite !length_delete; [lia| |]; apply lookup_lt_is_Some_2; lia|].
  intros i b x Hi Hx.
  destruct (decide (i < k)%nat) as [Hlt|Hge].
  - rewrite list_lookup_delete_lt in Hi by lia. rewrite list_lookup_delete_lt in Hx by lia.
    rewrite list_lookup_delete_lt by lia.
    replace (prev_at (delete (S k) ns) i) with (prev_at ns i).
    2:{ destruct i; [done|]. simpl. by rewrite list_lookup_delete_lt by lia. }
    rewrite Hothers; [by apply H| | |]; intros ->.
    + pose proof (NoDup_lookup _ _ _ _ Hnd Hi Hpv). lia.
    + pose proof (NoDup_lookup _ _ _ _ Hnd Hi Hnx). lia.
    + pose proof (NoDup_lookup _ _ _ _ Hnd Hi Ha). lia.
  - destruct (decide (i = k)) as [->|Hne].
    + rewrite list_lookup_delete_lt in Hi by lia. rewrite list_lookup_delete_lt in Hx by lia.
      rewrite list_lookup_delete_ge by lia.
      replace (prev_at (delete (S k) ns) k) with (prev_at ns k).
      2:{ destruct k; [done|]. simpl. by rewrite list_lookup_delete_lt by lia. }
      simplify_eq. by rewrite Hnx.
    + rewrite list_lookup_delete_ge in Hi by lia. rewrite list_lookup_delete_ge in Hx by lia.
      rewrite list_lookup_delete_ge by lia.
      destruct (decide (i = S k)) as [->|Hne'].
      * simplify_eq. rewrite Hnx'. do 3 f_equal.
        simpl. rewrite list_lookup_delete_lt by lia. done.
      * replace (prev_at (delete (S k) ns) i) with (prev_at ns (S i)).
        2:{ destruct i; [lia|]. simpl. by rewrite list_lookup_delete_ge by lia. }
        rewrite Hothers; [by apply H| | |]; intros ->.
        -- pose proof (NoDup_lookup _ _ _ _ Hnd Hi Hpv). lia.
        -- pose proof (NoDup_lookup _ _ _ _ Hnd Hi Hnx). lia.
        -- pose proof (NoDup_lookup _ _ _ _ Hnd Hi Ha). lia.
Qed.
End ChainSurgery.

(** ** Removal *)

Section Erase.
Context {T : Type} `{!ValueInit T} `{!Allocator T}.
Implicit Types (h : heap T) (ns : list loc) (xs vs : list T) (l : List).

(** [erase] of a node that has a node on either side, in a list whose
    counter is not 1. *)
Lemma erase_run fuel h l a nx pv d n1 p1 d1 n2 p2 d2 :
  size l ≠ 1 →
  h !! a = Some (Live (mkNode (Some nx) (Some pv) d)) →
  h !! pv = Some (Live (mkNode n1 p1 d1)) →
  h !! nx = Some (Live (mkNode n2 p2 d2)) →
  pv ≠ a → nx ≠ a → pv ≠ nx →
  erase fuel (mkIterator (Some a)) l h =
    Ok (mkIterator (Some nx), mkList (head_ l) (tail_ l) (wrap (size_ l - 1)),
        <[a := Freed]>
          (<[nx := Live (mkNode n2 (Some pv) d2)]>
             (<[pv := Live (mkNode (Some nx) p1 d1)]> h))).
Proof.
  intros Hsz Ha Hpv Hnx Hpa Hna Hpn.
  unfold erase. rewrite bool_decide_eq_false_2 by done. cbn [node_].
  rewrite (bind_deref _ _ _ _ Ha). cbn [next_ prev_].
  rewrite (bind_set_next _ _ _ _ _ _ _ Hpv).
  erewrite bind_deref by (rewrite lookup_insert_ne by done; exact Ha).
  cbn [next_ prev_].
  erewrite bind_set_prev by (rewrite lookup_insert_ne by done; exact Hnx).
  erewrite bind_deref by (rewrite !lookup_insert_ne by done; exact Ha).
  cbn [next_ prev_].
  erewrite bind_delete by (rewrite !lookup_insert_ne by done; exact Ha).
  reflexivity.
Qed.

(** [erase] of a node without predecessor writes through a null pointer. *)
Lemma erase_no_prev fuel h l a nx d :
  size l ≠ 1 →
  h !! a = Some (Live (mkNode nx None d)) →
  erase fuel (mkIterator (Some a)) l h = Fault.
Proof.
  intros Hsz Ha. unfold erase. rewrite bool_decide_eq_false_2 by done.
  cbn [node_]. rewrite (bind_deref _ _ _ _ Ha). cbn [next_ prev_].
  reflexivity.
Qed.

(** The loop of [clear] frees a null-terminated chain node by node. *)
Lemma clear_loop_chain ms : ∀ h (fuel : nat),
  NoDup ms →
  (∀ (i : nat) a, ms !! i = Some a →
     ∃ n, h !! a = Some (Live n) ∧ next_ n = ms !! S i) →
  (length ms ≤ fuel)%nat →
  ∃ h', clear_loop fuel (ms !! 0%nat) h = Ok (None, h') ∧
        frame ms h h' ∧ ∀ a, a ∈ ms → h' !! a = Some Freed.
Proof.
  induction ms as [|a ms IH]; intros h fuel Hnd Hcells Hfuel.
  - exists h. split_and!; [by destruct fuel | apply frame_refl |].
    by intros a ?%elem_of_nil.
  - destruct fuel as [|fuel]; [simpl in Hfuel; lia|].
    apply NoDup_cons in Hnd as [Hna Hnd].
    destruct (Hcells 0%nat a eq_refl) as (n & Hn & Hnext).
    destruct (IH (<[a := Freed]> h) fuel Hnd) as (h' & Hrun & Hfr & Hfreed).
    { intros i b Hb. destruct (Hcells (S i) b Hb) as (nb & Hnb & Hnextb).
      exists nb. split; [|done]. rewrite lookup_insert_ne; [done|].
      intros ->. apply Hna. by eapply list_elem_of_lookup_2. }
    { simpl in Hfuel. lia. }
    exists h'. split_and!.
    + cbn [clear_loop lookup list_lookup].
      rewrite (bind_deref _ _ _ _ Hn), (bind_delete _ _ _ _ Hn).
      rewrite Hnext. exact Hrun.
    + intros b c Hb Hnin. apply Hfr.
      * rewrite lookup_insert_ne; [done|]. intros ->. apply Hnin. by left.
      * intros Hin. apply Hnin. by right.
    + intros b [->|Hb]%elem_of_cons; [|by apply Hfreed].
      apply Hfr; [by rewrite lookup_insert_eq | done].
Qed.

Lemma shape_length h l ns vs : shape h l ns vs → length ns = S (length vs).
Proof.
  intros (_ & _ & Hdll & _). apply dll_length in Hdll.
  rewrite length_app in Hdll. simpl in Hdll. lia.
Qed.

(** [clear] frees every node of the list, sentinel included. *)
Lemma clear_inv h l ns vs (fuel : nat) :
  inv h l ns vs → NoDup ns → (length ns ≤ fuel)%nat →
  ∃ h', clear fuel l h = Ok (List_default, h') ∧
        frame ns h h' ∧ ∀ a, a ∈ ns → h' !! a = Some Freed.
Proof.
  intros [(-> & -> & ->)|[Hshape _]] _ Hfuel.
  - exists h. split_and!; [by destruct fuel | apply frame_refl |].
    by intros a ?%elem_of_nil.
  - pose proof (shape_length _ _ _ _ Hshape) as Hlen.
    destruct Hshape as (Hvs & Hnd & Hdll & Hhd & _).
    destruct (clear_loop_chain ns h fuel Hnd) as (h' & Hrun & Hfr & Hfreed);
      [|done|].
    { intros i a Ha.
      destruct (lookup_lt_is_Some_2 (vs ++ [value_init]) i) as [x Hx].
      { rewrite <- (dll_length _ _ _ Hdll). by eapply lookup_lt_Some. }
      eexists. split; [by eapply dll_lookup|done]. }
    exists h'. split_and!; [|done..].
    unfold clear. rewrite Hhd. by rewrite (bind_ok _ _ _ _ _ Hrun).
Qed.
End Erase.

Section EraseShape.
Context {T : Type} `{!ValueInit T} `{!Allocator T}.
Implicit Types (h : heap T) (ns : list loc) (xs vs : list T) (l : List).

(** A stale [tail_] stays stale when only nodes of the list change. *)
Lemma tail_dangling_frame h h' l l' ns vs :
  shape h l ns vs → tail_dangling h l → frame ns h h' →
  tail_ l' = tail_ l → tail_dangling h' l'.
Proof.
  intros (_ & _ & Hdll & _) (a & Htl & Ha) Hfr Heq.
  exists a. split; [congruence|]. apply Hfr; [done|].
  intros Hin. destruct (dll_live _ _ _ _ Hdll Hin) as [n Hn]. congruence.
Qed.

(** [erase] of a real node other than the first one, in a list of at least
    two elements: the node is unlinked and freed and the counter goes down
    by one; [head_] and [tail_] are not written. *)
Lemma erase_shape h l ns vs (k : nat) a (fuel : nat) :
  shape h l ns vs → ns !! S k = Some a → (S k < length vs)%nat →
  let l' := mkList (head_ l) (tail_ l) (size_ l - 1) in
  ∃ h',
    erase fuel (mkIterator (Some a)) l h =
      Ok (mkIterator (ns !! S (S k)), l', h') ∧
    shape h' l' (delete (S k) ns) (delete (S k) vs) ∧
    h' !! a = Some Freed ∧ frame ns h h'.
Proof.
  intros Hshape Ha Hk l'.
  pose proof (shape_length _ _ _ _ Hshape) as Hlen.
  destruct Hshape as (Hvs & Hnd & Hdll & Hhd & Hsz & Hbound).
  destruct (lookup_lt_is_Some_2 ns k) as [pv Hpv]; [lia|].
  destruct (lookup_lt_is_Some_2 ns (S (S k))) as [nx Hnx]; [lia|].
  destruct (lookup_lt_is_Some_2 vs k) as [xp Hxp]; [lia|].
  destruct (lookup_lt_is_Some_2 vs (S k)) as [xa Hxa]; [lia|].
  destruct (lookup_lt_is_Some_2 (vs ++ [value_init]) (S (S k))) as [xn Hxn].
  { rewrite length_app. simpl. lia. }
  pose proof (dll_lookup _ _ _ _ _ _ Hdll Hpv
                (lookup_app_l_Some _ _ _ _ Hxp)) as Hcpv.
  pose proof (dll_lookup _ _ _ _ _ _ Hdll Ha
                (lookup_app_l_Some _ _ _ _ Hxa)) as Hca.
  pose proof (dll_lookup _ _ _ _ _ _ Hdll Hnx Hxn) as Hcnx.
  cbn [prev_at] in Hca, Hcnx. rewrite Hnx, Hpv in Hca. rewrite Ha in Hcnx, Hcpv.
  assert (pv ≠ a) as Hpa.
  { intros ->. pose proof (NoDup_lookup _ _ _ _ Hnd Hpv Ha). lia. }
  assert (nx ≠ a) as Hna.
  { intros ->. pose proof (NoDup_lookup _ _ _ _ Hnd Hnx Ha). lia. }
  assert (pv ≠ nx) as Hpn.
  { intros ->. pose proof (NoDup_lookup _ _ _ _ Hnd Hpv Hnx). lia. }
  assert (size l ≠ 1) as Hne1 by (unfold size; lia).
  pose proof (erase_run fuel h l a nx pv _ _ _ _ _ _ _
                Hne1 Hca Hcpv Hcnx Hpa Hna Hpn) as Hrun.
  eexists. split_and!.
  - rewrite Hrun, Hnx. subst l'. do 3 f_equal. unfold wrap.
    rewrite Z.mod_small; [done|lia].
  - split_and!.
    + intros Hnil. apply (f_equal length) in Hnil.
      rewrite length_delete in Hnil by eauto. simpl in Hnil. lia.
    + eapply sublist_NoDup; [done | apply sublist_delete].
    + rewrite <- delete_app_l by lia.
      eapply dll_delete; try done.
      * by apply lookup_app_l_Some.
      * rewrite lookup_insert_ne by done. rewrite lookup_insert_ne by done.
        by rewrite lookup_insert_eq.
      * rewrite lookup_insert_ne by done. by rewrite lookup_insert_eq.
      * intros b Hb1 Hb2 Hb3. by rewrite !lookup_insert_ne.
    + subst l'. cbn [head_]. by rewrite list_lookup_delete_lt by lia.
    + subst l'. cbn [size_]. rewrite length_delete by eauto. lia.
    + rewrite length_delete by eauto. lia.
  - by rewrite lookup_insert_eq.
  - intros b c Hb Hnin.
    rewrite !lookup_insert_ne; [done|intros ->; apply Hnin..];
      by eapply list_elem_of_lookup_2.
Qed.

(** [push_front] on a non-empty list links a new first node. *)
Lemma push_front_shape h l ns vs v :
  shape h l ns vs → Z.of_nat (length vs) + 1 < two64 →
  let a := alloc h in
  let l' := mkList (Some a) (tail_ l) (size_ l + 1) in
  ∃ h',
    push_front v l h = Ok (l', h') ∧ shape h' l' (a :: ns) (v :: vs) ∧
    frame ns h h'.
Proof.
  intros Hshape Hroom a l'.
  pose proof (shape_length _ _ _ _ Hshape) as Hlen.
  destruct Hshape as (Hvs & Hnd & Hdll & Hhd & Hsz & Hbound).
  destruct (lookup_lt_is_Some_2 ns 0%nat) as [p Hp]; [lia|].
  destruct (lookup_lt_is_Some_2 vs 0%nat) as [x0 Hx0].
  { destruct vs; [done | simpl; lia]. }
  pose proof (dll_lookup _ _ _ _ _ _ Hdll Hp
                (lookup_app_l_Some _ _ _ _ Hx0)) as Hcp.
  cbn [prev_at] in Hcp.
  assert (Ha : h !! a = None) by apply alloc_fresh.
  assert (Hap : a ≠ p) by congruence.
  assert (Hfresh : a ∉ ns).
  { intros Hin. destruct (dll_live _ _ _ _ Hdll Hin) as [n Hn]. congruence. }
  eexists. split_and!.
  - unfold push_front. rewrite Hhd, Hp. rewrite bind_assoc, bind_new.
    fold a. rewrite bind_assoc.
    erewrite bind_set_prev by (rewrite lookup_insert_ne by done; exact Hcp).
    rewrite !bind_ret. unfold ret. subst l'. cbn [head_ tail_ size_].
    do 3 f_equal. unfold wrap. rewrite Z.mod_small; [done|lia].
  - split_and!; try done.
    + apply NoDup_cons. done.
    + change ((v :: vs) ++ [value_init]) with (v :: (vs ++ [value_init])).
      eapply dll_cons; try done.
      * by apply lookup_app_l_Some.
      * rewrite lookup_insert_ne by done. by rewrite lookup_insert_eq.
      * by rewrite lookup_insert_eq.
      * intros b Hb1 Hb2. by rewrite !lookup_insert_ne.
    + subst l'. cbn [size_]. simpl length. lia.
    + simpl length. lia.
  - intros b c Hb Hnin.
    assert (b ≠ p) by (intros ->; apply Hnin; by eapply list_elem_of_lookup_2).
    assert (b ≠ a) by congruence.
    by rewrite !lookup_insert_ne.
Qed.
End EraseShape.

(** ** Lists with a stale [tail_], and positions outside the real nodes *)

Section Stale.
Context {T : Type} `{!ValueInit T} `{!Allocator T}.
Implicit Types (h : heap T) (ns : list loc) (xs vs : list T) (l : List).

Lemma shape_head h l ns vs : shape h l ns vs → ∃ p, head_ l = Some p.
Proof.
  intros Hshape. pose proof (shape_length _ _ _ _ Hshape) as Hlen.
  destruct Hshape as (_ & _ & _ & Hhd & _).
  destruct ns as [|p ns]; [simpl in Hlen; lia|]. by exists p.
Qed.

Lemma shape_live h l ns vs a : shape h l ns vs → a ∈ ns → ∃ n, h !! a = Some (Live n).
Proof. intros (_ & _ & Hdll & _). by eapply dll_live. Qed.

Lemma inv_live h l ns vs a : inv h l ns vs → a ∈ ns → ∃ n, h !! a = Some (Live n).
Proof.
  intros [(_ & -> & _)|[Hshape _]]; [by intros ?%elem_of_nil|].
  by eapply shape_live.
Qed.

Lemma inv_NoDup h l ns vs : inv h l ns vs → NoDup ns.
Proof.
  intros [(_ & -> & _)|[(_ & Hnd & _) _]]; [apply NoDup_nil_2 | done].
Qed.

(** [end()] of a well-formed list is the sentinel. *)
Lemma end_rep h l ns vs :
  rep h l ns vs → end_ l h = Ok (mkIterator (ns !! length vs), h).
Proof.
  intros [(-> & -> & ->)|[Hshape Htl]]; [done|].
  pose proof (shape_length _ _ _ _ Hshape) as Hlen.
  destruct Hshape as (Hvs & Hnd & Hdll & Hhd & Hsz & Hbound).
  assert (length vs ≠ 0)%nat as Hpos by (destruct vs; simpl; [done|lia]).
  unfold tail_good in Htl.
  destruct (lookup_lt_is_Some_2 ns (length ns - 2)%nat) as [t Ht]; [lia|].
  destruct (lookup_lt_is_Some_2 vs (length ns - 2)%nat) as [vt Hvt]; [lia|].
  pose proof (dll_lookup _ _ _ _ _ _ Hdll Ht
                (lookup_app_l_Some _ _ _ _ Hvt)) as Hcell.
  replace (S (length ns - 2)) with (length vs) in Hcell by lia.
  unfold end_. rewrite Htl, Ht. by rewrite (bind_deref _ _ _ _ Hcell).
Qed.

(** With a stale [tail_], [end()] and [push_back] read a deleted node. *)
Lemma end_stale h l : tail_dangling h l → end_ l h = Fault.
Proof.
  intros (a & Htl & Ha). unfold end_. rewrite Htl.
  unfold bind. by rewrite (deref_freed _ _ Ha).
Qed.

Lemma push_back_stale h l ns vs v :
  shape h l ns vs → tail_dangling h l → push_back v l h = Fault.
Proof.
  intros Hshape (a & Htl & Ha). destruct (shape_head _ _ _ _ Hshape) as [p Hp].
  unfold push_back. rewrite Hp, Htl. rewrite !bind_assoc.
  unfold bind at 1. by rewrite (deref_freed _ _ Ha).
Qed.

(** [erase] at the null position, in a list whose counter is not 1. *)
Lemma erase_null fuel h l :
  size l ≠ 1 → erase fuel (mkIterator None) l h = Fault.
Proof.
  intros Hsz. unfold erase. by rewrite bool_decide_eq_false_2 by done.
Qed.

(** [erase] at a node without successor (the sentinel). *)
Lemma erase_no_next fuel h l a pv d n1 p1 d1 :
  size l ≠ 1 →
  h !! a = Some (Live (mkNode None (Some pv) d)) →
  h !! pv = Some (Live (mkNode n1 p1 d1)) → pv ≠ a →
  erase fuel (mkIterator (Some a)) l h = Fault.
Proof.
  intros Hsz Ha Hpv Hne. unfold erase.
  rewrite bool_decide_eq_false_2 by done. cbn [node_].
  rewrite (bind_deref _ _ _ _ Ha). cbn [next_ prev_].
  rewrite (bind_set_next _ _ _ _ _ _ _ Hpv).
  erewrite bind_deref by (rewrite lookup_insert_ne by done; exact Ha).
  reflexivity.
Qed.

(** [k] increments from the node at index [i] of a chain. *)
Lemma advance_chain h ns xs (k : nat) : ∀ (i : nat),
  dll h ns xs → (i ≤ length ns)%nat →
  advance k (mkIterator (ns !! i)) h =
    if decide (i + k ≤ length ns)%nat
    then Ok (mkIterator (ns !! (i + k)%nat), h) else Fault.
Proof.
  intros i Hdll. revert i.
  induction k as [|k IH]; intros i Hi.
  - cbn [advance]. rewrite Nat.add_0_r. unfold ret. by rewrite decide_True.
  - cbn [advance]. unfold iter_incr. cbn [node_].
    destruct (ns !! i) as [a|] eqn:Ha.
    + destruct (lookup_lt_is_Some_2 xs i) as [x Hx].
      { rewrite <- (dll_length _ _ _ Hdll). by eapply lookup_lt_Some. }
      pose proof (lookup_lt_Some _ _ _ Ha) as Hlt.
      rewrite bind_assoc.
      rewrite (bind_deref _ _ _ _ (dll_lookup _ _ _ _ _ _ Hdll Ha Hx)).
      rewrite bind_ret. cbn [next_]. rewrite IH by lia.
      replace (S i + k)%nat with (i + S k)%nat by lia. done.
    + apply lookup_ge_None_1 in Ha.
      rewrite decide_False by lia. done.
Qed.
End Stale.

(** ** Construction from a range *)

Section Range.
Context {T : Type} `{!ValueInit T} `{!Allocator T}.
Implicit Types (h : heap T) (ns : list loc) (xs vs : list T) (l : List).

Lemma rep_frame h h' l ns ms vs :
  rep h l ns vs → frame ms h h' → (∀ a, a ∈ ns → a ∉ ms) → rep h' l ns vs.
Proof.
  intros [?|[(Hvs & Hnd & Hdll & Hrest) Htl]] Hfr Hdisj; [by left|right].
  split; [|done]. split; [done|]. split; [done|].
  split; [by eapply dll_frame | done].
Qed.

Lemma inv_frame h h' l ns ms vs :
  inv h l ns vs → frame ms h h' → (∀ a, a ∈ ns → a ∉ ms) →
  (∀ a, a ∈ ms → ∃ n, h !! a = Some (Live n)) → inv h' l ns vs.
Proof.
  intros [?|[(Hvs & Hnd & Hdll & Hrest) Htl]] Hfr Hdisj Hlive; [by left|right].
  split.
  { split; [done|]. split; [done|]. split; [by eapply dll_frame | done]. }
  destruct Htl as [?|(a & Htl & Ha)]; [by left|right].
  exists a. split; [done|]. apply Hfr; [done|].
  intros [n Hn]%Hlive. congruence.
Qed.

Lemma take_chain_values vs : take (length vs) (chain_values vs) = vs.
Proof. destruct vs; [done|]. unfold chain_values. apply take_app_length. Qed.

Lemma inv_chain h l ns vs :
  inv h l ns vs → dll h ns (chain_values vs) ∧ head_ l = ns !! 0%nat.
Proof.
  intros [(-> & -> & ->)|[(Hvs & _ & Hdll & Hhd & _) _]].
  - split; [|done]. split; [done|]. by intros i a x ?.
  - by destruct vs.
Qed.

Lemma inv_length h l ns vs : inv h l ns vs → (length vs ≤ length ns)%nat.
Proof.
  intros [(-> & -> & _)|[Hshape _]]; [done|].
  rewrite (shape_length _ _ _ _ Hshape). lia.
Qed.

Lemma grown_disjoint h ns ns' ms xs :
  grown ns ns' h → dll h ms xs → (∀ a, a ∈ ns → a ∉ ms) →
  ∀ a, a ∈ ns' → a ∉ ms.
Proof.
  intros Hg Hdll Hdisj a Ha Hin.
  destruct (Hg a Ha) as [?|Hnone]; [by eapply Hdisj|].
  destruct (dll_live _ _ _ _ Hdll Hin) as [n Hn]. congruence.
Qed.

(** The loop of the range constructor, run over the stretch from index
    [i] to index [k] of a chain that is disjoint from the list under
    construction. *)
Lemma range_loop_chain nso xs (k d : nat) :
  NoDup nso → (k ≤ length nso)%nat →
  ∀ (i fuel : nat) h l nsl ws,
    dll h nso xs → rep h l nsl ws → (∀ a, a ∈ nsl → a ∉ nso) →
    (i + d = k)%nat → (d ≤ fuel)%nat →
    Z.of_nat (length ws + d) < two64 →
    ∃ l' h' nsl',
      range_loop fuel (mkIterator (nso !! i)) (mkIterator (nso !! k)) l h
        = Ok (l', h') ∧
      rep h' l' nsl' (ws ++ take d (drop i xs)) ∧
      grown nsl nsl' h ∧ frame nsl h h'.
Proof.
  intros Hnd Hk. induction d as [|d IH];
    intros i fuel h l nsl ws Hdll Hrep Hdisj Hik Hfuel Hroom.
  - replace i with k by lia. exists l, h, nsl.
    rewrite take_0, app_nil_r. split_and!; try done.
    + destruct fuel; simpl; unfold iter_eq; by rewrite bool_decide_eq_true_2.
    + apply grown_refl.
    + apply frame_refl.
  - destruct fuel as [|fuel]; [lia|].
    destruct (lookup_lt_is_Some_2 nso i) as [a Ha]; [lia|].
    destruct (lookup_lt_is_Some_2 xs i) as [x Hx].
    { rewrite <- (dll_length _ _ _ Hdll). lia. }
    pose proof (dll_lookup _ _ _ _ _ _ Hdll Ha Hx) as Hcell.
    destruct (push_back_rep h l nsl ws x Hrep)
      as (l1 & h1 & nsl1 & Hrun1 & Hrep1 & Hg1 & Hf1); [lia|].
    assert (Hdisj1 : ∀ b, b ∈ nsl1 → b ∉ nso) by (by eapply grown_disjoint).
    assert (Hdll1 : dll h1 nso xs).
    { eapply dll_frame; [done..|]. intros b Hb Hb'. by eapply Hdisj. }
    destruct (IH (S i) fuel h1 l1 nsl1 (ws ++ [x]) Hdll1 Hrep1 Hdisj1)
      as (l2 & h2 & nsl2 & Hrun2 & Hrep2 & Hg2 & Hf2); [lia|lia| |].
    { rewrite length_app. simpl. lia. }
    exists l2, h2, nsl2. split_and!.
    + cbn [range_loop]. unfold iter_eq. cbn [node_]. rewrite Ha.
      rewrite bool_decide_eq_false_2.
      2:{ intros Heq. symmetry in Heq.
          pose proof (NoDup_lookup _ _ _ _ Hnd Ha Heq). lia. }
      unfold iter_deref, iter_incr. cbn [node_].
      rewrite bind_assoc, (bind_deref _ _ _ _ Hcell), bind_ret. cbn [data_].
      rewrite (bind_ok _ _ _ _ _ Hrun1).
      rewrite bind_assoc.
      erewrite bind_deref by (eapply dll_lookup; done).
      rewrite bind_ret. cbn [next_]. exact Hrun2.
    + rewrite <- app_assoc in Hrep2. simpl in Hrep2.
      by rewrite (drop_S _ _ _ Hx).
    + by eapply grown_trans.
    + by eapply frame_trans.
Qed.

(** The same loop for an arbitrary end position and any fuel: whenever it
    returns, the list under construction is well formed. *)
Lemma range_loop_ok nso xs last (fuel : nat) :
  NoDup nso →
  ∀ (i : nat) h l nsl ws l' h',
    dll h nso xs → rep h l nsl ws → (∀ a, a ∈ nsl → a ∉ nso) →
    (i ≤ length nso)%nat →
    Z.of_nat (length ws + (length nso - i)) < two64 →
    range_loop fuel (mkIterator (nso !! i)) last l h = Ok (l', h') →
    ∃ nsl' ws', rep h' l' nsl' ws' ∧ grown nsl nsl' h ∧ frame nsl h h'.
Proof.
  intros Hnd. induction fuel as [|fuel IH];
    intros i h l nsl ws l' h' Hdll Hrep Hdisj Hi Hroom Hrun;
    cbn [range_loop] in Hrun;
    destruct (iter_eq (mkIterator (nso !! i)) last) eqn:Heq.
  - injection Hrun as <- <-. exists nsl, ws.
    split_and!; [done | apply grown_refl | apply frame_refl].
  - done.
  - injection Hrun as <- <-. exists nsl, ws.
    split_and!; [done | apply grown_refl | apply frame_refl].
  - unfold iter_deref, iter_incr in Hrun. cbn [node_] in Hrun.
    destruct (nso !! i) as [a|] eqn:Ha; [|done].
    pose proof (lookup_lt_Some _ _ _ Ha) as Hlt.
    destruct (lookup_lt_is_Some_2 xs i) as [x Hx].
    { rewrite <- (dll_length _ _ _ Hdll). lia. }
    pose proof (dll_lookup _ _ _ _ _ _ Hdll Ha Hx) as Hcell.
    rewrite bind_assoc, (bind_deref _ _ _ _ Hcell), bind_ret in Hrun.
    cbn [data_] in Hrun.
    destruct (push_back_rep h l nsl ws x Hrep)
      as (l1 & h1 & nsl1 & Hrun1 & Hrep1 & Hg1 & Hf1); [lia|].
    rewrite (bind_ok _ _ _ _ _ Hrun1) in Hrun.
    assert (Hdisj1 : ∀ b, b ∈ nsl1 → b ∉ nso) by (by eapply grown_disjoint).
    assert (Hdll1 : dll h1 nso xs).
    { eapply dll_frame; [done..|]. intros b Hb Hb'. by eapply Hdisj. }
    rewrite bind_assoc in Hrun.
    erewrite bind_deref in Hrun by (eapply dll_lookup; done).
    rewrite bind_ret in Hrun. cbn [next_] in Hrun.
    destruct (IH (S i) h1 l1 nsl1 (ws ++ [x]) l' h' Hdll1 Hrep1 Hdisj1)
      as (nsl2 & ws2 & Hrep2 & Hg2 & Hf2); [lia| |done|].
    { rewrite length_app. simpl. lia. }
    exists nsl2, ws2. split_and!; [done | by eapply grown_trans | by eapply frame_trans].
Qed.

(** The copy constructor on a well-formed list. *)
Lemma List_copy_rep h o nso vs (fuel : nat) :
  rep h o nso vs → (length vs ≤ fuel)%nat →
  ∃ l' h' ns',
    List_copy fuel o h = Ok (l', h') ∧ rep h' l' ns' vs ∧
    grown [] ns' h ∧ frame [] h h'.
Proof.
  intros Hrep Hfuel. pose proof (rep_inv _ _ _ _ Hrep) as Hinv.
  destruct (inv_chain _ _ _ _ Hinv) as (Hdll & Hhd).
  assert (Hbound : Z.of_nat (length vs) < two64).
  { destruct Hrep as [(-> & _)|[(_ & _ & _ & _ & _ & Hb) _]]; done. }
  destruct (range_loop_chain nso (chain_values vs) (length vs) (length vs)
              (inv_NoDup _ _ _ _ Hinv) (inv_length _ _ _ _ Hinv)
              0%nat fuel h List_default [] [] Hdll)
    as (l' & h' & ns' & Hrun & Hrep' & Hg & Hf); try done.
  { by left. }
  { by intros a ?%elem_of_nil. }
  exists l', h', ns'. split_and!; try done.
  - unfold List_copy. rewrite (bind_ok _ _ _ _ _ (end_rep _ _ _ _ Hrep)).
    unfold begin. rewrite Hhd. exact Hrun.
  - rewrite drop_0, take_chain_values in Hrep'. done.
Qed.
End Range.

(** ** [push_front] and [erase] on whole lists *)

Section Whole.
Context {T : Type} `{!ValueInit T} `{!Allocator T}.
Implicit Types (h : heap T) (ns : list loc) (xs vs : list T) (l : List).

Lemma push_front_inv h l ns vs v :
  inv h l ns vs → Z.of_nat (length vs) + 1 < two64 →
  ∃ l' h' ns',
    push_front v l h = Ok (l', h') ∧ inv h' l' ns' (v :: vs) ∧
    (rep h l ns vs → rep h' l' ns' (v :: vs)) ∧
    grown ns ns' h ∧ frame ns h h'.
Proof.
  intros [(-> & -> & ->)|[Hshape Htl]] Hroom.
  - destruct (push_back_empty h v List_default eq_refl)
      as (a1 & a2 & h' & Hrun & Hne & Ha1 & Ha2 & Hdll & Hfr).
    exists (mkList (Some a1) (Some a1) 1), h', [a1; a2].
    assert (rep h' (mkList (Some a1) (Some a1) 1) [a1; a2] [v]) as Hrep.
    { right. split; [|done]. split_and!; try done.
      apply NoDup_cons; split; [|apply NoDup_singleton].
      by intros ->%list_elem_of_singleton. }
    split_and!; [|by apply rep_inv|done| |done].
    + by rewrite push_front_empty.
    + intros a [->|[->|[]%elem_of_nil]%elem_of_cons]%elem_of_cons; by right.
  - pose proof (shape_length _ _ _ _ Hshape) as Hlen.
    destruct (push_front_shape h l ns vs v Hshape Hroom)
      as (h' & Hrun & Hshape' & Hfr).
    set (a := alloc h) in *.
    set (l' := mkList (Some a) (tail_ l) (size_ l + 1)) in *.
    assert (Hpos : (0 < length vs)%nat).
    { destruct Hshape as (Hvs & _). destruct vs; [done | simpl; lia]. }
    assert (Hgood : tail_good l ns → tail_good l' (a :: ns)).
    { unfold tail_good. subst l'. cbn [tail_ length]. intros ->.
      replace (S (length ns) - 2)%nat with (S (length ns - 2)) by lia. done. }
    exists l', h', (a :: ns). split_and!; [done| | | |done].
    + right. split; [done|]. destruct Htl as [?|Hst]; [left; eauto | right].
      by apply (tail_dangling_frame h h' l l' ns vs).
    + intros [(-> & _)|[_ Hg]]; [by destruct Hshape|]. right. eauto.
    + intros b [->|?]%elem_of_cons; [right; apply alloc_fresh | by left].
Qed.

Lemma push_front_all_rep vs : ∀ h l ns ws,
  rep h l ns ws → Z.of_nat (length ws + length vs) < two64 →
  ∃ l' h' ns',
    push_front_all vs l h = Ok (l', h') ∧ rep h' l' ns' (rev vs ++ ws) ∧
    grown ns ns' h ∧ frame ns h h'.
Proof.
  induction vs as [|v vs IH]; intros h l ns ws Hrep Hroom.
  - exists l, h, ns.
    split_and!; [done | done | apply grown_refl | apply frame_refl].
  - simpl in Hroom.
    destruct (push_front_inv h l ns ws v (rep_inv _ _ _ _ Hrep))
      as (l1 & h1 & ns1 & Hrun & _ & Hrep1 & Hg1 & Hf1); [lia|].
    specialize (Hrep1 Hrep).
    destruct (IH h1 l1 ns1 (v :: ws) Hrep1)
      as (l2 & h2 & ns2 & Hrun2 & Hrep2 & Hg2 & Hf2).
    { simpl. lia. }
    exists l2, h2, ns2. split_and!.
    + cbn [push_front_all]. by rewrite (bind_ok _ _ _ _ _ Hrun).
    + simpl. by rewrite <- app_assoc.
    + by eapply grown_trans.
    + by eapply frame_trans.
Qed.

End Whole.

(** ** Calls that return keep a list well formed *)

Section Returning.
Context {T : Type} `{!ValueInit T} `{!Allocator T}.
Implicit Types (h : heap T) (ns : list loc) (xs vs : list T) (l : List).

Lemma swap_members_eq (a b : List) : swap_members a b = (b, a).
Proof. by destruct a, b. Qed.

Lemma inv_room h l ns vs :
  inv h l ns vs → Z.of_nat (length ns) < two64 →
  Z.of_nat (length vs) + 1 < two64.
Proof.
  intros [(-> & -> & _)|[Hshape _]] Hroom; [done|].
  rewrite (shape_length _ _ _ _ Hshape) in Hroom. lia.
Qed.

Lemma push_back_ok h l ns vs v l' h' :
  inv h l ns vs → Z.of_nat (length ns) < two64 →
  push_back v l h = Ok (l', h') → local_step h ns l' h'.
Proof.
  intros Hinv Hroom Hrun. pose proof (inv_room _ _ _ _ Hinv Hroom) as Hroom'.
  assert (rep h l ns vs) as Hrep.
  { destruct Hinv as [?|[Hshape [?|Hst]]]; [by left | by right |].
    by rewrite (push_back_stale _ _ _ _ _ Hshape Hst) in Hrun. }
  destruct (push_back_rep h l ns vs v Hrep Hroom')
    as (l1 & h1 & ns1 & Hrun1 & Hrep1 & Hg & Hf).
  rewrite Hrun1 in Hrun. injection Hrun as <- <-.
  exists ns1, (vs ++ [v]). split_and!; [by apply rep_inv | done..].
Qed.

Lemma push_front_ok h l ns vs v l' h' :
  inv h l ns vs → Z.of_nat (length ns) < two64 →
  push_front v l h = Ok (l', h') → local_step h ns l' h'.
Proof.
  intros Hinv Hroom Hrun. pose proof (inv_room _ _ _ _ Hinv Hroom) as Hroom'.
  destruct (push_front_inv h l ns vs v Hinv Hroom')
    as (l1 & h1 & ns1 & Hrun1 & Hinv1 & _ & Hg & Hf).
  rewrite Hrun1 in Hrun. injection Hrun as <- <-.
  by exists ns1, (v :: vs).
Qed.

(** With too little fuel the loop of [clear] is cut off. *)
Lemma clear_loop_short ms : ∀ h (fuel : nat),
  NoDup ms →
  (∀ (i : nat) a, ms !! i = Some a →
     ∃ n, h !! a = Some (Live n) ∧ next_ n = ms !! S i) →
  (fuel < length ms)%nat →
  clear_loop fuel (ms !! 0%nat) h = OutOfFuel.
Proof.
  induction ms as [|a ms IH]; intros h fuel Hnd Hcells Hfuel;
    [simpl in Hfuel; lia|].
  destruct fuel as [|fuel]; [done|].
  apply NoDup_cons in Hnd as [Hna Hnd].
  destruct (Hcells 0%nat a eq_refl) as (n & Hn & Hnext).
  cbn [clear_loop lookup list_lookup].
  rewrite (bind_deref _ _ _ _ Hn), (bind_delete _ _ _ _ Hn), Hnext.
  apply IH; [done| |simpl in Hfuel; lia].
  intros i b Hb. destruct (Hcells (S i) b Hb) as (nb & Hnb & Hnextb).
  exists nb. split; [|done]. rewrite lookup_insert_ne; [done|].
  intros ->. apply Hna. by eapply list_elem_of_lookup_2.
Qed.

Lemma clear_ok h l ns vs (fuel : nat) l' h' :
  inv h l ns vs → clear fuel l h = Ok (l', h') →
  l' = List_default ∧ frame ns h h'.
Proof.
  intros Hinv Hrun.
  destruct (decide (length ns ≤ fuel)%nat) as [Hfuel|Hfuel].
  - destruct (clear_inv h l ns vs fuel Hinv (inv_NoDup _ _ _ _ Hinv) Hfuel)
      as (h1 & Hrun1 & Hfr & _).
    rewrite Hrun1 in Hrun. by injection Hrun as <- <-.
  - destruct Hinv as [(_ & -> & _)|[Hshape _]]; [simpl in Hfuel; lia|].
    destruct Hshape as (_ & Hnd & Hdll & Hhd & _).
    exfalso. unfold clear, bind in Hrun. rewrite Hhd in Hrun.
    rewrite (clear_loop_short ns h fuel Hnd) in Hrun; [done| |lia].
    intros i a Ha.
    destruct (lookup_lt_is_Some_2 (vs ++ [value_init]) i) as [x Hx].
    { rewrite <- (dll_length _ _ _ Hdll). by eapply lookup_lt_Some. }
    eexists. split; [by eapply dll_lookup|done].
Qed.

Lemma clear_local h l ns vs (fuel : nat) l' h' :
  inv h l ns vs → clear fuel l h = Ok (l', h') → local_step h ns l' h'.
Proof.
  intros Hinv Hrun. destruct (clear_ok _ _ _ _ _ _ _ Hinv Hrun) as [-> Hfr].
  exists [], []. split_and!; [by left | by intros a ?%elem_of_nil | done].
Qed.
End Returning.

Section ReturningErase.
Context {T : Type} `{!ValueInit T} `{!Allocator T}.
Implicit Types (h : heap T) (ns : list loc) (xs vs : list T) (l : List).

(** [erase] of a real node other than the first keeps [inv]; when it was
    the last real node, [tail_] is left stale. *)
Lemma erase_inv h l ns vs (k : nat) a (fuel : nat) :
  inv h l ns vs → ns !! S k = Some a → (S k < length vs)%nat →
  ∃ l' h',
    erase fuel (mkIterator (Some a)) l h =
      Ok (mkIterator (ns !! S (S k)), l', h') ∧
    tail_ l' = tail_ l ∧ h' !! a = Some Freed ∧
    inv h' l' (delete (S k) ns) (delete (S k) vs) ∧ frame ns h h'.
Proof.
  intros [(-> & _)|[Hshape Htl]] Ha Hk; [simpl in Hk; lia|].
  pose proof (shape_length _ _ _ _ Hshape) as Hlen.
  destruct (erase_shape h l ns vs k a fuel Hshape Ha Hk)
    as (h' & Hrun & Hshape' & Hfreed & Hfr).
  eexists _, h'. split_and!; [done..| |done].
  right. split; [done|].
  destruct Htl as [Hgood|Hst].
  - unfold tail_good in *.
    destruct (decide (S (S k) < length vs)%nat) as [Hint|Hlast].
    + left. cbn [tail_]. rewrite length_delete by eauto. rewrite Hgood.
      rewrite list_lookup_delete_ge by lia. f_equal. lia.
    + right. exists a. cbn [tail_]. split; [|done].
      rewrite Hgood, <- Ha. f_equal. lia.
  - right. by apply (tail_dangling_frame h h' l _ ns vs).
Qed.

(** [x.erase(next(x.begin(), k))], whenever it returns. *)
Lemma erase_ok h l ns vs (k fuel : nat) l' h' :
  inv h l ns vs →
  (let* pos := advance k (begin l) in
   let* r := erase fuel pos l in ret (snd r)) h = Ok (l', h') →
  local_step h ns l' h'.
Proof.
  intros Hinv Hrun.
  destruct (inv_chain _ _ _ _ Hinv) as [Hdll Hhd].
  pose proof (rep_size _ _ _ _ Hinv) as Hsz.
  unfold begin in Hrun. rewrite Hhd in Hrun.
  unfold bind at 1 in Hrun.
  rewrite (advance_chain h ns _ k 0%nat Hdll) in Hrun by lia.
  case_decide as Hk; [|done]. simpl in Hk, Hrun.
  destruct (decide (size l = 1)) as [Hone|Hne].
  - unfold erase in Hrun. rewrite bool_decide_eq_true_2 in Hrun by done.
    rewrite !bind_assoc in Hrun. unfold bind at 1 in Hrun.
    destruct (clear fuel l h) as [[l1 h1]| |] eqn:Hclear; [|done..].
    rewrite !bind_ret in Hrun. injection Hrun as <- <-.
    by eapply clear_local.
  - destruct Hinv as [(-> & -> & _)|[Hshape Htl]].
    { rewrite lookup_nil in Hrun.
      by rewrite (bind_fault _ _ _ (erase_null _ _ _ Hne)) in Hrun. }
    pose proof (shape_length _ _ _ _ Hshape) as Hlen.
    assert (2 ≤ length vs)%nat as Hlen2.
    { destruct Hshape as (Hvs & _). destruct vs; [done|]. simpl in *. lia. }
    destruct k as [|k].
    + (* the first node *)
      pose proof Hshape as (_ & _ & Hdll' & _).
      destruct (lookup_lt_is_Some_2 ns 0%nat) as [p Hp]; [lia|].
      destruct (lookup_lt_is_Some_2 vs 0%nat) as [x Hx]; [lia|].
      pose proof (dll_lookup _ _ _ _ _ _ Hdll' Hp
                    (lookup_app_l_Some _ _ _ _ Hx)) as Hcell.
      rewrite Hp in Hrun.
      by rewrite (bind_fault _ _ _ (erase_no_prev _ _ _ _ _ _ Hne Hcell)) in Hrun.
    + destruct (decide (S k < length vs)%nat) as [Hreal|Hpast].
      * destruct (lookup_lt_is_Some_2 ns (S k)) as [a Ha]; [lia|].
        destruct (erase_inv h l ns vs k a fuel (or_intror (conj Hshape Htl)) Ha Hreal)
          as (l1 & h1 & Hrun1 & _ & _ & Hinv1 & Hfr).
        rewrite Ha in Hrun. rewrite (bind_ok _ _ _ _ _ Hrun1) in Hrun.
        injection Hrun as <- <-.
        eexists _, _. split_and!; [done| |done].
        intros b Hb. left. by eapply list_elem_of_delete_inv.
      * destruct (decide (S k = length vs)) as [Hsent|Hnull].
        -- (* the sentinel *)
           pose proof Hshape as (_ & Hnd & Hdll' & _).
           destruct (lookup_lt_is_Some_2 ns k) as [t Ht]; [lia|].
           destruct (lookup_lt_is_Some_2 ns (S k)) as [s Hs]; [lia|].
           destruct (lookup_lt_is_Some_2 vs k) as [xt Hxt]; [lia|].
           pose proof (dll_lookup _ _ _ _ _ _ Hdll' Ht
                         (lookup_app_l_Some _ _ _ _ Hxt)) as Hct.
           assert ((vs ++ [value_init]) !! S k = Some value_init) as Hxs.
           { rewrite Hsent. by apply list_lookup_middle. }
           pose proof (dll_lookup _ _ _ _ _ _ Hdll' Hs Hxs) as Hcs.
           cbn [prev_at] in Hcs. rewrite Ht in Hcs.
           rewrite (lookup_ge_None_2 ns (S (S k))) in Hcs by lia.
           assert (t ≠ s).
           { intros ->. pose proof (NoDup_lookup _ _ _ _ Hnd Ht Hs). lia. }
           rewrite Hs in Hrun.
           by rewrite (bind_fault _ _ _
                         (erase_no_next _ _ _ _ _ _ _ _ _ Hne Hcs Hct ltac:(done)))
             in Hrun.
        -- (* past the sentinel *)
           rewrite (lookup_ge_None_2 ns (S k)) in Hrun by lia.
           by rewrite (bind_fault _ _ _ (erase_null _ _ _ Hne)) in Hrun.
Qed.

Lemma end_heap h l it h' : end_ (T:=T) l h = Ok (it, h') → h' = h.
Proof.
  unfold end_. destruct (tail_ l) as [t|]; [|by intros [= _ <-]].
  unfold bind, deref, ret. destruct (h !! t) as [[n|]|]; [|done..].
  by intros [= _ <-].
Qed.

(** The range constructor started inside the chain of a list, whenever
    it returns. *)
Lemma List_range_ok h lo nso vso (i fuel : nat) last l' h' :
  inv h lo nso vso → Z.of_nat (length nso) < two64 → (i ≤ length nso)%nat →
  List_range fuel (mkIterator (nso !! i)) last h = Ok (l', h') →
  ∃ ns' vs', rep h' l' ns' vs' ∧ grown [] ns' h ∧ frame [] h h'.
Proof.
  intros Hinv Hroom Hi Hrun.
  destruct (inv_chain _ _ _ _ Hinv) as [Hdll _].
  eapply (range_loop_ok nso _ last fuel (inv_NoDup _ _ _ _ Hinv) i h
            List_default [] []); try done.
  - by left.
  - by intros a ?%elem_of_nil.
  - simpl. lia.
Qed.

(** The copy constructor, whenever it returns. *)
Lemma List_copy_ok h lo nso vso (fuel : nat) l' h' :
  inv h lo nso vso → Z.of_nat (length nso) < two64 →
  List_copy fuel lo h = Ok (l', h') →
  ∃ ns' vs', rep h' l' ns' vs' ∧ grown [] ns' h ∧ frame [] h h'.
Proof.
  intros Hinv Hroom Hrun.
  destruct (inv_chain _ _ _ _ Hinv) as [_ Hhd].
  unfold List_copy in Hrun. unfold bind at 1 in Hrun.
  destruct (end_ lo h) as [[last h1]| |] eqn:Hend; [|done..].
  apply end_heap in Hend as ->.
  unfold begin in Hrun. rewrite Hhd in Hrun.
  eapply (List_range_ok h lo nso vso 0%nat); [done..|lia|exact Hrun].
Qed.

(** Copy assignment between two distinct lists, whenever it returns. *)
Lemma copy_assign_ok h lx nsx vsx ly nsy vsy (fuel : nat) l' h' :
  inv h lx nsx vsx → inv h ly nsy vsy →
  Z.of_nat (length nsy) < two64 →
  copy_assign fuel lx ly h = Ok (l', h') → local_step h nsx l' h'.
Proof.
  intros Hx Hy Hroom Hrun. unfold copy_assign in Hrun.
  unfold bind at 1 in Hrun.
  destruct (List_copy fuel ly h) as [[tmp h1]| |] eqn:Hcopy; [|done..].
  destruct (List_copy_ok _ _ _ _ _ _ _ Hy Hroom Hcopy)
    as (nst & vst & Hrept & Hgt & Hft).
  rewrite swap_members_eq in Hrun. unfold bind at 1 in Hrun.
  destruct (clear fuel lx h1) as [[l2 h2]| |] eqn:Hclear; [|done..].
  unfold ret in Hrun. injection Hrun as <- <-.
  assert (Hx1 : inv h1 lx nsx vsx).
  { apply (inv_frame h h1 lx nsx [] vsx Hx Hft).
    - by intros a _ ?%elem_of_nil.
    - by intros a ?%elem_of_nil. }
  destruct (clear_ok _ _ _ _ _ _ _ Hx1 Hclear) as [_ Hfc].
  assert (Hfresh : ∀ a, a ∈ nst → h !! a = None).
  { intros a Ha. by destruct (Hgt a Ha) as [?%elem_of_nil|?]. }
  exists nst, vst. split_and!.
  - apply rep_inv. eapply rep_frame; [done..|].
    intros a Ha Hin. destruct (inv_live _ _ _ _ _ Hx Hin) as [n Hn].
    rewrite (Hfresh a Ha) in Hn. done.
  - intros a Ha. right. by apply Hfresh.
  - intros a c Hc Hnin. apply Hfc; [|done].
    apply Hft; [done|]. by intros ?%elem_of_nil.
Qed.
End ReturningErase.

(** ** Programs with several lists *)

Section World.
Context {T : Type} `{!ValueInit T} `{!Allocator T}.
Implicit Types (h : heap T) (ns : list loc) (vs : list T) (l : List).
Implicit Types (w : world T) (fp : nat → list loc) (vals : nat → list T).

Lemma List_move_eq (o : List) : List_move o = (o, List_default).
Proof. by destruct o. Qed.

(** Distinct live nodes are distinct cells of the heap. *)
Lemma footprint_le_size h ns :
  NoDup ns → (∀ a, a ∈ ns → is_Some (h !! a)) →
  (length ns ≤ base.size h)%nat.
Proof.
  intros Hnd Hin.
  rewrite <- length_map_to_list, <- (length_fmap fst).
  apply submseteq_length, NoDup_submseteq; [done|].
  intros a [c Hc]%Hin. apply list_elem_of_fmap. exists (a, c).
  split; [done|]. by apply elem_of_map_to_list.
Qed.

Lemma owned_room w fp vals (x : nat) l :
  owned w fp vals → fits w → objs w !! x = Some l →
  Z.of_nat (length (fp x)) < two64.
Proof.
  intros [Hinv _] Hfits Hx. specialize (Hinv x l Hx). unfold fits in Hfits.
  pose proof (footprint_le_size (mem w) (fp x) (inv_NoDup _ _ _ _ Hinv)) as Hle.
  assert (length (fp x) ≤ base.size (mem w))%nat; [|lia].
  apply Hle. intros a Ha.
  destruct (inv_live _ _ _ _ _ Hinv Ha) as [n Hn]. eauto.
Qed.

Lemma owned_other w fp vals (x y : nat) lx ly h' :
  owned w fp vals → x ≠ y →
  objs w !! x = Some lx → objs w !! y = Some ly →
  frame (fp x) (mem w) h' → inv h' ly (fp y) (vals y).
Proof.
  intros [Hinv Hdisj] Hxy Hx Hy Hfr.
  apply (inv_frame (mem w) h' ly (fp y) (fp x) (vals y));
    [by apply Hinv|done| |].
  - intros a Ha Ha'. by eapply (Hdisj x y a).
  - intros a Ha. by apply (inv_live (mem w) lx (fp x) (vals x) a (Hinv x lx Hx)).
Qed.

(** A member function call that acts locally keeps the program's lists
    apart and well formed. *)
Lemma method_owned (x : nat) (c : List → M T List) w w' fp vals :
  owned w fp vals →
  (∀ l l' h', objs w !! x = Some l → c l (mem w) = Ok (l', h') →
     local_step (mem w) (fp x) l' h') →
  method x c w = Ok w' → ∃ fp' vals', owned w' fp' vals'.
Proof.
  intros Hown Hlocal Hrun. unfold method in Hrun.
  destruct (objs w !! x) as [l|] eqn:Hx; [|done].
  destruct (c l (mem w)) as [[l' h']| |] eqn:Hc; [|done..].
  injection Hrun as <-.
  destruct (Hlocal l l' h' eq_refl Hc) as (ns' & vs' & Hinv' & Hg & Hf).
  pose proof (lookup_lt_Some _ _ _ Hx) as Hlt.
  exists (λ z, if decide (z = x) then ns' else fp z),
         (λ z, if decide (z = x) then vs' else vals z).
  pose proof Hown as [Hinv Hdisj].
  assert (Hfresh : ∀ (z : nat) a, z ≠ x → is_Some (objs w !! z) →
                     a ∈ ns' → a ∉ fp z).
  { intros z a Hzx [lz Hz] Ha Hin.
    destruct (Hg a Ha) as [Hold|Hnone].
    - by eapply (Hdisj x z a); eauto.
    - destruct (inv_live _ _ _ _ _ (Hinv z lz Hz) Hin) as [n Hn]. congruence. }
  split; cbn [objs mem].
  - intros y ly Hy. case_decide as Hyx.
    + subst y. rewrite list_lookup_insert_eq in Hy by done. by injection Hy as <-.
    + rewrite list_lookup_insert_ne in Hy by done.
      by eapply (owned_other w fp vals x y).
  - intros y z a Hyz Hy Hz Ha.
    apply lookup_lt_is_Some in Hy, Hz. rewrite length_insert in Hy, Hz.
    apply lookup_lt_is_Some in Hy, Hz.
    repeat case_decide; subst.
    + done.
    + by apply Hfresh.
    + intros Hin. by eapply (Hfresh y a).
    + by eapply Hdisj.
Qed.

(** A constructor call that builds its list out of new nodes. *)
Lemma construct_owned (c : M T List) w w' fp vals :
  owned w fp vals →
  (∀ l' h', c (mem w) = Ok (l', h') → local_step (mem w) [] l' h') →
  construct c w = Ok w' → ∃ fp' vals', owned w' fp' vals'.
Proof.
  intros Hown Hlocal Hrun. unfold construct in Hrun.
  destruct (c (mem w)) as [[l' h']| |] eqn:Hc; [|done..].
  injection Hrun as <-.
  destruct (Hlocal l' h' eq_refl) as (ns' & vs' & Hinv' & Hg & Hf).
  set (n := length (objs w)).
  exists (λ z, if decide (z = n) then ns' else fp z),
         (λ z, if decide (z = n) then vs' else vals z).
  pose proof Hown as [Hinv Hdisj].
  assert (Hold : ∀ (z : nat), z ≠ n → is_Some ((objs w ++ [l']) !! z) →
                   is_Some (objs w !! z)).
  { intros z Hzn Hz%lookup_lt_is_Some. rewrite length_app in Hz. simpl in Hz.
    apply lookup_lt_is_Some. fold n. lia. }
  assert (Hfresh : ∀ (z : nat) a, is_Some (objs w !! z) → a ∈ ns' → a ∉ fp z).
  { intros z a [lz Hz] Ha Hin.
    destruct (Hg a Ha) as [?%elem_of_nil|Hnone]; [done|].
    destruct (inv_live _ _ _ _ _ (Hinv z lz Hz) Hin) as [m Hm]. congruence. }
  split; cbn [objs mem].
  - intros y ly Hy. case_decide as Hyn.
    + subst y. unfold n in Hy. rewrite list_lookup_middle in Hy by done.
      by injection Hy as <-.
    + destruct (Hold y Hyn (mk_is_Some _ _ Hy)) as [ly' Hy'].
      rewrite (lookup_app_l_Some _ _ _ _ Hy') in Hy. injection Hy as <-.
      apply (inv_frame (mem w) h' ly' (fp y) [] (vals y)); [by apply Hinv|done| |].
      * by intros a _ ?%elem_of_nil.
      * by intros a ?%elem_of_nil.
  - intros y z a Hyz Hy Hz Ha.
    repeat case_decide; subst.
    + done.
    + apply Hfresh; [by apply Hold|done].
    + intros Hin. eapply (Hfresh y a); [by apply Hold|done..].
    + eapply Hdisj; [done|by apply Hold..|done].
Qed.
End World.

Section Growth.
Context {T : Type} `{!ValueInit T} `{!Allocator T}.
Implicit Types (h : heap T) (ns : list loc) (vs : list T) (l : List).

Lemma grows_size h h' : grows h h' → (base.size h ≤ base.size h')%nat.
Proof.
  intros Hg. rewrite <- !size_dom. apply subseteq_size.
  intros a Ha%elem_of_dom. by apply elem_of_dom, Hg.
Qed.

Lemma push_back_grows h l v l' h' :
  push_back v l h = Ok (l', h') → grows h h'.
Proof.
  intros Hrun a Ha.
  unfold push_back, set_data, set_next, new, assign, deref,
    bind, ret in Hrun.
  repeat case_match; simplify_eq;
    rewrite ?lookup_insert_is_Some'; eauto 10.
Qed.
End Growth.

Section Calls.
Context {T : Type} `{!ValueInit T} `{!Allocator T}.
Implicit Types (h : heap T) (ns : list loc) (vs : list T) (l : List).
Implicit Types (w : world T) (fp : nat → list loc) (vals : nat → list T).

Lemma push_back_all_grows vs : ∀ h l l' h',
  push_back_all vs l h = Ok (l', h') → grows h h'.
Proof.
  induction vs as [|v vs IH]; intros h l l' h' Hrun.
  - injection Hrun as <- <-. by intros a ?.
  - cbn [push_back_all] in Hrun. unfold bind at 1 in Hrun.
    destruct (push_back v l h) as [[l1 h1]| |] eqn:Hpush; [|done..].
    intros a Ha. eapply IH; [done|]. by eapply push_back_grows.
Qed.

(** The initializer-list constructor, whenever it returns into a heap
    that fits the address space. *)
Lemma push_back_all_ok vs : ∀ h l ns ws l' h',
  rep h l ns ws → push_back_all vs l h = Ok (l', h') →
  Z.of_nat (base.size h') < two64 →
  ∃ ns', rep h' l' ns' (ws ++ vs) ∧ grown ns ns' h ∧ frame ns h h'.
Proof.
  induction vs as [|v vs IH]; intros h l ns ws l' h' Hrep Hrun Hfits.
  - injection Hrun as <- <-. exists ns. rewrite app_nil_r.
    split_and!; [done | apply grown_refl | apply frame_refl].
  - pose proof (grows_size _ _ (push_back_all_grows _ _ _ _ _ Hrun)) as Hsize.
    cbn [push_back_all] in Hrun. unfold bind at 1 in Hrun.
    destruct (push_back v l h) as [[l1 h1]| |] eqn:Hpush; [|done..].
    pose proof (rep_inv _ _ _ _ Hrep) as Hinv.
    assert (length ns ≤ base.size h)%nat as Hcells.
    { apply footprint_le_size; [by eapply inv_NoDup|].
      intros a Ha. destruct (inv_live _ _ _ _ _ Hinv Ha) as [n Hn]. eauto. }
    assert (Z.of_nat (length ws) + 1 < two64) as Hroom.
    { apply (inv_room h l ns ws Hinv). lia. }
    destruct (push_back_rep h l ns ws v Hrep Hroom)
      as (l1' & h1' & ns1 & Hrun1 & Hrep1 & Hg1 & Hf1).
    rewrite Hpush in Hrun1. injection Hrun1 as <- <-.
    destruct (IH h1 l1 ns1 (ws ++ [v]) l' h' Hrep1 Hrun Hfits)
      as (ns' & Hrep' & Hg' & Hf').
    exists ns'. rewrite <- app_assoc in Hrep'.
    split_and!; [done | by eapply grown_trans | by eapply frame_trans].
Qed.

(** Every call that returns keeps the lists of the program well formed
    and apart from each other. *)
Lemma exec_owned (fuel : nat) (c : call T) w w' fp vals :
  owned w fp vals → fits w → fits w' → exec fuel c w = Ok w' →
  ∃ fp' vals', owned w' fp' vals'.
Proof.
  intros Hown Hfits Hfits' Hrun. pose proof Hown as [Hinv Hdisj].
  destruct c as [|y i z j|vs|y|y|x v|x v|x k|x|x y|x y]; cbn [exec] in Hrun.
  - (* List a; *)
    eapply construct_owned; [done| |done].
    intros l' h' [= <- <-]. exists [], [].
    split_and!; [by left | by intros a ?%elem_of_nil | apply frame_refl].
  - (* List a(first, last); *)
    destruct (objs w !! y) as [ly|] eqn:Hy; [|done].
    destruct (objs w !! z) as [lz|] eqn:Hz; [|done].
    eapply construct_owned; [done| |done].
    intros l' h' Hc.
    destruct (inv_chain _ _ _ _ (Hinv y ly Hy)) as [Hdlly Hhdy].
    destruct (inv_chain _ _ _ _ (Hinv z lz Hz)) as [Hdllz Hhdz].
    unfold begin in Hc. rewrite Hhdy, Hhdz in Hc.
    unfold bind at 1 in Hc.
    rewrite (advance_chain _ _ _ i 0%nat Hdlly) in Hc by lia.
    case_decide as Hi; [|done]. simpl in Hi, Hc.
    unfold bind at 1 in Hc.
    rewrite (advance_chain _ _ _ j 0%nat Hdllz) in Hc by lia.
    case_decide as Hj; [|done]. simpl in Hc.
    destruct (List_range_ok _ _ _ _ _ _ _ _ _ (Hinv y ly Hy)
                (owned_room _ _ _ _ _ Hown Hfits Hy) Hi Hc)
      as (ns' & vs' & Hrep & Hg & Hf).
    exists ns', vs'. split_and!; [by apply rep_inv | done..].
  - (* List a{...}; *)
    eapply construct_owned; [done| |done].
    intros l' h' Hc. unfold construct in Hrun. rewrite Hc in Hrun.
    injection Hrun as <-. unfold fits in Hfits'. cbn [mem] in Hfits'.
    destruct (push_back_all_ok vs (mem w) List_default [] [] l' h')
      as (ns' & Hrep & Hg & Hf); [by left | done | done |].
    exists ns', vs. split_and!; [by apply rep_inv | done..].
  - (* List a(y); *)
    destruct (objs w !! y) as [ly|] eqn:Hy; [|done].
    eapply construct_owned; [done| |done].
    intros l' h' Hc.
    destruct (List_copy_ok _ _ _ _ _ _ _ (Hinv y ly Hy)
                (owned_room _ _ _ _ _ Hown Hfits Hy) Hc)
      as (ns' & vs' & Hrep & Hg & Hf).
    exists ns', vs'. split_and!; [by apply rep_inv | done..].
  - (* List a(std::move(y)); *)
    destruct (objs w !! y) as [ly|] eqn:Hy; [|done].
    rewrite List_move_eq in Hrun. injection Hrun as <-.
    pose proof (lookup_lt_Some _ _ _ Hy) as Hlt.
    set (n := length (objs w)).
    exists (λ u, if decide (u = n) then fp y
                 else if decide (u = y) then [] else fp u),
           (λ u, if decide (u = n) then vals y
                 else if decide (u = y) then [] else vals u).
    assert (Hold : ∀ (u : nat), u ≠ n →
              is_Some ((<[y := List_default]> (objs w) ++ [ly]) !! u) →
              is_Some (objs w !! u)).
    { intros u Hun Hu%lookup_lt_is_Some.
      rewrite length_app, length_insert in Hu. simpl in Hu.
      apply lookup_lt_is_Some. fold n. lia. }
    split; cbn [objs mem].
    + intros u lu Hu. case_decide as Hun.
      * subst u. unfold n in Hu.
        rewrite <- (length_insert (objs w) y List_default) in Hu.
        rewrite list_lookup_middle in Hu by done. injection Hu as <-.
        by apply Hinv.
      * destruct (Hold u Hun (mk_is_Some _ _ Hu)) as [lu' Hu'].
        rewrite lookup_app_l in Hu
          by (rewrite length_insert; by eapply lookup_lt_Some).
        case_decide as Huy.
        -- subst u. rewrite list_lookup_insert_eq in Hu by done.
           injection Hu as <-. by left.
        -- rewrite list_lookup_insert_ne in Hu by done. by apply Hinv.
    + intros u u' a Hne Hu Hu' Ha.
      repeat case_decide; subst; try done;
        try (by intros ?%elem_of_nil); try (by apply elem_of_nil in Ha).
      * eapply Hdisj; [|eauto|by apply Hold|done]. done.
      * intros Hin. eapply (Hdisj u y a); [done|by apply Hold|eauto|done..].
      * eapply Hdisj; [done|by apply Hold..|done].
  - (* x.push_back(v); *)
    eapply method_owned; [done| |done].
    intros l l' h' Hx Hc.
    by eapply push_back_ok; [apply Hinv|eapply owned_room|].
  - (* x.push_front(v); *)
    eapply method_owned; [done| |done].
    intros l l' h' Hx Hc.
    by eapply push_front_ok; [apply Hinv|eapply owned_room|].
  - (* x.erase(pos); *)
    eapply method_owned; [done| |done].
    intros l l' h' Hx Hc. cbv beta in Hc.
    exact (erase_ok _ _ _ (vals x) k fuel _ _ (Hinv x l Hx) Hc).
  - (* x.clear(); *)
    eapply method_owned; [done| |done].
    intros l l' h' Hx Hc.
    exact (clear_local _ _ _ (vals x) fuel _ _ (Hinv x l Hx) Hc).
  - (* x = y; *)
    destruct (objs w !! x) as [lx|] eqn:Hx; [|done].
    destruct (objs w !! y) as [ly|] eqn:Hy; [|done].
    case_decide as Hxy; [injection Hrun as <-; eauto|].
    eapply method_owned; [done| |done].
    intros l l' h' Hx' Hc.
    cbv beta in Hc.
    exact (copy_assign_ok _ _ _ (vals x) _ _ (vals y) fuel _ _
             (Hinv x l Hx') (Hinv y ly Hy)
             (owned_room _ _ _ _ _ Hown Hfits Hy) Hc).
  - (* x = std::move(y); *)
    destruct (objs w !! x) as [lx|] eqn:Hx; [|done].
    destruct (objs w !! y) as [ly|] eqn:Hy; [|done].
    case_decide as Hxy; [injection Hrun as <-; eauto|].
    unfold move_assign in Hrun. rewrite swap_members_eq in Hrun.
    injection Hrun as <-.
    pose proof (lookup_lt_Some _ _ _ Hx) as Hltx.
    pose proof (lookup_lt_Some _ _ _ Hy) as Hlty.
    exists (λ u, if decide (u = x) then fp y
                 else if decide (u = y) then fp x else fp u),
           (λ u, if decide (u = x) then vals y
                 else if decide (u = y) then vals x else vals u).
    assert (Hold : ∀ (u : nat),
              is_Some (<[y := lx]> (<[x := ly]> (objs w)) !! u) →
              is_Some (objs w !! u)).
    { intros u Hu%lookup_lt_is_Some. rewrite !length_insert in Hu.
      by apply lookup_lt_is_Some. }
    split; cbn [objs mem].
    + intros u lu Hu. case_decide as Hux.
      * subst u. rewrite list_lookup_insert_ne in Hu by done.
        rewrite list_lookup_insert_eq in Hu by done. injection Hu as <-.
        by apply Hinv.
      * case_decide as Huy.
        -- subst u. rewrite list_lookup_insert_eq in Hu
             by (by rewrite length_insert).
           injection Hu as <-. by apply Hinv.
        -- rewrite !list_lookup_insert_ne in Hu by done. by apply Hinv.
    + intros u u' a Hne Hu%Hold Hu'%Hold Ha.
      repeat case_decide; subst; try done;
        (eapply Hdisj; [| | |exact Ha]; first [congruence | eauto]).
Qed.
End Calls.

Section Reachable.
Context {T : Type} `{!ValueInit T} `{!Allocator T}.
Implicit Types (w : world T) (l : List).

Lemma reachable_owned w :
  reachable w → fits w ∧ ∃ fp vals, owned w fp vals.
Proof.
  induction 1 as [|w fuel c w' _ [Hfits (fp & vals & Hown)] Hrun Hfits'].
  - split.
    + unfold fits. cbn [mem]. rewrite map_size_empty. reflexivity.
    + exists (λ _, []), (λ _, []). split.
      * by intros x l [=].
      * by intros x y a _ [l [=]].
  - split; [done|]. by eapply exec_owned.
Qed.
End Reachable.

(** * The claims *)

Section ClearExact.
Context {T : Type} `{!ValueInit T} `{!Allocator T}.
Implicit Types (h : heap T) (ns : list loc) (xs vs : list T) (l : List).

(** The loop of [clear] allocates nothing. *)
Lemma clear_loop_allocates_nothing (fuel : nat) : ∀ p h r h',
  clear_loop fuel p h = Ok (r, h') → ∀ b, h !! b = None → h' !! b = None.
Proof.
  induction fuel as [|fuel IH]; intros [a|] h r h' Hrun b Hb;
    cbn [clear_loop] in Hrun; try done;
    try (by injection Hrun as <- <-).
  unfold bind, deref, delete_node in Hrun.
  destruct (h !! a) as [[n|]|] eqn:Ha; try done.
  rewrite Ha in Hrun. apply (IH _ _ _ _ Hrun).
  rewrite lookup_insert_ne; [done|]. congruence.
Qed.

Lemma inv_length_le h l ns vs : inv h l ns vs → (length ns ≤ S (length vs))%nat.
Proof.
  intros [(_ & -> & _)|[Hshape _]]; [simpl; lia|].
  rewrite (shape_length _ _ _ _ Hshape). lia.
Qed.

(** [clear] with the cells it changes. *)
Lemma clear_exact h l ns vs (fuel : nat) :
  inv h l ns vs → (length ns ≤ fuel)%nat →
  ∃ h',
    clear fuel l h = Ok (List_default, h') ∧
    (∀ a, a ∈ ns → h' !! a = Some Freed) ∧ same_outside ns h h'.
Proof.
  intros Hinv Hfuel.
  destruct (clear_inv h l ns vs fuel Hinv (inv_NoDup _ _ _ _ Hinv) Hfuel)
    as (h' & Hrun & Hfr & Hfreed).
  exists h'. split_and!; [done..|].
  intros b Hb. destruct (h !! b) as [c|] eqn:Hc; [by apply Hfr|].
  unfold clear, bind in Hrun.
  destruct (clear_loop fuel (head_ l) h) as [[r h1]| |] eqn:Hloop; [|done..].
  injection Hrun as <-.
  by apply (clear_loop_allocates_nothing _ _ _ _ _ Hloop).
Qed.
End ClearExact.

Section Claims.
Context {T : Type} `{!ValueInit T} `{!Allocator T}.
Implicit Types (h : heap T) (ns : list loc) (vs : list T) (l : List).

(** C5: [push_back(v1); ...; push_back(vn)] on an empty list gives a list
    whose forward iteration from [begin()] to [end()] visits [v1 .. vn] in
    this order, and whose [size()] is [n] (for every [n] that a 64-bit
    [size_type] can hold). *)
Theorem push_back_sequence (vs : list T) (h0 : heap T) :
  Z.of_nat (length vs) < two64 →
  ∃ l h,
    push_back_all vs List_default h0 = Ok (l, h) ∧
    (∀ fuel : nat, (length vs ≤ fuel)%nat → to_list fuel l h = Ok (vs, h)) ∧
    size l = Z.of_nat (length vs).
Proof.
  intros Hbound.
  destruct (push_back_all_rep vs h0 List_default [] [])
    as (l & h & ns & Hrun & Hrep & _); [by left | done |].
  exists l, h. split_and!; [done| |].
  - intros fuel Hfuel. by eapply to_list_rep.
  - by eapply rep_size, rep_inv.
Qed.

(** C6: [push_front(v1); ...; push_front(vn)] on an empty list gives a
    list whose forward iteration visits [vn .. v1], and whose [size()] is
    [n]. *)
Theorem push_front_sequence (vs : list T) (h0 : heap T) :
  Z.of_nat (length vs) < two64 →
  ∃ l h,
    push_front_all vs List_default h0 = Ok (l, h) ∧
    (∀ fuel : nat, (length vs ≤ fuel)%nat →
       to_list fuel l h = Ok (rev vs, h)) ∧
    size l = Z.of_nat (length vs).
Proof.
  intros Hbound.
  destruct (push_front_all_rep vs h0 List_default [] [])
    as (l & h & ns & Hrun & Hrep & _); [by left | done |].
  rewrite app_nil_r in Hrep.
  exists l, h. split_and!; [done| |].
  - intros fuel Hfuel. eapply to_list_rep; [done|]. by rewrite length_rev.
  - rewrite (rep_size _ _ _ _ (rep_inv _ _ _ _ Hrep)). by rewrite length_rev.
Qed.

(** C3 (the code departs from it): in a well-formed list of two or more
    elements, [erase(begin())] does not remove the first element: the
    first node has no predecessor and [node->prev_->next_] is a write
    through a null pointer. *)
Theorem erase_first_node_faults h l ns vs (fuel : nat) :
  rep h l ns vs → (2 ≤ length vs)%nat →
  erase fuel (begin l) l h = Fault.
Proof.
  intros [(-> & _)|[Hshape _]] Hlen; [simpl in Hlen; lia|].
  pose proof (shape_length _ _ _ _ Hshape) as Hns.
  destruct Hshape as (_ & _ & Hdll & Hhd & Hsz & _).
  destruct (lookup_lt_is_Some_2 ns 0%nat) as [p Hp]; [lia|].
  destruct (lookup_lt_is_Some_2 vs 0%nat) as [x Hx]; [lia|].
  pose proof (dll_lookup _ _ _ _ _ _ Hdll Hp
                (lookup_app_l_Some _ _ _ _ Hx)) as Hcell.
  unfold begin. rewrite Hhd, Hp.
  eapply erase_no_prev; [|exact Hcell]. unfold size. lia.
Qed.

(** C7: on a list with exactly one element, [erase] of that element
    leaves the list empty with [size() == 0] and returns an iterator on
    the now-null [head_], which is what [end()] of the emptied list
    returns. *)
Theorem erase_only_element h l ns (v : T) (fuel : nat) :
  inv h l ns [v] → (2 ≤ fuel)%nat →
  ∃ it l' h',
    erase fuel (begin l) l h = Ok (it, l', h') ∧
    empty l' = true ∧ size l' = 0 ∧
    it = mkIterator (head_ l') ∧ node_ it = None ∧
    end_ l' h' = Ok (it, h') ∧
    ∀ a, a ∈ ns → h' !! a = Some Freed.
Proof.
  intros Hinv Hfuel.
  pose proof (rep_size _ _ _ _ Hinv) as Hsz. simpl in Hsz.
  assert (length ns = 2%nat) as Hlen.
  { destruct Hinv as [(? & _)|[Hshape _]]; [done|].
    by rewrite (shape_length _ _ _ _ Hshape). }
  destruct (clear_inv h l ns [v] fuel Hinv (inv_NoDup _ _ _ _ Hinv))
    as (h' & Hrun & _ & Hfreed); [lia|].
  exists (mkIterator None), List_default, h'. split_and!; try done.
  unfold erase. rewrite bool_decide_eq_true_2 by done.
  by rewrite (bind_ok _ _ _ _ _ Hrun).
Qed.

(** C9: when [size() == 1], [erase] does not look at its argument.  For
    any two positions the outcome is the same; whenever the call returns,
    the iterator is null and the list is the empty list; and on a
    one-element list it does return, for every position whatsoever, having
    cleared the list: its two nodes, the element and the sentinel, are
    deleted, and nothing else in the heap has changed. *)
Theorem erase_size_one_ignores_position h l (fuel : nat) :
  size l = 1 →
  (∀ pos pos', erase fuel pos l h = erase fuel pos' l h) ∧
  (∀ pos it l' h', erase fuel pos l h = Ok (it, l', h') →
     it = mkIterator None ∧ l' = List_default) ∧
  (∀ ns vs, inv h l ns vs → (2 ≤ fuel)%nat →
     ∃ h',
       (∀ pos, erase fuel pos l h = Ok (mkIterator None, List_default, h')) ∧
       length ns = 2%nat ∧
       (∀ a, a ∈ ns → ∃ n, h !! a = Some (Live n)) ∧
       (∀ a, a ∈ ns → h' !! a = Some Freed) ∧
       same_outside ns h h').
Proof.
  intros Hsz. split_and!.
  - intros pos pos'. unfold erase. by rewrite bool_decide_eq_true_2.
  - intros pos it l' h'. unfold erase, clear.
    rewrite bool_decide_eq_true_2 by done. rewrite !bind_assoc.
    unfold bind at 1. destruct (clear_loop fuel (head_ l) h) as [[r h1]| |];
      [|done..].
    rewrite !bind_ret. unfold ret. cbn [head_]. by intros [= <- <- <-].
  - intros ns vs Hinv Hfuel.
    pose proof (rep_size _ _ _ _ Hinv) as Hlen. rewrite Hsz in Hlen.
    assert (length ns = 2%nat) as Hns.
    { destruct Hinv as [(-> & _)|[Hshape _]]; [done|].
      rewrite (shape_length _ _ _ _ Hshape). lia. }
    destruct (clear_exact h l ns vs fuel Hinv) as (h' & Hrun & Hfreed & Hsame);
      [lia|].
    exists h'. split_and!; [|done| |done..].
    + intros pos. unfold erase. rewrite bool_decide_eq_true_2 by done.
      by rewrite (bind_ok _ _ _ _ _ Hrun).
    + intros a Ha. by eapply inv_live.
Qed.

(** On a list whose [tail_] is the last real node, constructing a list
    from [(other.begin(), other.end())] gives a list with the values of
    [other], in the same order and with the same [size()], in nodes of its
    own; [other] and its nodes are unchanged. *)
Lemma range_constructor_roundtrip h other ns vs (fuel : nat) :
  rep h other ns vs → (length vs ≤ fuel)%nat →
  ∃ last l' h' ns',
    end_ other h = Ok (last, h) ∧
    List_range fuel (begin other) last h = Ok (l', h') ∧
    rep h' l' ns' vs ∧ to_list fuel l' h' = Ok (vs, h') ∧
    size l' = size other ∧
    rep h' other ns vs ∧ to_list fuel other h' = Ok (vs, h') ∧
    (∀ a, a ∈ ns → (a ∉ ns') ∧ (h' !! a = h !! a)).
Proof.
  intros Hrep Hfuel.
  destruct (List_copy_rep h other ns vs fuel Hrep Hfuel)
    as (l' & h' & ns' & Hrun & Hrep' & Hg & Hfr).
  unfold List_copy in Hrun.
  rewrite (bind_ok _ _ _ _ _ (end_rep _ _ _ _ Hrep)) in Hrun.
  assert (Hother : rep h' other ns vs).
  { eapply rep_frame; [done..|]. by intros a _ ?%elem_of_nil. }
  exists (mkIterator (ns !! length vs)), l', h', ns'. split_and!; try done.
  - by apply end_rep.
  - by eapply to_list_rep.
  - rewrite (rep_size _ _ _ _ (rep_inv _ _ _ _ Hrep')).
    by rewrite (rep_size _ _ _ _ (rep_inv _ _ _ _ Hrep)).
  - by eapply to_list_rep.
  - intros a Ha.
    destruct (inv_live _ _ _ _ _ (rep_inv _ _ _ _ Hrep) Ha) as [n Hn].
    split.
    + intros Hin. destruct (Hg a Hin) as [?%elem_of_nil|?]; [done|congruence].
    + rewrite Hn. apply Hfr; [done|]. by intros ?%elem_of_nil.
Qed.
End Claims.

Section ProgramClaims.
Context {T : Type} `{!ValueInit T} `{!Allocator T}.
Implicit Types (w : world T) (l : List).

(** C10: in every state a program reaches through calls that return
    (constructors of every form, [push_back], [push_front], [erase],
    [clear], copy and move assignment), each list has [empty()] true
    exactly when [size()] is 0. *)
Theorem empty_iff_size_zero w (x : nat) l :
  reachable w → objs w !! x = Some l →
  (empty l = true ↔ size l = 0).
Proof.
  intros (_ & fp & vals & [Hinv _])%reachable_owned Hx.
  specialize (Hinv x l Hx).
  rewrite (rep_empty _ _ _ _ Hinv), (rep_size _ _ _ _ Hinv).
  destruct (vals x); simpl; [done|]. split; [done|lia].
Qed.

(** C4, as the code has it: move construction, in any program, leaves
    the source empty and gives the new list the members of the source, and
    with them its nodes, its values and its size; move assignment from it
    to any other list of the program exchanges the two, so the destination
    gets the values and the size of the source, and the source is empty
    exactly when the destination was. *)
Theorem move_transfers_or_exchanges w (y : nat) ly nsy (vsy : list T)
    (fuel : nat) :
  objs w !! y = Some ly → inv (mem w) ly nsy vsy →
  (∃ w' l' ly',
     exec fuel (NewMove y) w = Ok w' ∧ mem w' = mem w ∧
     objs w' !! length (objs w) = Some l' ∧ objs w' !! y = Some ly' ∧
     l' = ly ∧ inv (mem w') l' nsy vsy ∧ size l' = Z.of_nat (length vsy) ∧
     empty ly' = true ∧ size ly' = 0) ∧
  (∀ (x : nat) lx nsx (vsx : list T),
     x ≠ y → objs w !! x = Some lx → inv (mem w) lx nsx vsx →
     ∃ w' lx' ly',
       exec fuel (MoveAssign x y) w = Ok w' ∧ mem w' = mem w ∧
       objs w' !! x = Some lx' ∧ objs w' !! y = Some ly' ∧
       lx' = ly ∧ inv (mem w') lx' nsy vsy ∧
       size lx' = Z.of_nat (length vsy) ∧
       ly' = lx ∧ inv (mem w') ly' nsx vsx ∧
       (empty ly' = true ↔ vsx = [])).
Proof.
  intros Hy Hinvy.
  pose proof (lookup_lt_Some _ _ _ Hy) as Hlty.
  split.
  - exists (mkWorld (mem w) (<[y := List_default]> (objs w) ++ [ly])),
           ly, List_default.
    cbn [exec mem objs]. rewrite Hy, List_move_eq. split_and!; try done.
    + rewrite <- (length_insert (objs w) y List_default).
      by apply list_lookup_middle.
    + rewrite lookup_app_l by (by rewrite length_insert).
      by apply list_lookup_insert_eq.
    + by eapply rep_size.
  - intros x lx nsx vsx Hxy Hx Hinvx.
    pose proof (lookup_lt_Some _ _ _ Hx) as Hltx.
    exists (mkWorld (mem w) (<[y := lx]> (<[x := ly]> (objs w)))), ly, lx.
    cbn [exec mem objs]. rewrite Hx, Hy. rewrite decide_False by done.
    unfold move_assign. rewrite swap_members_eq. split_and!; try done.
    + rewrite list_lookup_insert_ne by done. by apply list_lookup_insert_eq.
    + apply list_lookup_insert_eq. by rewrite length_insert.
    + by eapply rep_size.
    + by eapply rep_empty.
Qed.
End ProgramClaims.


(** * Further properties of the code *)

Section Access.
Context {T : Type} `{!ValueInit T} `{!Allocator T}.
Implicit Types (h : heap T) (ns : list loc) (xs vs : list T) (l : List).

(** A chain, and a list, only depend on their own cells. *)
Lemma dll_agree_on h h' ns xs :
  dll h ns xs → (∀ a, a ∈ ns → h' !! a = h !! a) → dll h' ns xs.
Proof.
  intros [Hlen H] Hagree. split; [done|]. intros i a x Hi Hx.
  rewrite Hagree; [eauto | by eapply list_elem_of_lookup_2].
Qed.

Lemma rep_agree_on h h' l ns vs :
  rep h l ns vs → (∀ a, a ∈ ns → h' !! a = h !! a) → rep h' l ns vs.
Proof.
  intros [?|[(? & ? & Hdll & ?) ?]] Hagree; [by left|right].
  split; [|done]. split; [done|]. split; [done|].
  split; [by eapply dll_agree_on | done].
Qed.

(** The cell of the real node at index [i]. *)
Lemma inv_lookup h l ns vs (i : nat) a x :
  inv h l ns vs → ns !! i = Some a → vs !! i = Some x →
  h !! a = Some (Live (mkNode (ns !! S i) (prev_at ns i) x)).
Proof.
  intros [(_ & -> & _)|[(_ & _ & Hdll & _) _]] Ha Hx; [done|].
  eapply dll_lookup; [done..|]. by apply lookup_app_l_Some.
Qed.

(** The cell of the sentinel. *)
Lemma inv_sentinel h l ns vs s :
  inv h l ns vs → ns !! length vs = Some s →
  h !! s = Some (Live (mkNode None (prev_at ns (length vs)) value_init)).
Proof.
  intros [(_ & -> & _)|[Hshape _]] Hs; [done|].
  pose proof (shape_length _ _ _ _ Hshape) as Hlen.
  destruct Hshape as (_ & _ & Hdll & _).
  rewrite (dll_lookup _ _ _ _ _ _ Hdll Hs (list_lookup_middle _ _ _ _ eq_refl)).
  by rewrite (lookup_ge_None_2 ns (S (length vs))) by lia.
Qed.

Lemma rep_tail h l ns vs :
  rep h l ns vs → tail_ l = ns !! (length vs - 1)%nat ∨ vs = [].
Proof.
  intros [(-> & _)|[Hshape Htl]]; [by right|left].
  unfold tail_good in Htl. rewrite Htl, (shape_length _ _ _ _ Hshape).
  f_equal; lia.
Qed.

(** X1: on a well-formed list [front()] returns the first value and
    [back()] the last one; on an empty list both dereference a null
    pointer. *)
Theorem front_back_values h l ns vs :
  rep h l ns vs →
  front l h = match head vs with Some x => Ok (x, h) | None => Fault end ∧
  back l h = match last vs with Some x => Ok (x, h) | None => Fault end.
Proof.
  intros Hrep. pose proof (rep_inv _ _ _ _ Hrep) as Hinv.
  destruct (inv_chain _ _ _ _ Hinv) as [_ Hhd].
  destruct vs as [|x0 vs0] eqn:Hvs.
  { destruct Hrep as [(_ & _ & ->)|[(? & _) _]]; done. }
  rewrite <- Hvs in *.
  assert (length ns = S (length vs)) as Hlen.
  { destruct Hinv as [(? & _)|[Hshape _]]; [congruence|].
    by apply shape_length in Hshape. }
  assert (0 < length vs)%nat as Hpos by (subst vs; simpl; lia).
  split.
  - destruct (lookup_lt_is_Some_2 ns 0%nat) as [p Hp]; [lia|].
    assert (vs !! 0%nat = Some x0) as Hx by (by subst vs).
    unfold front. rewrite Hhd, Hp.
    rewrite (bind_deref _ _ _ _ (inv_lookup _ _ _ _ _ _ _ Hinv Hp Hx)).
    by subst vs.
  - destruct (rep_tail _ _ _ _ Hrep) as [Htl|?]; [|congruence].
    destruct (lookup_lt_is_Some_2 ns (length vs - 1)%nat) as [t Ht]; [lia|].
    destruct (lookup_lt_is_Some_2 vs (length vs - 1)%nat) as [y Hy]; [lia|].
    unfold back. rewrite Htl, Ht.
    rewrite (bind_deref _ _ _ _ (inv_lookup _ _ _ _ _ _ _ Hinv Ht Hy)).
    rewrite last_lookup.
    replace (Init.Nat.pred (length vs)) with (length vs - 1)%nat by lia.
    by rewrite Hy.
Qed.

(** X2: on a non-empty well-formed list, [size()] increments from
    [begin()] give [end()], one more increment gives a null iterator without
    any fault, and every further increment dereferences that null
    iterator. *)
Theorem increments_past_the_end h l ns vs :
  rep h l ns vs → vs ≠ [] →
  advance (length vs) (begin l) h = end_ l h ∧
  advance (S (length vs)) (begin l) h = Ok (mkIterator None, h) ∧
  ∀ k : nat, (S (length vs) < k)%nat → advance k (begin l) h = Fault.
Proof.
  intros Hrep Hvs. pose proof (rep_inv _ _ _ _ Hrep) as Hinv.
  destruct (inv_chain _ _ _ _ Hinv) as [Hdll Hhd].
  assert (length ns = S (length vs)) as Hlen.
  { destruct Hinv as [(? & _)|[Hshape _]]; [done|].
    by apply shape_length in Hshape. }
  unfold begin. rewrite Hhd. split_and!.
  - rewrite (advance_chain _ _ _ _ 0%nat Hdll) by lia.
    rewrite decide_True by lia. by rewrite (end_rep _ _ _ _ Hrep).
  - rewrite (advance_chain _ _ _ _ 0%nat Hdll) by lia.
    rewrite decide_True by lia. simpl. by rewrite lookup_ge_None_2 by lia.
  - intros k Hk. rewrite (advance_chain _ _ _ _ 0%nat Hdll) by lia.
    by rewrite decide_False by lia.
Qed.
End Access.

Section Bidirectional.
Context {T : Type} `{!ValueInit T} `{!Allocator T}.
Implicit Types (h : heap T) (ns : list loc) (xs vs : list T) (l : List).

(** Two consecutive nodes of a chain, seen through [++] and [--]. *)
Lemma chain_step h ns xs (i : nat) a b :
  dll h ns xs → ns !! i = Some a → ns !! S i = Some b →
  iter_incr (mkIterator (Some a)) h = Ok (mkIterator (Some b), h) ∧
  iter_decr (mkIterator (Some b)) h = Ok (mkIterator (Some a), h).
Proof.
  intros Hdll Ha Hb.
  destruct (lookup_lt_is_Some_2 xs i) as [x Hx].
  { rewrite <- (dll_length _ _ _ Hdll). by eapply lookup_lt_Some. }
  destruct (lookup_lt_is_Some_2 xs (S i)) as [y Hy].
  { rewrite <- (dll_length _ _ _ Hdll). by eapply lookup_lt_Some. }
  pose proof (dll_lookup _ _ _ _ _ _ Hdll Ha Hx) as Hca.
  pose proof (dll_lookup _ _ _ _ _ _ Hdll Hb Hy) as Hcb.
  cbn [prev_at] in Hcb. rewrite Ha in Hcb. rewrite Hb in Hca.
  unfold iter_incr, iter_decr. cbn [node_].
  by rewrite (bind_deref _ _ _ _ Hca), (bind_deref _ _ _ _ Hcb).
Qed.

Lemma rep_dll h l ns vs :
  rep h l ns vs → vs ≠ [] →
  dll h ns (vs ++ [value_init]) ∧ NoDup ns ∧ length ns = S (length vs) ∧
  head_ l = ns !! 0%nat ∧ tail_ l = ns !! (length vs - 1)%nat.
Proof.
  intros Hrep Hvs. destruct (rep_tail _ _ _ _ Hrep) as [Htl|?]; [|done].
  destruct Hrep as [(? & _)|[Hshape _]]; [done|].
  pose proof (shape_length _ _ _ _ Hshape).
  by destruct Hshape as (_ & ? & ? & ? & _).
Qed.

(** X3: in a non-empty well-formed list the two links agree.  From any
    real position [++] followed by [--] comes back to it, from any position
    but the first [--] followed by [++] comes back to it, [--begin()] is the
    null iterator, and [*--end()] is [back()]. *)
Theorem increment_and_decrement_invert h l ns vs :
  rep h l ns vs → vs ≠ [] →
  (∀ k : nat, (k < length vs)%nat →
     ∃ it, advance k (begin l) h = Ok (it, h) ∧
           (let* n := iter_incr it in iter_decr n) h = Ok (it, h)) ∧
  (∀ k : nat, (0 < k ≤ length vs)%nat →
     ∃ it, advance k (begin l) h = Ok (it, h) ∧
           (let* p := iter_decr it in iter_incr p) h = Ok (it, h)) ∧
  iter_decr (begin l) h = Ok (mkIterator None, h) ∧
  (let* e := end_ l in let* p := iter_decr e in iter_deref p) h = back l h.
Proof.
  intros Hrep Hvs.
  destruct (rep_dll _ _ _ _ Hrep Hvs) as (Hdll & Hnd & Hlen & Hhd & Htl).
  assert (Hadv : ∀ k : nat, (k ≤ length vs)%nat →
            advance k (begin l) h = Ok (mkIterator (ns !! k), h)).
  { intros k Hk. unfold begin. rewrite Hhd.
    rewrite (advance_chain _ _ _ _ 0%nat Hdll) by lia.
    by rewrite decide_True by lia. }
  assert (0 < length vs)%nat as Hpos by (destruct vs; simpl; [done|lia]).
  split_and!.
  - intros k Hk.
    destruct (lookup_lt_is_Some_2 ns k) as [a Ha]; [lia|].
    destruct (lookup_lt_is_Some_2 ns (S k)) as [b Hb]; [lia|].
    destruct (chain_step _ _ _ _ _ _ Hdll Ha Hb) as [Hinc Hdec].
    exists (mkIterator (Some a)). rewrite Hadv, Ha by lia. split; [done|].
    by rewrite (bind_ok _ _ _ _ _ Hinc).
  - intros [|k] Hk; [lia|].
    destruct (lookup_lt_is_Some_2 ns k) as [a Ha]; [lia|].
    destruct (lookup_lt_is_Some_2 ns (S k)) as [b Hb]; [lia|].
    destruct (chain_step _ _ _ _ _ _ Hdll Ha Hb) as [Hinc Hdec].
    exists (mkIterator (Some b)). rewrite Hadv, Hb by lia. split; [done|].
    by rewrite (bind_ok _ _ _ _ _ Hdec).
  - destruct (lookup_lt_is_Some_2 ns 0%nat) as [p Hp]; [lia|].
    destruct (lookup_lt_is_Some_2 vs 0%nat) as [x Hx]; [lia|].
    unfold begin, iter_decr. cbn [node_]. rewrite Hhd, Hp.
    by rewrite (bind_deref _ _ _ _
                  (inv_lookup _ _ _ _ _ _ _ (rep_inv _ _ _ _ Hrep) Hp Hx)).
  - destruct (lookup_lt_is_Some_2 ns (length vs - 1)%nat) as [t Ht]; [lia|].
    destruct (lookup_lt_is_Some_2 ns (length vs)) as [s Hs]; [lia|].
    destruct (lookup_lt_is_Some_2 vs (length vs - 1)%nat) as [y Hy]; [lia|].
    assert (ns !! S (length vs - 1) = Some s) as Hs'.
    { rewrite <- Hs. f_equal. lia. }
    destruct (chain_step _ _ _ _ _ _ Hdll Ht Hs') as [_ Hdec].
    pose proof (inv_lookup _ _ _ _ _ _ _ (rep_inv _ _ _ _ Hrep) Ht Hy) as Hct.
    rewrite (bind_ok _ _ _ _ _ (end_rep _ _ _ _ Hrep)), Hs.
    rewrite (bind_ok _ _ _ _ _ Hdec).
    unfold iter_deref, back. cbn [node_]. by rewrite Htl, Ht.
Qed.

(** The reverse walk from the node at index [k] down to the first node. *)
Lemma rwalk_chain h ns xs (k : nat) : ∀ fuel : nat,
  dll h ns xs → NoDup ns → (k < length ns)%nat → (k ≤ fuel)%nat →
  rwalk fuel (mkReverse (mkIterator (ns !! k)))
             (mkReverse (mkIterator (ns !! 0%nat))) h =
  Ok (rev (take k xs), h).
Proof.
  intros fuel Hdll Hnd. revert fuel.
  induction k as [|k IH]; intros fuel Hk Hfuel.
  - destruct fuel; simpl; unfold riter_eq, iter_eq;
      by rewrite bool_decide_eq_true_2.
  - destruct fuel as [|fuel]; [lia|].
    destruct (lookup_lt_is_Some_2 ns k) as [a Ha]; [lia|].
    destruct (lookup_lt_is_Some_2 ns (S k)) as [b Hb]; [lia|].
    destruct (lookup_lt_is_Some_2 ns 0%nat) as [p Hp]; [lia|].
    destruct (lookup_lt_is_Some_2 xs k) as [x Hx].
    { rewrite <- (dll_length _ _ _ Hdll). lia. }
    destruct (chain_step _ _ _ _ _ _ Hdll Ha Hb) as [_ Hdec].
    pose proof (dll_lookup _ _ _ _ _ _ Hdll Ha Hx) as Hca.
    cbn [rwalk]. unfold riter_eq, iter_eq. cbn [current node_].
    rewrite Hb, Hp. rewrite bool_decide_eq_false_2.
    2:{ intros [= ->]. pose proof (NoDup_lookup _ _ _ _ Hnd Hb Hp). lia. }
    unfold riter_deref, riter_incr. cbn [current].
    rewrite bind_assoc, (bind_ok _ _ _ _ _ Hdec).
    unfold iter_deref at 1. cbn [node_].
    rewrite bind_assoc, (bind_deref _ _ _ _ Hca), bind_ret. cbn [data_].
    rewrite bind_assoc, (bind_ok _ _ _ _ _ Hdec), bind_ret.
    rewrite <- Ha, <- Hp.
    rewrite (bind_ok _ _ _ _ _ (IH fuel ltac:(lia) ltac:(lia))).
    unfold ret. do 2 f_equal.
    rewrite (take_S_r _ _ _ Hx), rev_app_distr. done.
Qed.

(** X4: reverse iteration from [rbegin()] to [rend()] over a well-formed
    list visits its values in reverse order. *)
Theorem reverse_iteration h l ns vs (fuel : nat) :
  rep h l ns vs → (length vs ≤ fuel)%nat →
  to_list_reverse fuel l h = Ok (rev vs, h).
Proof.
  intros Hrep Hfuel. destruct (decide (vs = [])) as [->|Hvs].
  - destruct Hrep as [(_ & _ & ->)|[(? & _) _]]; [|done].
    unfold to_list_reverse, rbegin. cbn [end_ tail_ List_default].
    rewrite bind_assoc, !bind_ret. by destruct fuel.
  - destruct (rep_dll _ _ _ _ Hrep Hvs) as (Hdll & Hnd & Hlen & Hhd & Htl).
    unfold to_list_reverse, rbegin.
    rewrite bind_assoc, (bind_ok _ _ _ _ _ (end_rep _ _ _ _ Hrep)), bind_ret.
    unfold rend, begin. rewrite Hhd.
    rewrite (rwalk_chain h ns _ (length vs) fuel Hdll Hnd) by lia.
    by rewrite take_app_length.
Qed.
End Bidirectional.

Section Insert.
Context {T : Type} `{!ValueInit T} `{!Allocator T}.
Implicit Types (h : heap T) (ns : list loc) (xs vs : list T) (l : List).

(** Dereferencing the iterator on the real node at index [i]. *)
Lemma deref_real h l ns vs (i : nat) a x :
  inv h l ns vs → ns !! i = Some a → vs !! i = Some x →
  iter_deref (mkIterator (Some a)) h = Ok (x, h).
Proof.
  intros Hinv Ha Hx. unfold iter_deref. cbn [node_].
  by rewrite (bind_deref _ _ _ _ (inv_lookup _ _ _ _ _ _ _ Hinv Ha Hx)).
Qed.

(** X5: [push_back] on any well-formed list appends the value and adds 1
    to [size()].  Iterators on the elements keep their values.  The
    sentinel is reused for the new element: the iterator that was [end()]
    before the call refers to the new element afterwards, and [end()] is a
    different iterator. *)
Theorem push_back_appends h l ns vs v (fuel : nat) :
  rep h l ns vs → Z.of_nat (length vs) + 1 < two64 →
  (length vs < fuel)%nat →
  ∃ l' h',
    push_back v l h = Ok (l', h') ∧
    to_list fuel l' h' = Ok (vs ++ [v], h') ∧ size l' = size l + 1 ∧
    (∀ (i : nat) a x, ns !! i = Some a → vs !! i = Some x →
       iter_deref (mkIterator (Some a)) h' = Ok (x, h')) ∧
    (vs ≠ [] → ∀ e, end_ l h = Ok (e, h) →
       iter_deref e h' = Ok (v, h') ∧
       ∃ e', end_ l' h' = Ok (e', h') ∧ e' ≠ e).
Proof.
  intros Hrep Hroom Hfuel.
  destruct (push_back_exact h l ns vs v Hrep Hroom)
    as (l' & h' & ms & Hrun & Hrep' & Hfresh & Hsame).
  pose proof (rep_inv _ _ _ _ Hrep') as Hinv'.
  exists l', h'. split_and!; [done| | | |].
  - apply (to_list_rep _ _ _ _ _ Hrep'). rewrite length_app. simpl. lia.
  - rewrite (rep_size _ _ _ _ Hinv'), (rep_size _ _ _ _ (rep_inv _ _ _ _ Hrep)).
    rewrite length_app. simpl. lia.
  - intros i a x Ha Hx.
    apply (deref_real _ _ _ _ i _ _ Hinv'); by apply lookup_app_l_Some.
  - intros Hvs e He.
    destruct (rep_dll _ _ _ _ Hrep Hvs) as (_ & _ & Hlen & _).
    destruct (lookup_lt_is_Some_2 ns (length vs)) as [s Hs]; [lia|].
    rewrite (end_rep _ _ _ _ Hrep), Hs in He. injection He as <-.
    split.
    + apply (deref_real _ _ _ _ (length vs) _ _ Hinv').
      * by apply lookup_app_l_Some.
      * by apply list_lookup_middle.
    + eexists. split; [by apply (end_rep _ _ _ _ Hrep')|].
      intros [= Heq].
      pose proof (NoDup_lookup _ _ _ _ (inv_NoDup _ _ _ _ Hinv') Heq
                    (lookup_app_l_Some _ ms _ _ Hs)) as Hidx.
      rewrite length_app in Hidx. simpl in Hidx. lia.
Qed.

(** X6: [push_front] on any well-formed list puts the value in front and
    adds 1 to [size()].  Iterators on the elements keep their values, and
    [end()] of a non-empty list is the same iterator before and after. *)
Theorem push_front_prepends h l ns vs v (fuel : nat) :
  rep h l ns vs → Z.of_nat (length vs) + 1 < two64 →
  (length vs < fuel)%nat →
  ∃ l' h',
    push_front v l h = Ok (l', h') ∧
    to_list fuel l' h' = Ok (v :: vs, h') ∧ size l' = size l + 1 ∧
    (∀ (i : nat) a x, ns !! i = Some a → vs !! i = Some x →
       iter_deref (mkIterator (Some a)) h' = Ok (x, h')) ∧
    (vs ≠ [] → ∀ e, end_ l h = Ok (e, h) → end_ l' h' = Ok (e, h')).
Proof.
  intros Hrep Hroom Hfuel. pose proof (rep_inv _ _ _ _ Hrep) as Hinv.
  destruct (decide (vs = [])) as [->|Hvs].
  - destruct (push_front_inv h l ns [] v Hinv Hroom)
      as (l' & h' & ns' & Hrun & _ & Hrep' & _).
    specialize (Hrep' Hrep).
    exists l', h'. split_and!; [done| | |done..].
    + apply (to_list_rep _ _ _ _ _ Hrep'). simpl in *. lia.
    + rewrite (rep_size _ _ _ _ (rep_inv _ _ _ _ Hrep')), (rep_size _ _ _ _ Hinv).
      done.
  - destruct (rep_dll _ _ _ _ Hrep Hvs) as (_ & _ & Hlen & _ & _).
    destruct Hrep as [(? & _)|[Hshape Htl]]; [done|].
    destruct (push_front_shape h l ns vs v Hshape Hroom)
      as (h' & Hrun & Hshape' & Hfr).
    set (a := alloc h) in *.
    set (l' := mkList (Some a) (tail_ l) (size_ l + 1)) in *.
    assert (0 < length vs)%nat as Hpos by (destruct vs; simpl; [done|lia]).
    assert (Hrep' : rep h' l' (a :: ns) (v :: vs)).
    { right. split; [done|]. unfold tail_good in *. subst l'.
      cbn [tail_ length]. rewrite Htl.
      replace (S (length ns) - 2)%nat with (S (length ns - 2)) by lia. done. }
    exists l', h'. split_and!; [done| |done| |].
    + apply (to_list_rep _ _ _ _ _ Hrep'). simpl. lia.
    + intros i b x Hb Hx.
      by apply (deref_real _ _ _ _ (S i) _ _ (rep_inv _ _ _ _ Hrep')).
    + intros _ e He.
      rewrite (end_rep h l ns vs) in He by (by right). injection He as <-.
      by rewrite (end_rep _ _ _ _ Hrep').
Qed.
End Insert.

Section Remove.
Context {T : Type} `{!ValueInit T} `{!Allocator T}.
Implicit Types (h : heap T) (ns : list loc) (xs vs : list T) (l : List).



(** X9: [erase(end())] on a well-formed list that does not hold exactly
    one element removes nothing: on an empty list [end()] is null, otherwise
    it is the sentinel, whose [next_] is null, and the call dereferences a
    null pointer. *)
Theorem erase_end_faults h l ns vs (fuel : nat) :
  rep h l ns vs → length vs ≠ 1%nat →
  ∃ e, end_ l h = Ok (e, h) ∧ erase fuel e l h = Fault.
Proof.
  intros Hrep Hne. pose proof (rep_inv _ _ _ _ Hrep) as Hinv.
  assert (size l ≠ 1) as Hsz by (rewrite (rep_size _ _ _ _ Hinv); lia).
  eexists. split; [by apply (end_rep _ _ _ _ Hrep)|].
  destruct (decide (vs = [])) as [->|Hvs].
  - destruct Hrep as [(_ & -> & _)|[(? & _) _]]; [|done].
    by apply erase_null.
  - destruct (rep_dll _ _ _ _ Hrep Hvs) as (Hdll & Hnd & Hlen & Hhd & Htl).
    assert (2 ≤ length vs)%nat.
    { clear -Hvs Hne. destruct vs as [|? [|? ?]]; simpl in *; [done|done|lia]. }
    destruct (lookup_lt_is_Some_2 ns (length vs)) as [s Hs]; [lia|].
    destruct (lookup_lt_is_Some_2 ns (length vs - 1)%nat) as [t Ht]; [lia|].
    destruct (lookup_lt_is_Some_2 vs (length vs - 1)%nat) as [y Hy]; [lia|].
    pose proof (inv_sentinel _ _ _ _ _ Hinv Hs) as Hcs.
    pose proof (inv_lookup _ _ _ _ _ _ _ Hinv Ht Hy) as Hct.
    assert (prev_at ns (length vs) = Some t) as Hprev.
    { destruct (length vs) as [|n] eqn:Hn; [lia|]. simpl.
      rewrite <- Ht. f_equal. lia. }
    rewrite Hprev in Hcs. rewrite Hs.
    eapply erase_no_next; [done|exact Hcs|exact Hct|].
    intros ->. pose proof (NoDup_lookup _ _ _ _ Hnd Ht Hs). lia.
Qed.
End Remove.

Section Lifetime.
Context {T : Type} `{!ValueInit T} `{!Allocator T}.
Implicit Types (h : heap T) (ns : list loc) (xs vs : list T) (l : List).

(** X10: [clear] on any list, also one whose [tail_] is stale, frees every
    node of the list, the sentinel included, leaves the list empty and
    changes no other address of the heap; iterators into the list are left
    dangling.  On an empty list it changes nothing. *)
Theorem clear_frees_the_list h l ns vs (fuel : nat) :
  inv h l ns vs → (length ns ≤ fuel)%nat →
  ∃ h',
    clear fuel l h = Ok (List_default, h') ∧
    (∀ a, a ∈ ns →
       h' !! a = Some Freed ∧ iter_deref (mkIterator (Some a)) h' = Fault) ∧
    same_outside ns h h' ∧ (vs = [] → h' = h) ∧
    clear fuel List_default h' = Ok (List_default, h').
Proof.
  intros Hinv Hfuel.
  destruct (clear_exact h l ns vs fuel Hinv Hfuel)
    as (h' & Hrun & Hfreed & Hsame).
  exists h'. split_and!; [done| |done| |by destruct fuel].
  - intros a Ha. split; [by apply Hfreed|].
    unfold iter_deref, bind. cbn [node_].
    by rewrite (deref_freed _ _ (Hfreed a Ha)).
  - intros ->. destruct Hinv as [(_ & -> & _)|[(? & _) _]]; [|done].
    apply map_eq. intros b. apply Hsame. by intros ?%elem_of_nil.
Qed.

(** A run of [push_back] calls, with the nodes it adds. *)
Lemma push_back_all_exact vs : ∀ h l ns ws,
  rep h l ns ws → Z.of_nat (length ws + length vs) < two64 →
  ∃ l' h' ms,
    push_back_all vs l h = Ok (l', h') ∧ rep h' l' (ns ++ ms) (ws ++ vs) ∧
    (∀ b, b ∈ ms → h !! b = None) ∧ same_outside (ns ++ ms) h h'.
Proof.
  induction vs as [|v vs IH]; intros h l ns ws Hrep Hroom.
  - exists l, h, []. rewrite !app_nil_r.
    split_and!; [done | done | by intros b ?%elem_of_nil | by intros b _].
  - simpl in Hroom.
    destruct (push_back_exact h l ns ws v Hrep)
      as (l1 & h1 & ms1 & Hrun1 & Hrep1 & Hfresh1 & Hsame1); [lia|].
    destruct (IH h1 l1 (ns ++ ms1) (ws ++ [v]) Hrep1)
      as (l2 & h2 & ms2 & Hrun2 & Hrep2 & Hfresh2 & Hsame2).
    { rewrite length_app. simpl. lia. }
    exists l2, h2, (ms1 ++ ms2).
    rewrite <- !app_assoc in Hrep2. simpl in Hrep2.
    split_and!; [|done| |].
    + cbn [push_back_all]. by rewrite (bind_ok _ _ _ _ _ Hrun1).
    + intros b [Hb|Hb]%elem_of_app; [by apply Hfresh1|].
      rewrite <- Hsame1; [by apply Hfresh2|].
      intros Hin. destruct (inv_live _ _ _ _ _ (rep_inv _ _ _ _ Hrep1) Hin)
        as [n Hn]. rewrite (Hfresh2 b Hb) in Hn. done.
    + intros b Hb. rewrite Hsame2, Hsame1; [done| |].
      * intros Hin. apply Hb. rewrite app_assoc. apply elem_of_app. by left.
      * by rewrite <- app_assoc.
Qed.

(** X11: building a list from a literal sequence and destroying it leaks
    nothing.  Every node still live after the destructor was live before the
    constructor, and every cell that existed before is unchanged. *)
Theorem construct_then_destroy_leaks_nothing (vs : list T) h0 (fuel : nat) :
  Z.of_nat (length vs) < two64 → (length vs < fuel)%nat →
  ∃ l h h',
    List_init vs h0 = Ok (l, h) ∧ clear fuel l h = Ok (List_default, h') ∧
    (∀ b c, h0 !! b = Some c → h' !! b = Some c) ∧
    (∀ b n, h' !! b = Some (Live n) → h0 !! b = Some (Live n)).
Proof.
  intros Hbound Hfuel.
  destruct (push_back_all_exact vs h0 List_default [] [])
    as (l & h & ms & Hrun & Hrep & Hfresh & Hsame); [by left|done|].
  simpl in Hrep, Hsame. pose proof (rep_inv _ _ _ _ Hrep) as Hinv.
  destruct (clear_exact h l ms vs fuel Hinv)
    as (h' & Hclear & Hfreed & Hsame').
  { pose proof (inv_length_le _ _ _ _ Hinv). lia. }
  exists l, h, h'. split_and!; [done..| |].
  - intros b c Hb.
    assert (b ∉ ms) by (intros Hin%Hfresh; congruence).
    by rewrite Hsame', Hsame.
  - intros b n Hb. destruct (decide (b ∈ ms)) as [Hin|Hnin].
    + rewrite (Hfreed b Hin) in Hb. done.
    + by rewrite <- Hsame, <- Hsame'.
Qed.
End Lifetime.

Section Copies.
Context {T : Type} `{!ValueInit T} `{!Allocator T}.
Implicit Types (h : heap T) (ns : list loc) (xs vs : list T) (l : List).




End Copies.

Section Assign.
Context {T : Type} `{!ValueInit T} `{!Allocator T}.
Implicit Types (h : heap T) (ns : list loc) (xs vs : list T) (l : List).

Lemma rep_bound h l ns vs : rep h l ns vs → Z.of_nat (length vs) < two64.
Proof. intros [(-> & _)|[(_ & _ & _ & _ & _ & Hb) _]]; done. Qed.

(** X14: copy assignment between two distinct well-formed lists gives the
    destination the values of the source in new nodes: nodes [ns'] that
    were not allocated before the call, none of them a node of the source
    or an old node of the destination.  It frees every node the
    destination had, and leaves the source and its nodes unchanged. *)
Theorem copy_assignment_replaces h lx nsx vsx ly nsy vsy (fuel : nat) :
  rep h lx nsx vsx → rep h ly nsy vsy → (∀ a, a ∈ nsx → a ∉ nsy) →
  (length vsx < fuel)%nat → (length vsy < fuel)%nat →
  ∃ l' h' ns',
    copy_assign fuel lx ly h = Ok (l', h') ∧
    rep h' l' ns' vsy ∧
    (∀ a, a ∈ ns' → h !! a = None ∧ (a ∉ nsx) ∧ (a ∉ nsy)) ∧
    to_list fuel l' h' = Ok (vsy, h') ∧ size l' = size ly ∧
    rep h' ly nsy vsy ∧ to_list fuel ly h' = Ok (vsy, h') ∧
    (∀ a, a ∈ nsx → h' !! a = Some Freed) ∧
    (∀ a, a ∈ nsy → h' !! a = h !! a).
Proof.
  intros Hx Hy Hdisj Hfx Hfy.
  destruct (List_copy_rep h ly nsy vsy fuel Hy ltac:(lia))
    as (tmp & h1 & nst & Hcopy & Hrept & Hg & Hfr).
  assert (Hnil : ∀ (ms : list loc) (a : loc), a ∈ ms → a ∉ @nil loc)
    by (intros ms a _; apply not_elem_of_nil).
  pose proof (rep_frame _ _ _ _ _ _ Hx Hfr (Hnil nsx)) as Hx1.
  pose proof (rep_frame _ _ _ _ _ _ Hy Hfr (Hnil nsy)) as Hy1.
  destruct (clear_exact h1 lx nsx vsx fuel (rep_inv _ _ _ _ Hx1))
    as (h2 & Hclear & Hfreed & Hsame).
  { pose proof (inv_length_le _ _ _ _ (rep_inv _ _ _ _ Hx1)). lia. }
  assert (Hfresh : ∀ a, a ∈ nst → a ∉ nsx).
  { intros a Ha Hin. destruct (Hg a Ha) as [?%elem_of_nil|Hnone]; [done|].
    destruct (inv_live _ _ _ _ _ (rep_inv _ _ _ _ Hx) Hin) as [n Hn].
    congruence. }
  assert (Hrept2 : rep h2 tmp nst vsy).
  { apply (rep_agree_on _ _ _ _ _ Hrept). intros a Ha. by apply Hsame, Hfresh. }
  assert (Hy2 : rep h2 ly nsy vsy).
  { apply (rep_agree_on _ _ _ _ _ Hy1). intros a Ha. apply Hsame.
    intros Hin. by apply (Hdisj a). }
  exists tmp, h2, nst. split_and!; [|done| | | |done| |done|].
  - unfold copy_assign. rewrite (bind_ok _ _ _ _ _ Hcopy), swap_members_eq.
    by rewrite (bind_ok _ _ _ _ _ Hclear).
  - intros a Ha.
    assert (h !! a = None) as Hnone
      by (by destruct (Hg a Ha) as [?%elem_of_nil|?]).
    split_and!; [done|by apply Hfresh|]. intros Hin.
    destruct (inv_live _ _ _ _ _ (rep_inv _ _ _ _ Hy) Hin) as [n Hn].
    congruence.
  - apply (to_list_rep _ _ _ _ _ Hrept2). lia.
  - rewrite (rep_size _ _ _ _ (rep_inv _ _ _ _ Hrept2)).
    by rewrite (rep_size _ _ _ _ (rep_inv _ _ _ _ Hy)).
  - apply (to_list_rep _ _ _ _ _ Hy2). lia.
  - intros a Ha. rewrite Hsame by (intros Hin; by apply (Hdisj a)).
    destruct (inv_live _ _ _ _ _ (rep_inv _ _ _ _ Hy) Ha) as [n Hn].
    rewrite Hn. apply Hfr; [done|]. by intros ?%elem_of_nil.
Qed.

Lemma take_drop_chain_values vs (i d : nat) :
  (i + d ≤ length vs)%nat →
  take d (drop i (chain_values (T:=T) vs)) = take d (drop i vs).
Proof.
  intros Hle. destruct vs as [|v vs]; [done|]. unfold chain_values.
  rewrite drop_app_le by lia. apply take_app_le. rewrite length_drop. lia.
Qed.

(** X15: the range constructor applied to the positions [i ≤ j] of a
    well-formed list builds a list of the values from [i] up to, not
    including, [j], in nodes of its own: nodes [ns'] that were not
    allocated before the call, none of them a node of the source.  The
    source and its nodes are unchanged. *)
Theorem range_constructor_slice h o ns vs (i j fuel : nat) :
  rep h o ns vs → (i ≤ j ≤ length vs)%nat → (length vs ≤ fuel)%nat →
  ∃ first last l' h' ns',
    advance i (begin o) h = Ok (first, h) ∧
    advance j (begin o) h = Ok (last, h) ∧
    List_range fuel first last h = Ok (l', h') ∧
    rep h' l' ns' (take (j - i) (drop i vs)) ∧
    (∀ a, a ∈ ns' → h !! a = None ∧ (a ∉ ns)) ∧
    to_list fuel l' h' = Ok (take (j - i) (drop i vs), h') ∧
    size l' = Z.of_nat (j - i) ∧
    rep h' o ns vs ∧ to_list fuel o h' = Ok (vs, h') ∧
    (∀ a, a ∈ ns → h' !! a = h !! a).
Proof.
  intros Hrep Hij Hfuel. pose proof (rep_inv _ _ _ _ Hrep) as Hinv.
  destruct (inv_chain _ _ _ _ Hinv) as [Hdll Hhd].
  pose proof (inv_length _ _ _ _ Hinv) as Hlen.
  pose proof (rep_bound _ _ _ _ Hrep) as Hbound.
  destruct (range_loop_chain ns (chain_values vs) j (j - i)
              (inv_NoDup _ _ _ _ Hinv) ltac:(lia)
              i fuel h List_default [] [] Hdll)
    as (l' & h' & ns' & Hrun & Hrep' & Hg & Hfr); try lia.
  { by left. }
  { by intros a ?%elem_of_nil. }
  { simpl. lia. }
  simpl in Hrep'. rewrite take_drop_chain_values in Hrep' by lia.
  assert (Hadv : ∀ k : nat, (k ≤ length vs)%nat →
            advance k (begin o) h = Ok (mkIterator (ns !! k), h)).
  { intros k Hk. unfold begin.
    rewrite Hhd, (advance_chain _ _ _ _ 0%nat Hdll) by lia.
    by rewrite decide_True by lia. }
  assert (length (take (j - i) (drop i vs)) = (j - i)%nat) as Hlen'.
  { rewrite length_take, length_drop. lia. }
  assert (Ho : rep h' o ns vs).
  { eapply rep_frame; [done..|]. by intros a _ ?%elem_of_nil. }
  exists (mkIterator (ns !! i)), (mkIterator (ns !! j)), l', h', ns'.
  split_and!;
    [by apply Hadv; lia | by apply Hadv; lia | done | done | | | | done | |].
  - intros a Ha.
    assert (h !! a = None) as Hnone
      by (by destruct (Hg a Ha) as [?%elem_of_nil|?]).
    split; [done|]. intros Hin.
    destruct (inv_live _ _ _ _ _ Hinv Hin) as [n Hn]. congruence.
  - apply (to_list_rep _ _ _ _ _ Hrep'). lia.
  - by rewrite (rep_size _ _ _ _ (rep_inv _ _ _ _ Hrep')), Hlen'.
  - by apply (to_list_rep h' o ns).
  - intros a Ha. destruct (inv_live _ _ _ _ _ Hinv Ha) as [n Hn].
    rewrite Hn. apply Hfr; [done|]. by intros ?%elem_of_nil.
Qed.
End Assign.

Section BadRange.
Context {T : Type} `{!ValueInit T} `{!Allocator T}.
Implicit Types (h : heap T) (ns : list loc) (xs vs : list T) (l : List).

(** The loop of the range constructor when the end position is not ahead:
    it copies up to and including the last node of the chain and then
    dereferences the null iterator. *)
Lemma range_loop_runs_off nso xs last (d : nat) :
  NoDup nso →
  ∀ (i fuel : nat) h l nsl ws,
    dll h nso xs → rep h l nsl ws → (∀ a, a ∈ nsl → a ∉ nso) →
    (i + d = length nso)%nat → (d < fuel)%nat →
    Z.of_nat (length ws + d) < two64 →
    (∀ k : nat, (i ≤ k)%nat → nso !! k ≠ node_ last) →
    range_loop fuel (mkIterator (nso !! i)) last l h = Fault.
Proof.
  intros Hnd. induction d as [|d IH];
    intros i fuel h l nsl ws Hdll Hrep Hdisj Hid Hfuel Hroom Hlast;
    (destruct fuel as [|fuel]; [lia|]);
    cbn [range_loop]; unfold iter_eq; cbn [node_];
    rewrite bool_decide_eq_false_2 by (by apply Hlast).
  - by rewrite lookup_ge_None_2 by lia.
  - destruct (lookup_lt_is_Some_2 nso i) as [a Ha]; [lia|].
    destruct (lookup_lt_is_Some_2 xs i) as [x Hx].
    { rewrite <- (dll_length _ _ _ Hdll). lia. }
    pose proof (dll_lookup _ _ _ _ _ _ Hdll Ha Hx) as Hcell.
    destruct (push_back_rep h l nsl ws x Hrep)
      as (l1 & h1 & nsl1 & Hrun1 & Hrep1 & Hg1 & Hf1); [lia|].
    assert (Hdisj1 : ∀ b, b ∈ nsl1 → b ∉ nso) by (by eapply grown_disjoint).
    assert (Hdll1 : dll h1 nso xs).
    { eapply dll_frame; [done..|]. intros b Hb Hb'. by eapply Hdisj. }
    rewrite Ha. unfold iter_deref, iter_incr. cbn [node_].
    rewrite bind_assoc, (bind_deref _ _ _ _ Hcell), bind_ret. cbn [data_].
    rewrite (bind_ok _ _ _ _ _ Hrun1), bind_assoc.
    erewrite bind_deref by (eapply dll_lookup; done).
    rewrite bind_ret. cbn [next_].
    apply (IH (S i) fuel h1 l1 nsl1 (ws ++ [x])); try done; try lia.
    + rewrite length_app. simpl. lia.
    + intros k Hk. apply Hlast. lia.
Qed.

(** X16: the range constructor called with the two positions of a list in
    the wrong order does not return a list: it runs through the sentinel,
    whose value it copies, and dereferences a null iterator. *)
Theorem range_constructor_backwards_faults h o ns vs (i j fuel : nat) :
  rep h o ns vs → (j < i ≤ length vs)%nat → (length vs + 2 ≤ i + fuel)%nat →
  ∃ first last,
    advance i (begin o) h = Ok (first, h) ∧
    advance j (begin o) h = Ok (last, h) ∧
    List_range fuel first last h = Fault.
Proof.
  intros Hrep Hij Hfuel. pose proof (rep_inv _ _ _ _ Hrep) as Hinv.
  assert (vs ≠ []) as Hvs by (intros ->; simpl in Hij; lia).
  destruct (rep_dll _ _ _ _ Hrep Hvs) as (Hdll & Hnd & Hlen & Hhd & _).
  pose proof (rep_bound _ _ _ _ Hrep) as Hbound.
  assert (Hadv : ∀ k : nat, (k ≤ length vs)%nat →
            advance k (begin o) h = Ok (mkIterator (ns !! k), h)).
  { intros k Hk. unfold begin.
    rewrite Hhd, (advance_chain _ _ _ _ 0%nat Hdll) by lia.
    by rewrite decide_True by lia. }
  destruct (lookup_lt_is_Some_2 ns j) as [b Hb]; [lia|].
  exists (mkIterator (ns !! i)), (mkIterator (ns !! j)).
  split_and!; [by apply Hadv; lia | by apply Hadv; lia |].
  apply (range_loop_runs_off ns _ _ (length ns - i) Hnd i fuel h
           List_default [] [] Hdll); try lia.
  - by left.
  - by intros a ?%elem_of_nil.
  - simpl. lia.
  - intros k Hk. cbn [node_]. rewrite Hb. intros Heq.
    pose proof (NoDup_lookup _ _ _ _ Hnd Heq Hb). lia.
Qed.
End BadRange.

Section Counting.
Context {T : Type} `{!ValueInit T} `{!Allocator T}.
Implicit Types (w : world T) (l : List).

(** X17: [size()] is the number of real nodes behind [begin()] in every
    state of [reachable]: a state reached from the empty program by the
    calls of [call] (where [erase] is given a position of the list it is
    called on, [begin()] incremented [k] times) that return without a
    fault, a read or write through a null or deleted pointer being a
    fault.  This includes the states an [erase] has left with a stale
    [tail_].  Every number of increments up to [size()] lands on a live
    node, and the node reached is the one with a null [next_] (the
    sentinel) exactly after [size()] increments. *)
Theorem size_counts_the_nodes w (x : nat) l :
  reachable w → objs w !! x = Some l → size l ≠ 0 →
  ∀ k : nat, (k ≤ Z.to_nat (size l))%nat →
    ∃ a n,
      advance k (begin l) (mem w) = Ok (mkIterator (Some a), mem w) ∧
      mem w !! a = Some (Live n) ∧
      (next_ n = None ↔ k = Z.to_nat (size l)).
Proof.
  intros (_ & fp & vals & [Hinv _])%reachable_owned Hx Hsz k Hk.
  specialize (Hinv x l Hx).
  pose proof (rep_size _ _ _ _ Hinv) as Hsize. rewrite Hsize in *.
  rewrite Nat2Z.id in *.
  destruct Hinv as [(Hnil & _)|[Hshape _]]; [by rewrite Hnil in Hsz|].
  pose proof (shape_length _ _ _ _ Hshape) as Hlen.
  destruct Hshape as (_ & Hnd & Hdll & Hhd & _).
  destruct (lookup_lt_is_Some_2 (fp x) k) as [a Ha]; [lia|].
  destruct (lookup_lt_is_Some_2 (vals x ++ [value_init]) k) as [v Hv].
  { rewrite length_app. simpl. lia. }
  eexists a, _. split_and!.
  - unfold begin. rewrite Hhd, (advance_chain _ _ _ _ 0%nat Hdll) by lia.
    rewrite decide_True by lia. by rewrite <- Ha.
  - by eapply dll_lookup.
  - cbn [next_]. split.
    + intros Hnone%lookup_ge_None_1. lia.
    + intros ->. apply lookup_ge_None_2. lia.
Qed.
End Counting.

Section Isolation.
Context {T : Type} `{!ValueInit T} `{!Allocator T}.
Implicit Types (h : heap T) (ns : list loc) (vs : list T) (l : List).
Implicit Types (w : world T) (fp : nat → list loc) (vals : nat → list T).

Lemma method_outside (x : nat) (c : List → M T List) w w' fp vals :
  owned w fp vals →
  (∀ l l' h', objs w !! x = Some l → c l (mem w) = Ok (l', h') →
     local_step (mem w) (fp x) l' h') →
  method x c w = Ok w' →
  ∀ (y : nat) ly, y ≠ x → objs w !! y = Some ly →
    objs w' !! y = Some ly ∧ ∀ a, a ∈ fp y → mem w' !! a = mem w !! a.
Proof.
  intros [Hinv Hdisj] Hlocal Hrun y ly Hyx Hy. unfold method in Hrun.
  destruct (objs w !! x) as [l|] eqn:Hx; [|done].
  destruct (c l (mem w)) as [[l' h']| |] eqn:Hc; [|done..].
  injection Hrun as <-. cbn [objs mem].
  destruct (Hlocal l l' h' eq_refl Hc) as (_ & _ & _ & _ & Hf).
  split; [by rewrite list_lookup_insert_ne|].
  intros a Ha. destruct (inv_live _ _ _ _ _ (Hinv y ly Hy) Ha) as [n Hn].
  rewrite Hn. apply Hf; [done|]. intros Hin.
  by eapply (Hdisj x y a); eauto.
Qed.

Lemma construct_outside (c : M T List) w w' fp vals :
  owned w fp vals →
  (∀ l' h', c (mem w) = Ok (l', h') → frame [] (mem w) h') →
  construct c w = Ok w' →
  ∀ (y : nat) ly, objs w !! y = Some ly →
    objs w' !! y = Some ly ∧ ∀ a, a ∈ fp y → mem w' !! a = mem w !! a.
Proof.
  intros [Hinv _] Hlocal Hrun y ly Hy. unfold construct in Hrun.
  destruct (c (mem w)) as [[l' h']| |] eqn:Hc; [|done..].
  injection Hrun as <-. cbn [objs mem].
  split; [by apply lookup_app_l_Some|].
  intros a Ha. destruct (inv_live _ _ _ _ _ (Hinv y ly Hy) Ha) as [n Hn].
  rewrite Hn. apply (Hlocal l' h' eq_refl); [done|]. by intros ?%elem_of_nil.
Qed.

(** A call that returns leaves the objects it is not made on, and their
    nodes, as they were. *)
Lemma exec_outside (fuel : nat) (c : call T) w w' fp vals :
  owned w fp vals → fits w → fits w' → exec fuel c w = Ok w' →
  ∀ (y : nat) ly, y ∉ targets c → objs w !! y = Some ly →
    objs w' !! y = Some ly ∧ ∀ a, a ∈ fp y → mem w' !! a = mem w !! a.
Proof.
  intros Hown Hfits Hfits' Hrun u lu Hu Hobj. pose proof Hown as [Hinv Hdisj].
  destruct c as [|y i z j|vs|y|y|x v|x v|x k|x|x y|x y];
    cbn [exec] in Hrun; cbn [targets] in Hu.
  - eapply construct_outside; [done| |done..].
    intros l' h' [= <- <-]. apply frame_refl.
  - destruct (objs w !! y) as [ly|] eqn:Hy; [|done].
    destruct (objs w !! z) as [lz|] eqn:Hz; [|done].
    eapply construct_outside; [done| |done..].
    intros l' h' Hc.
    destruct (inv_chain _ _ _ _ (Hinv y ly Hy)) as [Hdlly Hhdy].
    destruct (inv_chain _ _ _ _ (Hinv z lz Hz)) as [Hdllz Hhdz].
    unfold begin in Hc. rewrite Hhdy, Hhdz in Hc.
    unfold bind at 1 in Hc.
    rewrite (advance_chain _ _ _ i 0%nat Hdlly) in Hc by lia.
    case_decide as Hi; [|done]. simpl in Hi, Hc.
    unfold bind at 1 in Hc.
    rewrite (advance_chain _ _ _ j 0%nat Hdllz) in Hc by lia.
    case_decide as Hj; [|done]. simpl in Hc.
    by destruct (List_range_ok _ _ _ _ _ _ _ _ _ (Hinv y ly Hy)
                   (owned_room _ _ _ _ _ Hown Hfits Hy) Hi Hc)
      as (_ & _ & _ & _ & Hf).
  - eapply construct_outside; [done| |done..].
    intros l' h' Hc. unfold construct in Hrun. rewrite Hc in Hrun.
    injection Hrun as <-. unfold fits in Hfits'. cbn [mem] in Hfits'.
    by destruct (push_back_all_ok vs (mem w) List_default [] [] l' h')
      as (_ & _ & _ & Hf); [by left | done | done |].
  - destruct (objs w !! y) as [ly|] eqn:Hy; [|done].
    eapply construct_outside; [done| |done..].
    intros l' h' Hc.
    by destruct (List_copy_ok _ _ _ _ _ _ _ (Hinv y ly Hy)
                   (owned_room _ _ _ _ _ Hown Hfits Hy) Hc)
      as (_ & _ & _ & _ & Hf).
  - destruct (objs w !! y) as [ly|] eqn:Hy; [|done].
    rewrite List_move_eq in Hrun. injection Hrun as <-. cbn [objs mem].
    split; [|done]. apply lookup_app_l_Some.
    rewrite list_lookup_insert_ne; [done|]. intros ->. apply Hu. by left.
  - eapply method_outside; [done| |done| |done].
    + intros l l' h' Hx Hc.
      by eapply push_back_ok; [apply Hinv|eapply owned_room|].
    + intros ->. apply Hu. by left.
  - eapply method_outside; [done| |done| |done].
    + intros l l' h' Hx Hc.
      by eapply push_front_ok; [apply Hinv|eapply owned_room|].
    + intros ->. apply Hu. by left.
  - eapply method_outside; [done| |done| |done].
    + intros l l' h' Hx Hc. cbv beta in Hc.
      exact (erase_ok _ _ _ (vals x) k fuel _ _ (Hinv x l Hx) Hc).
    + intros ->. apply Hu. by left.
  - eapply method_outside; [done| |done| |done].
    + intros l l' h' Hx Hc.
      exact (clear_local _ _ _ (vals x) fuel _ _ (Hinv x l Hx) Hc).
    + intros ->. apply Hu. by left.
  - destruct (objs w !! x) as [lx|] eqn:Hx; [|done].
    destruct (objs w !! y) as [ly|] eqn:Hy; [|done].
    case_decide as Hxy; [by injection Hrun as <-|].
    eapply method_outside; [done| |done| |done].
    + intros l l' h' Hx' Hc. cbv beta in Hc.
      exact (copy_assign_ok _ _ _ (vals x) _ _ (vals y) fuel _ _
               (Hinv x l Hx') (Hinv y ly Hy)
               (owned_room _ _ _ _ _ Hown Hfits Hy) Hc).
    + intros ->. apply Hu. by left.
  - destruct (objs w !! x) as [lx|] eqn:Hx; [|done].
    destruct (objs w !! y) as [ly|] eqn:Hy; [|done].
    case_decide as Hxy; [by injection Hrun as <-|].
    unfold move_assign in Hrun. rewrite swap_members_eq in Hrun.
    injection Hrun as <-. cbn [objs mem]. split; [|done].
    rewrite !list_lookup_insert_ne; [done|..].
    + intros ->. apply Hu. by left.
    + intros ->. apply Hu. right. by left.
Qed.

(** A forward walk reads only the nodes of the chain it walks. *)
Lemma walk_agree h h' ns xs last (fuel : nat) :
  dll h ns xs → dll h' ns xs →
  ∀ (i : nat) vs,
    walk fuel (mkIterator (ns !! i)) last h = Ok (vs, h) →
    walk fuel (mkIterator (ns !! i)) last h' = Ok (vs, h').
Proof.
  intros Hdll Hdll'. induction fuel as [|fuel IH]; intros i vs;
    cbn [walk]; destruct (iter_eq _ last) eqn:Heq;
    try (by intros [= <-]); try done.
  destruct (ns !! i) as [a|] eqn:Ha; [|done].
  destruct (lookup_lt_is_Some_2 xs i) as [x Hx].
  { rewrite <- (dll_length _ _ _ Hdll). by eapply lookup_lt_Some. }
  pose proof (dll_lookup _ _ _ _ _ _ Hdll Ha Hx) as Hcell.
  pose proof (dll_lookup _ _ _ _ _ _ Hdll' Ha Hx) as Hcell'.
  unfold iter_deref, iter_incr. cbn [node_].
  rewrite !bind_assoc, (bind_deref _ _ _ _ Hcell), (bind_deref _ _ _ _ Hcell').
  rewrite !bind_ret, !bind_assoc.
  rewrite (bind_deref _ _ _ _ Hcell), (bind_deref _ _ _ _ Hcell'), !bind_ret.
  cbn [data_ next_]. unfold bind at 1.
  destruct (walk fuel _ last h) as [[ws h1]| |] eqn:Hw; [|done..].
  intros [= <- ->]. by rewrite (bind_ok _ _ _ _ _ (IH (S i) ws Hw)).
Qed.

(** In a state of [reachable], positions of two different lists are
    different nodes. *)
Lemma reachable_apart w (x z : nat) lx lz (i j : nat) a b hx hz :
  reachable w → x ≠ z → objs w !! x = Some lx → objs w !! z = Some lz →
  advance i (begin lx) (mem w) = Ok (mkIterator (Some a), hx) →
  advance j (begin lz) (mem w) = Ok (mkIterator (Some b), hz) →
  a ≠ b.
Proof.
  intros (_ & fp & vals & [Hinv Hdisj])%reachable_owned Hxz Hx Hz Hi Hj.
  assert (Hpos : ∀ (u k : nat) lu c hu, objs w !! u = Some lu →
            advance k (begin lu) (mem w) = Ok (mkIterator (Some c), hu) →
            c ∈ fp u).
  { intros u k lu c hu Hu Hadv.
    destruct (inv_chain _ _ _ _ (Hinv u lu Hu)) as [Hdll Hhd].
    unfold begin in Hadv.
    rewrite Hhd, (advance_chain _ _ _ _ 0%nat Hdll) in Hadv by lia.
    case_decide; [|done]. injection Hadv as Hc _.
    by eapply list_elem_of_lookup_2. }
  intros <-. eapply (Hdisj x z a); eauto.
Qed.

(** X18: in the states of [reachable] (reached from the empty program by
    the calls of [call], where [erase] is given a position of the list it
    is called on, that return without a fault, a read or write through a
    null or deleted pointer being a fault) the lists are separate.  Such a
    call leaves every list it is not made on (the argument of a copy or of
    a range construction included) as the same object, and a forward
    iteration over it that gave the values [vs] before the call gives
    [vs] after it; only the source of a move and the two sides of a move
    assignment count as written to.  And after the call no node is shared:
    positions of two different lists are different nodes. *)
Theorem calls_leave_other_lists_alone w (fuel : nat) (c : call T) w'
    (y : nat) ly :
  reachable w → exec fuel c w = Ok w' → fits w' →
  y ∉ targets c → objs w !! y = Some ly →
  objs w' !! y = Some ly ∧
  (∀ (fuel' : nat) vs,
     to_list fuel' ly (mem w) = Ok (vs, mem w) →
     to_list fuel' ly (mem w') = Ok (vs, mem w')) ∧
  (∀ (x z : nat) lx lz (i j : nat) a b hx hz,
     x ≠ z → objs w' !! x = Some lx → objs w' !! z = Some lz →
     advance i (begin lx) (mem w') = Ok (mkIterator (Some a), hx) →
     advance j (begin lz) (mem w') = Ok (mkIterator (Some b), hz) →
     a ≠ b).
Proof.
  intros Hreach Hrun Hfits' Hy Hobj.
  pose proof (reach_step _ _ _ _ Hreach Hrun Hfits') as Hreach'.
  apply reachable_owned in Hreach as (Hfits & fp & vals & Hown).
  destruct (exec_outside fuel c w w' fp vals Hown Hfits Hfits' Hrun y ly Hy Hobj)
    as [Hobj' Hsame].
  split; [done|]. split.
  2:{ intros x z lx lz i j a b hx hz. by apply reachable_apart. }
  intros fuel' vs Hwalk.
  destruct Hown as [Hinv _]. specialize (Hinv y ly Hobj).
  destruct Hinv as [(_ & _ & ->)|[Hshape [Htl|Hst]]].
  - unfold to_list, end_ in *. cbn [tail_ List_default] in *.
    rewrite bind_ret in *. unfold begin in *. cbn [head_ List_default] in *.
    destruct fuel'; cbn [walk] in *; unfold iter_eq in *; cbn [node_] in *;
      rewrite bool_decide_eq_true_2 in * by done; by injection Hwalk as <-.
  - pose proof (shape_length _ _ _ _ Hshape) as Hlen.
    destruct Hshape as (Hvs & Hnd & Hdll & Hhd & _).
    pose proof (dll_agree_on _ _ _ _ Hdll Hsame) as Hdll'.
    assert (length (vals y) ≠ 0)%nat as Hpos
      by (destruct (vals y); simpl; [done|lia]).
    unfold tail_good in Htl.
    destruct (lookup_lt_is_Some_2 (fp y) (length (fp y) - 2)%nat)
      as [t Ht]; [lia|].
    destruct (lookup_lt_is_Some_2 (vals y ++ [value_init])
                (length (fp y) - 2)%nat) as [vt Hvt].
    { rewrite length_app. simpl. lia. }
    pose proof (dll_lookup _ _ _ _ _ _ Hdll Ht Hvt) as Hcell.
    pose proof (dll_lookup _ _ _ _ _ _ Hdll' Ht Hvt) as Hcell'.
    unfold to_list, end_ in *. rewrite Htl, Ht in *.
    rewrite bind_assoc, (bind_deref _ _ _ _ Hcell), bind_ret in Hwalk.
    rewrite bind_assoc, (bind_deref _ _ _ _ Hcell'), bind_ret.
    unfold begin in *. rewrite Hhd in *.
    exact (walk_agree _ _ _ _ _ _ Hdll Hdll' 0%nat vs Hwalk).
  - unfold to_list in Hwalk. unfold bind in Hwalk.
    by rewrite (end_stale _ _ Hst) in Hwalk.
Qed.
End Isolation.
(** ** The hand-made lists are well formed *)

Section Examples.
Import Run.

Lemma rep_list5 : rep heap5 list5 [1%positive; 2%positive] [5].
Proof.
  right. split; [|reflexivity]. split_and!; try done.
  - compute_done.
  - split; [done|]. intros [|[|i]] a x Hi Hx; by simplify_eq/=.
Qed.

Lemma rep_list789 :
  rep heap789 list789 [1%positive; 2%positive; 3%positive; 4%positive] [7; 8; 9].
Proof.
  right. split; [|reflexivity]. split_and!; try done.
  - compute_done.
  - split; [done|]. intros [|[|[|[|i]]]] a x Hi Hx; by simplify_eq/=.
Qed.

Lemma rep_list_a : rep heap_ab list_a [1%positive; 2%positive] [1].
Proof.
  right. split; [|reflexivity]. split_and!; try done.
  - compute_done.
  - split; [done|]. intros [|[|i]] a x Hi Hx; by simplify_eq/=.
Qed.

Lemma rep_list_b : rep heap_ab list_b [3%positive; 4%positive] [2].
Proof.
  right. split; [|reflexivity]. split_and!; try done.
  - compute_done.
  - split; [done|]. intros [|[|i]] a x Hi Hx; by simplify_eq/=.
Qed.

Lemma reachable_world_erased : reachable world_erased.
Proof.
  apply (reach_step (exec_result_world (exec 0 (NewInit [1; 2]) start))
           0%nat (Erase 0 1)).
  - apply (reach_step start 0%nat (NewInit [1; 2])).
    + apply reach_init.
    + vm_compute. reflexivity.
    + vm_compute. reflexivity.
  - vm_compute. reflexivity.
  - vm_compute. reflexivity.
Qed.
End Examples.

(** * The claims on a concrete [List<int>] *)

Section Concrete.
Import Run.

(** C1 (the code departs from it): after [push_back(1); push_back(2);
    push_back(3)] forward iteration visits [1; 2; 3] and [size()] is 3, but
    the following [erase(begin())] does not give [2; 3]: it writes
    through the null [prev_] of the first node. *)
Theorem example_erase_begin_faults :
  (∃ h, run (let* l := List_init [1; 2; 3] in
             let* vs := to_list 3 l in ret (vs, size l))
        = Ok (([1; 2; 3], 3), h)) ∧
  (∀ fuel : nat,
     run (let* l := List_init [1; 2; 3] in erase fuel (begin l) l) = Fault).
Proof.
  split.
  - eexists. vm_compute. reflexivity.
  - intros fuel. reflexivity.
Qed.

(** C2 (the code departs from it): after [push_back(1); push_back(2)],
    [erase] of the last element leaves a list of size 1 whose [tail_]
    still points at the node just deleted, not at the new last element;
    [end()], forward iteration and [push_back] then read freed memory. *)
Theorem erase_last_leaves_tail_stale :
  ∃ it l' h' a,
    run (let* l := List_init [1; 2] in
         let* pos := advance 1 (begin l) in erase 0 pos l)
      = Ok (it, l', h') ∧
    size l' = 1 ∧ tail_ l' = Some a ∧ h' !! a = Some Freed ∧
    tail_ l' ≠ head_ l' ∧
    end_ l' h' = Fault ∧ to_list 3 l' h' = Fault ∧
    push_back 3 l' h' = Fault.
Proof.
  do 4 eexists. split; [vm_compute; reflexivity|]. by split_and!.
Qed.

(** C8 (the code departs from it): not for every list.  After
    [List o{1, 2}; o.erase(std::next(o.begin()));] the list [o] holds the
    one value 1, but [erase] has left [tail_] on the deleted node, so that
    [o.end()] reads freed memory and [List(o.begin(), o.end())] gives no
    list at all. *)
Theorem range_roundtrip_faults_on_stale_tail :
  ∃ it o h,
    run (let* l := List_init [1; 2] in
         let* pos := advance 1 (begin l) in erase 0 pos l)
      = Ok (it, o, h) ∧
    size o = 1 ∧ empty o = false ∧ front o h = Ok (1, h) ∧
    walk 1 (begin o) it h = Ok ([1], h) ∧
    end_ o h = Fault ∧
    ∀ fuel : nat,
      (let* last := end_ o in List_range fuel (begin o) last) h = Fault.
Proof.
  do 3 eexists. split; [vm_compute; reflexivity|]. split_and!; try done.
Qed.

(** C4 as stated fails: after [a = std::move(b)] with [a] holding [1] and
    [b] holding [2], the source [b] is not empty; it holds [1]. *)
Lemma move_assign_source_not_empty :
  ∃ w lb,
    exec_all 0 [NewInit [1]; NewInit [2]; MoveAssign 0 1] start = Ok w ∧
    objs w !! 1%nat = Some lb ∧ empty lb = false ∧
    to_list 1 lb (mem w) = Ok ([1], mem w).
Proof.
  do 2 eexists. split; [vm_compute; reflexivity|]. by split_and!.
Qed.
End Concrete.

(** * The theorems at concrete inputs *)

Section Witnesses.
Import Run.

Lemma push_back_sequence_witness :
  Z.of_nat (length [1; 2; 3]) < two64 ∧
  ∃ l h,
    push_back_all [1; 2; 3] List_default (∅ : heap Z) = Ok (l, h) ∧
    (∀ fuel : nat, (length [1; 2; 3] ≤ fuel)%nat →
       to_list fuel l h = Ok ([1; 2; 3], h)) ∧
    size l = Z.of_nat (length [1; 2; 3]).
Proof.
  split; [reflexivity|].
  apply (push_back_sequence [1; 2; 3] ∅). reflexivity.
Defined.

Lemma push_front_sequence_witness :
  Z.of_nat (length [1; 2; 3]) < two64 ∧
  ∃ l h,
    push_front_all [1; 2; 3] List_default (∅ : heap Z) = Ok (l, h) ∧
    (∀ fuel : nat, (length [1; 2; 3] ≤ fuel)%nat →
       to_list fuel l h = Ok (rev [1; 2; 3], h)) ∧
    size l = Z.of_nat (length [1; 2; 3]).
Proof.
  split; [reflexivity|].
  apply (push_front_sequence [1; 2; 3] ∅). reflexivity.
Defined.

Lemma erase_first_node_faults_witness :
  rep heap789 list789 [1%positive; 2%positive; 3%positive; 4%positive]
    [7; 8; 9] ∧
  (2 ≤ length [7; 8; 9])%nat ∧
  erase 0 (begin list789) list789 heap789 = Fault.
Proof.
  split; [exact rep_list789|]. split; [simpl; lia|].
  apply (erase_first_node_faults heap789 list789
           [1%positive; 2%positive; 3%positive; 4%positive] [7; 8; 9] 0%nat).
  - exact rep_list789.
  - simpl. lia.
Defined.

Lemma erase_only_element_witness :
  inv heap5 list5 [1%positive; 2%positive] [5] ∧ (2 ≤ 2)%nat ∧
  ∃ it l' h',
    erase 2 (begin list5) list5 heap5 = Ok (it, l', h') ∧
    empty l' = true ∧ size l' = 0 ∧
    it = mkIterator (head_ l') ∧ node_ it = None ∧
    end_ l' h' = Ok (it, h') ∧
    ∀ a, a ∈ [1%positive; 2%positive] → h' !! a = Some Freed.
Proof.
  split; [exact (rep_inv _ _ _ _ rep_list5)|]. split; [lia|].
  apply (erase_only_element heap5 list5 [1%positive; 2%positive] 5 2%nat).
  - exact (rep_inv _ _ _ _ rep_list5).
  - lia.
Defined.

Lemma erase_size_one_ignores_position_witness :
  size list5 = 1 ∧
  inv heap5 list5 [1%positive; 2%positive] [5] ∧ (2 ≤ 2)%nat ∧
  (∀ pos pos', erase 2 pos list5 heap5 = erase 2 pos' list5 heap5) ∧
  (∀ pos it l' h', erase 2 pos list5 heap5 = Ok (it, l', h') →
     it = mkIterator None ∧ l' = List_default) ∧
  ∃ h',
    (∀ pos, erase 2 pos list5 heap5
              = Ok (mkIterator None, List_default, h')) ∧
    length [1%positive; 2%positive] = 2%nat ∧
    (∀ a, a ∈ [1%positive; 2%positive] →
       ∃ n, heap5 !! a = Some (Live n)) ∧
    (∀ a, a ∈ [1%positive; 2%positive] → h' !! a = Some Freed) ∧
    same_outside [1%positive; 2%positive] heap5 h'.
Proof.
  destruct (erase_size_one_ignores_position heap5 list5 2%nat eq_refl)
    as (Hsame & Hnull & Hclears).
  split; [reflexivity|]. split; [exact (rep_inv _ _ _ _ rep_list5)|].
  split; [lia|]. split; [exact Hsame|]. split; [exact Hnull|].
  apply (Hclears [1%positive; 2%positive] [5]).
  - exact (rep_inv _ _ _ _ rep_list5).
  - lia.
Defined.

Lemma empty_iff_size_zero_witness :
  reachable world_erased ∧
  objs world_erased !! 0%nat = Some list_erased ∧
  (empty list_erased = true ↔ size list_erased = 0).
Proof.
  split; [exact reachable_world_erased|]. split; [reflexivity|].
  apply (empty_iff_size_zero world_erased 0%nat list_erased).
  - exact reachable_world_erased.
  - reflexivity.
Defined.

Lemma move_transfers_or_exchanges_witness :
  objs world_ab !! 1%nat = Some list_b ∧
  inv (mem world_ab) list_b [3%positive; 4%positive] [2] ∧
  (∃ w' l' ly',
     exec 0 (NewMove 1) world_ab = Ok w' ∧ mem w' = mem world_ab ∧
     objs w' !! length (objs world_ab) = Some l' ∧
     objs w' !! 1%nat = Some ly' ∧
     l' = list_b ∧ inv (mem w') l' [3%positive; 4%positive] [2] ∧
     size l' = Z.of_nat (length [2]) ∧
     empty ly' = true ∧ size ly' = 0) ∧
  0%nat ≠ 1%nat ∧
  objs world_ab !! 0%nat = Some list_a ∧
  inv (mem world_ab) list_a [1%positive; 2%positive] [1] ∧
  (∃ w' lx' ly',
     exec 0 (MoveAssign 0 1) world_ab = Ok w' ∧ mem w' = mem world_ab ∧
     objs w' !! 0%nat = Some lx' ∧ objs w' !! 1%nat = Some ly' ∧
     lx' = list_b ∧ inv (mem w') lx' [3%positive; 4%positive] [2] ∧
     size lx' = Z.of_nat (length [2]) ∧
     ly' = list_a ∧ inv (mem w') ly' [1%positive; 2%positive] [1] ∧
     (empty ly' = true ↔ [1] = [])).
Proof.
  destruct (move_transfers_or_exchanges world_ab 1%nat list_b
              [3%positive; 4%positive] [2] 0%nat eq_refl
              (rep_inv _ _ _ _ rep_list_b)) as [Hconstruct Hassign].
  split; [reflexivity|]. split; [exact (rep_inv _ _ _ _ rep_list_b)|].
  split; [exact Hconstruct|]. split; [lia|]. split; [reflexivity|].
  split; [exact (rep_inv _ _ _ _ rep_list_a)|].
  apply (Hassign 0%nat list_a [1%positive; 2%positive] [1]).
  - lia.
  - reflexivity.
  - exact (rep_inv _ _ _ _ rep_list_a).
Defined.
End Witnesses.

(** * The further properties on concrete lists *)

Section MoreExamples.
Import Run.

(** Two lists in one program, built by the code itself:
    [List a{1, 2}; List b{3};]. *)
Lemma reachable_two_lists :
  reachable (exec_result_world
               (exec_all 0 [NewInit [1; 2]; NewInit [3]] start)).
Proof.
  apply (reach_step (exec_result_world (exec 0 (NewInit [1; 2]) start))
           0%nat (NewInit [3])).
  - apply (reach_step start 0%nat (NewInit [1; 2])).
    + apply reach_init.
    + vm_compute. reflexivity.
    + vm_compute. reflexivity.
  - vm_compute. reflexivity.
  - vm_compute. reflexivity.
Qed.

Lemma front_back_values_witness :
  rep heap789 list789 [1%positive; 2%positive; 3%positive; 4%positive]
    [7; 8; 9] ∧
  front list789 heap789 = Ok (7, heap789) ∧
  back list789 heap789 = Ok (9, heap789).
Proof.
  split; [exact rep_list789|].
  exact (front_back_values heap789 list789
           [1%positive; 2%positive; 3%positive; 4%positive] [7; 8; 9]
           rep_list789).
Defined.

Lemma increments_past_the_end_witness :
  rep heap789 list789 [1%positive; 2%positive; 3%positive; 4%positive]
    [7; 8; 9] ∧
  [7; 8; 9] ≠ [] ∧
  advance 3 (begin list789) heap789 = end_ list789 heap789 ∧
  advance 4 (begin list789) heap789 = Ok (mkIterator None, heap789) ∧
  ∀ k : nat, (4 < k)%nat → advance k (begin list789) heap789 = Fault.
Proof.
  split; [exact rep_list789|]. split; [discriminate|].
  apply (increments_past_the_end heap789 list789
           [1%positive; 2%positive; 3%positive; 4%positive] [7; 8; 9]).
  - exact rep_list789.
  - discriminate.
Defined.

Lemma increment_and_decrement_invert_witness :
  rep heap789 list789 [1%positive; 2%positive; 3%positive; 4%positive]
    [7; 8; 9] ∧
  [7; 8; 9] ≠ [] ∧
  (∀ k : nat, (k < 3)%nat →
     ∃ it, advance k (begin list789) heap789 = Ok (it, heap789) ∧
           (let* n := iter_incr it in iter_decr n) heap789
             = Ok (it, heap789)) ∧
  (∀ k : nat, (0 < k ≤ 3)%nat →
     ∃ it, advance k (begin list789) heap789 = Ok (it, heap789) ∧
           (let* p := iter_decr it in iter_incr p) heap789
             = Ok (it, heap789)) ∧
  iter_decr (begin list789) heap789 = Ok (mkIterator None, heap789) ∧
  (let* e := end_ list789 in let* p := iter_decr e in iter_deref p) heap789
    = back list789 heap789.
Proof.
  split; [exact rep_list789|]. split; [discriminate|].
  apply (increment_and_decrement_invert heap789 list789
           [1%positive; 2%positive; 3%positive; 4%positive] [7; 8; 9]).
  - exact rep_list789.
  - discriminate.
Defined.

Lemma reverse_iteration_witness :
  rep heap789 list789 [1%positive; 2%positive; 3%positive; 4%positive]
    [7; 8; 9] ∧
  (length [7; 8; 9] ≤ 3)%nat ∧
  to_list_reverse 3 list789 heap789 = Ok ([9; 8; 7], heap789).
Proof.
  split; [exact rep_list789|]. split; [simpl; lia|].
  apply (reverse_iteration heap789 list789
           [1%positive; 2%positive; 3%positive; 4%positive] [7; 8; 9] 3%nat).
  - exact rep_list789.
  - simpl. lia.
Defined.

Lemma push_back_appends_witness :
  rep heap789 list789 [1%positive; 2%positive; 3%positive; 4%positive]
    [7; 8; 9] ∧
  Z.of_nat (length [7; 8; 9]) + 1 < two64 ∧
  (length [7; 8; 9] < 4)%nat ∧
  ∃ l' h',
    push_back 10 list789 heap789 = Ok (l', h') ∧
    to_list 4 l' h' = Ok ([7; 8; 9; 10], h') ∧
    size l' = size list789 + 1 ∧
    (∀ (i : nat) a x,
       [1%positive; 2%positive; 3%positive; 4%positive] !! i = Some a →
       [7; 8; 9] !! i = Some x →
       iter_deref (mkIterator (Some a)) h' = Ok (x, h')) ∧
    ([7; 8; 9] ≠ [] → ∀ e, end_ list789 heap789 = Ok (e, heap789) →
       iter_deref e h' = Ok (10, h') ∧
       ∃ e', end_ l' h' = Ok (e', h') ∧ e' ≠ e).
Proof.
  split; [exact rep_list789|]. split; [reflexivity|]. split; [simpl; lia|].
  apply (push_back_appends heap789 list789
           [1%positive; 2%positive; 3%positive; 4%positive] [7; 8; 9]
           10 4%nat).
  - exact rep_list789.
  - reflexivity.
  - simpl. lia.
Defined.

Lemma push_front_prepends_witness :
  rep heap789 list789 [1%positive; 2%positive; 3%positive; 4%positive]
    [7; 8; 9] ∧
  Z.of_nat (length [7; 8; 9]) + 1 < two64 ∧
  (length [7; 8; 9] < 4)%nat ∧
  ∃ l' h',
    push_front 6 list789 heap789 = Ok (l', h') ∧
    to_list 4 l' h' = Ok ([6; 7; 8; 9], h') ∧
    size l' = size list789 + 1 ∧
    (∀ (i : nat) a x,
       [1%positive; 2%positive; 3%positive; 4%positive] !! i = Some a →
       [7; 8; 9] !! i = Some x →
       iter_deref (mkIterator (Some a)) h' = Ok (x, h')) ∧
    ([7; 8; 9] ≠ [] → ∀ e, end_ list789 heap789 = Ok (e, heap789) →
       end_ l' h' = Ok (e, h')).
Proof.
  split; [exact rep_list789|]. split; [reflexivity|]. split; [simpl; lia|].
  apply (push_front_prepends heap789 list789
           [1%positive; 2%positive; 3%positive; 4%positive] [7; 8; 9]
           6 4%nat).
  - exact rep_list789.
  - reflexivity.
  - simpl. lia.
Defined.



Lemma erase_end_faults_witness :
  rep heap789 list789 [1%positive; 2%positive; 3%positive; 4%positive]
    [7; 8; 9] ∧
  length [7; 8; 9] ≠ 1%nat ∧
  ∃ e, end_ list789 heap789 = Ok (e, heap789) ∧
       erase 4 e list789 heap789 = Fault.
Proof.
  split; [exact rep_list789|]. split; [discriminate|].
  apply (erase_end_faults heap789 list789
           [1%positive; 2%positive; 3%positive; 4%positive] [7; 8; 9] 4%nat).
  - exact rep_list789.
  - discriminate.
Defined.

Lemma clear_frees_the_list_witness :
  inv heap789 list789 [1%positive; 2%positive; 3%positive; 4%positive]
    [7; 8; 9] ∧
  (length [1%positive; 2%positive; 3%positive; 4%positive] ≤ 4)%nat ∧
  ∃ h',
    clear 4 list789 heap789 = Ok (List_default, h') ∧
    (∀ a, a ∈ [1%positive; 2%positive; 3%positive; 4%positive] →
       h' !! a = Some Freed ∧ iter_deref (mkIterator (Some a)) h' = Fault) ∧
    same_outside [1%positive; 2%positive; 3%positive; 4%positive]
      heap789 h' ∧
    ([7; 8; 9] = [] → h' = heap789) ∧
    clear 4 List_default h' = Ok (List_default, h').
Proof.
  split; [exact (rep_inv _ _ _ _ rep_list789)|]. split; [simpl; lia|].
  apply (clear_frees_the_list heap789 list789
           [1%positive; 2%positive; 3%positive; 4%positive] [7; 8; 9] 4%nat).
  - exact (rep_inv _ _ _ _ rep_list789).
  - simpl. lia.
Defined.

Lemma construct_then_destroy_leaks_nothing_witness :
  Z.of_nat (length [1; 2]) < two64 ∧ (length [1; 2] < 3)%nat ∧
  ∃ l h h',
    List_init [1; 2] heap5 = Ok (l, h) ∧
    clear 3 l h = Ok (List_default, h') ∧
    (∀ b c, heap5 !! b = Some c → h' !! b = Some c) ∧
    (∀ b n, h' !! b = Some (Live n) → heap5 !! b = Some (Live n)).
Proof.
  split; [reflexivity|]. split; [simpl; lia|].
  apply (construct_then_destroy_leaks_nothing [1; 2] heap5 3%nat).
  - reflexivity.
  - simpl. lia.
Defined.



Lemma copy_assignment_replaces_witness :
  rep heap_ab list_a [1%positive; 2%positive] [1] ∧
  rep heap_ab list_b [3%positive; 4%positive] [2] ∧
  (∀ a, a ∈ [1%positive; 2%positive] → a ∉ [3%positive; 4%positive]) ∧
  (length [1] < 2)%nat ∧ (length [2] < 2)%nat ∧
  ∃ l' h' ns',
    copy_assign 2 list_a list_b heap_ab = Ok (l', h') ∧
    rep h' l' ns' [2] ∧
    (∀ a, a ∈ ns' →
       heap_ab !! a = None ∧ (a ∉ [1%positive; 2%positive]) ∧
       (a ∉ [3%positive; 4%positive])) ∧
    to_list 2 l' h' = Ok ([2], h') ∧ size l' = size list_b ∧
    rep h' list_b [3%positive; 4%positive] [2] ∧
    to_list 2 list_b h' = Ok ([2], h') ∧
    (∀ a, a ∈ [1%positive; 2%positive] → h' !! a = Some Freed) ∧
    (∀ a, a ∈ [3%positive; 4%positive] → h' !! a = heap_ab !! a).
Proof.
  assert (Hdisj : ∀ a : loc, a ∈ [1%positive; 2%positive] →
                    a ∉ [3%positive; 4%positive]).
  { intros a Ha Hb. revert Ha.
    apply elem_of_cons in Hb as [->|Hb%list_elem_of_singleton];
      [|subst a]; intros Ha;
      apply elem_of_cons in Ha as [Ha|Ha%list_elem_of_singleton];
      discriminate. }
  split; [exact rep_list_a|]. split; [exact rep_list_b|].
  split; [exact Hdisj|]. split; [simpl; lia|]. split; [simpl; lia|].
  apply (copy_assignment_replaces heap_ab list_a [1%positive; 2%positive] [1]
           list_b [3%positive; 4%positive] [2] 2%nat).
  - exact rep_list_a.
  - exact rep_list_b.
  - exact Hdisj.
  - simpl. lia.
  - simpl. lia.
Defined.

Lemma range_constructor_slice_witness :
  rep heap789 list789 [1%positive; 2%positive; 3%positive; 4%positive]
    [7; 8; 9] ∧
  (1 ≤ 2 ≤ length [7; 8; 9])%nat ∧ (length [7; 8; 9] ≤ 3)%nat ∧
  ∃ first last l' h' ns',
    advance 1 (begin list789) heap789 = Ok (first, heap789) ∧
    advance 2 (begin list789) heap789 = Ok (last, heap789) ∧
    List_range 3 first last heap789 = Ok (l', h') ∧
    rep h' l' ns' [8] ∧
    (∀ a, a ∈ ns' →
       heap789 !! a = None ∧
       (a ∉ [1%positive; 2%positive; 3%positive; 4%positive])) ∧
    to_list 3 l' h' = Ok ([8], h') ∧
    size l' = 1 ∧
    rep h' list789 [1%positive; 2%positive; 3%positive; 4%positive]
      [7; 8; 9] ∧
    to_list 3 list789 h' = Ok ([7; 8; 9], h') ∧
    (∀ a, a ∈ [1%positive; 2%positive; 3%positive; 4%positive] →
       h' !! a = heap789 !! a).
Proof.
  split; [exact rep_list789|]. split; [simpl; lia|]. split; [simpl; lia|].
  apply (range_constructor_slice heap789 list789
           [1%positive; 2%positive; 3%positive; 4%positive] [7; 8; 9]
           1%nat 2%nat 3%nat).
  - exact rep_list789.
  - simpl. lia.
  - simpl. lia.
Defined.

Lemma range_constructor_backwards_faults_witness :
  rep heap789 list789 [1%positive; 2%positive; 3%positive; 4%positive]
    [7; 8; 9] ∧
  (1 < 2 ≤ length [7; 8; 9])%nat ∧ (length [7; 8; 9] + 2 ≤ 2 + 3)%nat ∧
  ∃ first last,
    advance 2 (begin list789) heap789 = Ok (first, heap789) ∧
    advance 1 (begin list789) heap789 = Ok (last, heap789) ∧
    List_range 3 first last heap789 = Fault.
Proof.
  split; [exact rep_list789|]. split; [simpl; lia|]. split; [simpl; lia|].
  apply (range_constructor_backwards_faults heap789 list789
           [1%positive; 2%positive; 3%positive; 4%positive] [7; 8; 9]
           2%nat 1%nat 3%nat).
  - exact rep_list789.
  - simpl. lia.
  - simpl. lia.
Defined.

Lemma size_counts_the_nodes_witness :
  reachable world_erased ∧
  objs world_erased !! 0%nat = Some list_erased ∧
  size list_erased ≠ 0 ∧
  ∀ k : nat, (k ≤ Z.to_nat (size list_erased))%nat →
    ∃ a n,
      advance k (begin list_erased) (mem world_erased)
        = Ok (mkIterator (Some a), mem world_erased) ∧
      mem world_erased !! a = Some (Live n) ∧
      (next_ n = None ↔ k = Z.to_nat (size list_erased)).
Proof.
  split; [exact reachable_world_erased|]. split; [reflexivity|].
  split; [discriminate|].
  apply (size_counts_the_nodes world_erased 0%nat list_erased).
  - exact reachable_world_erased.
  - reflexivity.
  - discriminate.
Defined.

Lemma calls_leave_other_lists_alone_witness :
  reachable (exec_result_world
               (exec_all 0 [NewInit [1; 2]; NewInit [3]] start)) ∧
  exec 0 (PushBack 1 5)
    (exec_result_world (exec_all 0 [NewInit [1; 2]; NewInit [3]] start))
    = Ok (exec_result_world
            (exec_all 0 [NewInit [1; 2]; NewInit [3]; PushBack 1 5] start)) ∧
  fits (exec_result_world
          (exec_all 0 [NewInit [1; 2]; NewInit [3]; PushBack 1 5] start)) ∧
  (0%nat ∉ targets (PushBack 1 5 : call Z)) ∧
  objs (exec_result_world
          (exec_all 0 [NewInit [1; 2]; NewInit [3]] start)) !! 0%nat
    = Some (mkList (Some 1%positive) (Some 2%positive) 2) ∧
  objs (exec_result_world
          (exec_all 0 [NewInit [1; 2]; NewInit [3]; PushBack 1 5] start))
    !! 0%nat
    = Some (mkList (Some 1%positive) (Some 2%positive) 2) ∧
  (∀ (fuel' : nat) vs,
     to_list fuel' (mkList (Some 1%positive) (Some 2%positive) 2)
       (mem (exec_result_world
               (exec_all 0 [NewInit [1; 2]; NewInit [3]] start)))
       = Ok (vs, mem (exec_result_world
                        (exec_all 0 [NewInit [1; 2]; NewInit [3]] start))) →
     to_list fuel' (mkList (Some 1%positive) (Some 2%positive) 2)
       (mem (exec_result_world
               (exec_all 0 [NewInit [1; 2]; NewInit [3]; PushBack 1 5]
                  start)))
       = Ok (vs, mem (exec_result_world
                        (exec_all 0
                           [NewInit [1; 2]; NewInit [3]; PushBack 1 5]
                           start)))) ∧
  (∀ (x z : nat) lx lz (i j : nat) a b hx hz,
     x ≠ z →
     objs (exec_result_world
             (exec_all 0 [NewInit [1; 2]; NewInit [3]; PushBack 1 5] start))
       !! x = Some lx →
     objs (exec_result_world
             (exec_all 0 [NewInit [1; 2]; NewInit [3]; PushBack 1 5] start))
       !! z = Some lz →
     advance i (begin lx)
       (mem (exec_result_world
               (exec_all 0 [NewInit [1; 2]; NewInit [3]; PushBack 1 5]
                  start)))
       = Ok (mkIterator (Some a), hx) →
     advance j (begin lz)
       (mem (exec_result_world
               (exec_all 0 [NewInit [1; 2]; NewInit [3]; PushBack 1 5]
                  start)))
       = Ok (mkIterator (Some b), hz) →
     a ≠ b).
Proof.
  assert (Hy : 0%nat ∉ targets (PushBack 1 5 : call Z)).
  { intros Hin%list_elem_of_singleton. discriminate. }
  split; [exact reachable_two_lists|].
  split; [vm_compute; reflexivity|]. split; [vm_compute; reflexivity|].
  split; [exact Hy|]. split; [vm_compute; reflexivity|].
  apply (calls_leave_other_lists_alone
           (exec_result_world (exec_all 0 [NewInit [1; 2]; NewInit [3]] start))
           0%nat (PushBack 1 5)
           (exec_result_world
              (exec_all 0 [NewInit [1; 2]; NewInit [3]; PushBack 1 5] start))
           0%nat (mkList (Some 1%positive) (Some 2%positive) 2)).
  - exact reachable_two_lists.
  - vm_compute. reflexivity.
  - vm_compute. reflexivity.
  - exact Hy.
  - vm_compute. reflexivity.
Defined.
End MoreExamples.
